(** * Graph search: depth-first, breadth-first and best-first graph search
    over the [Problem] / [Node] framework of [path_finding_algorithms.py],
    with the weighted [Graph] container, [GraphProblem] and the text loader.

    The development is a shallow embedding: every Python function becomes a
    Rocq function with the same name.  Mutable objects ([Graph.graph_dict],
    which [Graph.get] updates through [setdefault]) are threaded explicitly;
    the three search loops are small-step machines over the loop variables
    [frontier], [explored] and the children still to be handled. *)

From Stdlib Require Import ZArith String Ascii Lia.
From Stdlib Require Decimal DecimalString DecimalZ DecimalPos.
From stdpp Require Import base option list gmap.

Local Open Scope Z_scope.
Local Open Scope nat_scope.

(** ** Costs: Python integers extended with [np.inf] *)

Inductive cost : Type :=
  | Fin (z : Z)
  | Inf.

#[global] Instance cost_eq_dec : EqDecision cost.
Proof. solve_decision. Defined.

(** [a + b] on ints and [np.inf]. *)
Definition cost_add (a b : cost) : cost :=
  match a, b with
  | Fin x, Fin y => Fin (x + y)
  | _, _ => Inf
  end.

(** [a < b] on ints and [np.inf]. *)
Definition cost_ltb (a b : cost) : bool :=
  match a, b with
  | Fin x, Fin y => (x <? y)%Z
  | Fin _, Inf => true
  | Inf, _ => false
  end.

(** ** Exceptions *)

Inductive exn : Type := KeyError | ValueError | IndexError.

Inductive res (A : Type) : Type :=
  | Ok (a : A)
  | Raise (e : exn).
Arguments Ok {A} a.
Arguments Raise {A} e.

#[global] Instance res_ret : MRet res := fun A a => Ok a.
#[global] Instance res_bind : MBind res := fun A B k m =>
  match m with
  | Ok a => k a
  | Raise e => Raise e
  end.

Fixpoint res_mapM {A B} (f : A → res B) (l : list A) : res (list B) :=
  match l with
  | [] => Ok []
  | a :: r => b ← f a; bs ← res_mapM f r; Ok (b :: bs)
  end.

(** ** Python dictionaries

    A [dict] keeps its keys in insertion order, and the searches observe that
    order (it is the order in which children are generated), so a dictionary
    is an association list with distinct keys. *)

Abbreviation dict K V := (list (K * V)).

Section dict.
Context {K V : Type} `{EqDecision K}.

(** [d.get(k)] *)
Fixpoint dict_get (d : dict K V) (k : K) : option V :=
  match d with
  | [] => None
  | (k', v) :: r => if decide (k = k') then Some v else dict_get r k
  end.

(** [d[k] = v]: an existing key keeps its position. *)
Fixpoint dict_set (d : dict K V) (k : K) (v : V) : dict K V :=
  match d with
  | [] => [(k, v)]
  | (k', v') :: r =>
      if decide (k = k') then (k', v) :: r else (k', v') :: dict_set r k v
  end.

(** [d.setdefault(k, v)]: the value bound to [k], which is [v] (newly
    inserted at the end) when [k] was absent. *)
Definition dict_setdefault (d : dict K V) (k : K) (v : V) : V * dict K V :=
  match dict_get d k with
  | Some x => (x, d)
  | None => (v, d ++ [(k, v)])
  end.

(** [list(d.keys())] *)
Definition dict_keys (d : dict K V) : list K := map fst d.
End dict.

(** ** Graph *)

Record Graph : Type := mkGraph {
  graph_dict : dict Z (dict Z Z);
  directed : bool;
  (** the attribute [locations] is only set by the loader *)
  locations : option (dict Z (list Z))
}.

(** [Graph()] *)
Definition Graph_init : Graph := mkGraph [] true None.

Definition set_graph_dict (g : Graph) (d : dict Z (dict Z Z)) : Graph :=
  mkGraph d (directed g) (locations g).

(** [connect1]: [self.graph_dict.setdefault(A, {})[B] = distance] *)
Definition connect1 (g : Graph) (A B : Z) (distance : Z) : Graph :=
  let '(links, d) := dict_setdefault (graph_dict g) A [] in
  set_graph_dict g (dict_set d A (dict_set links B distance)).

(** [connect] *)
Definition connect (g : Graph) (A B : Z) (distance : Z) : Graph :=
  let g1 := connect1 g A B distance in
  if negb (directed g1) then connect1 g1 B A distance else g1.

(** What [Graph.get] returns: the dictionary of links, or one distance
    ([None] when there is none). *)
Inductive get_result : Type :=
  | Links (links : dict Z Z)
  | Distance (d : option Z).

(** [get(a, b=None)].  The first line is a [setdefault] on the adjacency
    dictionary, so the call returns the graph it leaves behind as well. *)
Definition get (g : Graph) (a : Z) (b : option Z) : get_result * Graph :=
  let '(links, d) := dict_setdefault (graph_dict g) a [] in
  match b with
  | None => (Links links, set_graph_dict g d)
  | Some b => (Distance (dict_get links b), set_graph_dict g d)
  end.

(** [nodes()], as a list without repetition (the source builds a set). *)
Definition nodes (g : Graph) : list Z :=
  remove_dups (dict_keys (graph_dict g)
               ++ concat (map (fun kv => dict_keys kv.2) (graph_dict g))).

(** The weight of the edge [a -> b], read without touching the graph. *)
Definition edge_weight (g : Graph) (a b : Z) : option Z :=
  match dict_get (graph_dict g) a with
  | Some links => dict_get links b
  | None => None
  end.

(** [make_undirected]: for every key [a] of the adjacency dictionary (the
    keys are listed before the loop starts) and every link [(b, dist)] of
    [a] at that moment, [connect1(b, a, dist)].  The inner loop reads the
    links of [a] while [connect1] writes to the links of [b]; for [b = a]
    it rewrites the value already bound to [a], so what the loop iterates
    over is the dictionary it found. *)
Definition make_undirected (g : Graph) : Graph :=
  fold_left
    (fun g a =>
       match dict_get (graph_dict g) a with
       | Some links => fold_left (fun g bd => connect1 g bd.1 a bd.2) links g
       | None => g
       end)
    (dict_keys (graph_dict g)) g.

(** [Graph(graph_dict, directed)]: [graph_dict or {}], then
    [make_undirected] for an undirected graph. *)
Definition Graph_new (graph_dict : option (dict Z (dict Z Z)))
    (directed : bool) : Graph :=
  let g := mkGraph (default [] graph_dict) directed None in
  if negb directed then make_undirected g else g.

(** ** Problems, nodes and the three searches *)

Section Search.
Context {State Action W : Type} `{Countable State}.

(** [state1 < state2], which [Node.__lt__] relies on. *)
Variable state_ltb : State → State → bool.

(** The goal given to [Problem.__init__]: none, one state, or a list. *)
Inductive Goal : Type :=
  | GoalNone
  | GoalState (s : State)
  | GoalList (l : list State).

(** A problem is an object: [W] is the mutable store its methods work on
    (for a [GraphProblem], the graph).  [actions] and [path_cost] may write
    to it; [problem_path_cost] is the method [path_cost], renamed because a
    node has an attribute of that name. *)
Record Problem : Type := mkProblem {
  initial : State;
  goal : Goal;
  actions : State → W → list Action * W;
  result : State → Action → State;
  goal_test : State → bool;
  problem_path_cost : cost → State → Action → State → W → cost * W
}.

(** [Problem.goal_test].  Modelled from the spec: the helper [is_in] (module
    [utils]) is not part of the source file; the spec reads the test for a
    list of goals as membership of the state in it. *)
Definition Problem_goal_test (g : Goal) (s : State) : bool :=
  match g with
  | GoalList l => bool_decide (s ∈ l)
  | GoalState s' => bool_decide (s = s')
  | GoalNone => false
  end.

(** [Problem.path_cost] *)
Definition Problem_path_cost (c : cost) (state1 : State) (a : Action)
    (state2 : State) (w : W) : cost * W :=
  (cost_add c (Fin 1), w).

#[warnings="-register-all"]
Inductive Node : Type := mkNode {
  state : State;
  parent : option Node;
  action : option Action;
  path_cost : cost;
  depth : nat
}.

(** [Node.__init__] *)
Definition Node_init (st : State) (par : option Node) (act : option Action)
    (pc : cost) : Node :=
  mkNode st par act pc
    (match par with
     | Some q => depth q + 1
     | None => 0
     end).

(** [Node.__eq__] and [Node.__lt__] *)
Definition Node_eqb (n m : Node) : bool := bool_decide (state n = state m).
Definition Node_ltb (n m : Node) : bool := state_ltb (state n) (state m).

(** [child_node] *)
Definition child_node (n : Node) (p : Problem) (a : Action) (w : W)
    : Node * W :=
  let next_state := result p (state n) a in
  let '(c, w') := problem_path_cost p (path_cost n) (state n) a next_state w in
  (Node_init next_state (Some n) (Some a) c, w').

(** The list comprehension of [expand], over the actions already listed. *)
Fixpoint child_nodes (n : Node) (p : Problem) (acts : list Action) (w : W)
    : list Node * W :=
  match acts with
  | [] => ([], w)
  | a :: r =>
      let '(c, w1) := child_node n p a w in
      let '(cs, w2) := child_nodes n p r w1 in
      (c :: cs, w2)
  end.

(** [expand] *)
Definition expand (n : Node) (p : Problem) (w : W) : list Node * W :=
  let '(acts, w1) := actions p (state n) w in
  child_nodes n p acts w1.

(** The loop of [path]: the node, then its ancestors. *)
Fixpoint path_back (n : Node) : list Node :=
  match n with
  | mkNode _ par _ _ _ =>
      n :: match par with
           | Some q => path_back q
           | None => []
           end
  end.

(** [path] *)
Definition path (n : Node) : list Node := rev (path_back n).

(** [solution] *)
Definition solution (n : Node) : list (option Action) :=
  map action (tail (path n)).

(** *** What a search returns

    The source returns a bare node, a pair, or a bare count. *)
Inductive search_result : Type :=
  | NodeOnly (n : Node)
  | NodeAndCount (n : Node) (count : nat)
  | CountOnly (count : nat).

(** The loop variables of a search.  [pending] holds the children of the
    node being expanded that the inner loop has not handled yet. *)
Record config (F : Type) : Type := Config {
  frontier : F;
  explored : gset State;
  pending : list Node;
  world : W
}.
Arguments Config {F} _ _ _ _.
Arguments frontier {F} _.
Arguments explored {F} _.
Arguments pending {F} _.
Arguments world {F} _.

Inductive outcome (F : Type) : Type :=
  | Running (c : config F)
  | Returned (r : search_result) (w : W).
Arguments Running {F} c.
Arguments Returned {F} r w.

Fixpoint run {F} (step : config F → outcome F) (fuel : nat) (c : config F)
    : option (search_result * W) :=
  match fuel with
  | 0 => None
  | S k =>
      match step c with
      | Returned r w => Some (r, w)
      | Running c' => run step k c'
      end
  end.

(** [child in frontier] for a list or a deque of nodes *)
Definition node_in (n : Node) (l : list Node) : bool :=
  existsb (fun m => Node_eqb m n) l.

(** [frontier.pop()] on a list: the last element. *)
Definition list_pop (l : list Node) : option (Node * list Node) :=
  match rev l with
  | [] => None
  | x :: r => Some (x, rev r)
  end.

Variable problem : Problem.

(** *** [depth_first_graph_search]

    [frontier.extend(child for child in ... if ...)] draws the children
    from the generator one at a time and appends each before asking for
    the next, so the test [child not in frontier] sees the children
    appended before it. *)
Definition dfs_step (c : config (list Node)) : outcome (list Node) :=
  match pending c with
  | child :: rest =>
      if bool_decide (state child ∉ explored c)
         && negb (node_in child (frontier c))
      then Running (Config (frontier c ++ [child]) (explored c) rest (world c))
      else Running (Config (frontier c) (explored c) rest (world c))
  | [] =>
      match list_pop (frontier c) with
      | None => Returned (CountOnly (size (explored c))) (world c)
      | Some (node, fr) =>
          if goal_test problem (state node)
          then Returned (NodeAndCount node (size (explored c))) (world c)
          else
            let ex := {[state node]} ∪ explored c in
            let '(children, w) := expand node problem (world c) in
            Running (Config fr ex children w)
      end
  end.

Definition dfs_init (w : W) : config (list Node) :=
  Config [Node_init (initial problem) None None (Fin 0)] ∅ [] w.

Definition depth_first_graph_search (fuel : nat) (w : W)
    : option (search_result * W) :=
  run dfs_step fuel (dfs_init w).

(** *** [breadth_first_graph_search] *)
Definition bfs_step (c : config (list Node)) : outcome (list Node) :=
  match pending c with
  | child :: rest =>
      if bool_decide (state child ∉ explored c)
         && negb (node_in child (frontier c))
      then
        if goal_test problem (state child)
        then Returned (NodeAndCount child (size (explored c))) (world c)
        else Running (Config (frontier c ++ [child]) (explored c) rest (world c))
      else Running (Config (frontier c) (explored c) rest (world c))
  | [] =>
      match frontier c with
      | [] => Returned (CountOnly (size (explored c))) (world c)
      | node :: fr =>
          let ex := {[state node]} ∪ explored c in
          let '(children, w) := expand node problem (world c) in
          Running (Config fr ex children w)
      end
  end.

Definition bfs_init (w : W) : config (list Node) :=
  Config [Node_init (initial problem) None None (Fin 0)] ∅ [] w.

Definition breadth_first_graph_search (fuel : nat) (w : W)
    : option (search_result * W) :=
  let node := Node_init (initial problem) None None (Fin 0) in
  if goal_test problem (state node) then Some (NodeOnly node, w)
  else run bfs_step fuel (bfs_init w).
(** *** The priority queue of [best_first_graph_search] *)

(** Modelled from the spec: the class [PriorityQueue] (module [utils]) is
    not part of the source file.  The spec describes a min-queue keyed on
    [f(node)] with [append], [pop] (removes and returns the minimum-f
    entry), a membership test by state, lookup of the f-value queued for a
    state and deletion of the entry of a state.  An entry pairs the key
    computed when the node was appended with the node; entries with equal
    keys are ordered by [Node.__lt__]. *)
Definition PriorityQueue : Type := list (cost * Node).

Definition entry_ltb (x y : cost * Node) : bool :=
  cost_ltb x.1 y.1 || (bool_decide (x.1 = y.1) && Node_ltb x.2 y.2).

(** [frontier.append(node)] *)
Definition pq_append (f : Node → cost) (q : PriorityQueue) (n : Node)
    : PriorityQueue :=
  q ++ [(f n, n)].

(** [node in frontier] *)
Definition pq_contains (q : PriorityQueue) (n : Node) : bool :=
  existsb (fun e => Node_eqb e.2 n) q.

(** [frontier[node]]: the key queued for the node's state ([KeyError], here
    [None], when there is none). *)
Fixpoint pq_getitem (q : PriorityQueue) (n : Node) : option cost :=
  match q with
  | [] => None
  | e :: r => if Node_eqb e.2 n then Some e.1 else pq_getitem r n
  end.

(** [del frontier[node]] *)
Fixpoint pq_delitem (q : PriorityQueue) (n : Node) : PriorityQueue :=
  match q with
  | [] => []
  | e :: r => if Node_eqb e.2 n then r else e :: pq_delitem r n
  end.

(** The least entry of [e :: q], and the other entries. *)
Fixpoint pq_extract (e : cost * Node) (q : PriorityQueue)
    : (cost * Node) * PriorityQueue :=
  match q with
  | [] => (e, [])
  | x :: r =>
      if entry_ltb x e
      then let '(m, rest) := pq_extract x r in (m, e :: rest)
      else let '(m, rest) := pq_extract e r in (m, x :: rest)
  end.

(** [frontier.pop()] *)
Definition pq_pop (q : PriorityQueue) : option (Node * PriorityQueue) :=
  match q with
  | [] => None
  | e :: r => let '(m, rest) := pq_extract e r in Some (m.2, rest)
  end.

(** *** [best_first_graph_search]

    [f] is wrapped by [memoize], which caches its value on the node; for a
    function of the node that cache is not observable, so [f] is used as it
    is.  The flag [display] only prints. *)
Definition bf_step (f : Node → cost) (c : config PriorityQueue)
    : outcome PriorityQueue :=
  match pending c with
  | child :: rest =>
      if bool_decide (state child ∉ explored c)
         && negb (pq_contains (frontier c) child)
      then Running (Config (pq_append f (frontier c) child)
                           (explored c) rest (world c))
      else if pq_contains (frontier c) child
      then
        match pq_getitem (frontier c) child with
        | Some queued =>
            if cost_ltb (f child) queued
            then Running (Config (pq_append f (pq_delitem (frontier c) child) child)
                                 (explored c) rest (world c))
            else Running (Config (frontier c) (explored c) rest (world c))
        | None => Running (Config (frontier c) (explored c) rest (world c))
        end
      else Running (Config (frontier c) (explored c) rest (world c))
  | [] =>
      match pq_pop (frontier c) with
      | None => Returned (CountOnly (size (explored c))) (world c)
      | Some (node, fr) =>
          if goal_test problem (state node)
          then Returned (NodeAndCount node (size (explored c))) (world c)
          else
            let ex := {[state node]} ∪ explored c in
            let '(children, w) := expand node problem (world c) in
            Running (Config fr ex children w)
      end
  end.

Definition bf_init (f : Node → cost) (w : W) : config PriorityQueue :=
  Config (pq_append f [] (Node_init (initial problem) None None (Fin 0)))
         ∅ [] w.

Definition best_first_graph_search (f : Node → cost) (fuel : nat) (w : W)
    : option (search_result * W) :=
  run (bf_step f) fuel (bf_init f w).

(** [greedy_best_first_graph_search = best_first_graph_search] *)
Definition greedy_best_first_graph_search := best_first_graph_search.

(** [astar_search], with the heuristic [h] given by the caller. *)
Definition astar_search (h : Node → cost) (fuel : nat) (w : W)
    : option (search_result * W) :=
  best_first_graph_search (fun n => cost_add (path_cost n) (h n)) fuel w.

End Search.

Arguments Config {State Action W _ _ F} _ _ _ _.
Arguments frontier {State Action W _ _ F} _.
Arguments explored {State Action W _ _ F} _.
Arguments pending {State Action W _ _ F} _.
Arguments world {State Action W _ _ F} _.
Arguments Running {State Action W _ _ F} c.
Arguments Returned {State Action W _ _ F} r w.

(** ** GraphProblem: states and actions are node identifiers, the store is
    the graph *)

(** [cost or np.inf]: [None] and [0] are both false. *)
Definition or_inf (d : option Z) : cost :=
  match d with
  | None => Inf
  | Some 0%Z => Inf
  | Some w => Fin w
  end.

(** [GraphProblem.actions] *)
Definition GraphProblem_actions (A : Z) (g : Graph) : list Z * Graph :=
  let '(r, g') := get g A None in
  match r with
  | Links links => (dict_keys links, g')
  | Distance _ => ([], g')
  end.

(** [GraphProblem.result] *)
Definition GraphProblem_result (st : Z) (act : Z) : Z := act.

(** [GraphProblem.path_cost] *)
Definition GraphProblem_path_cost (cost_so_far : cost) (A : Z) (act : Z)
    (B : Z) (g : Graph) : cost * Graph :=
  let '(r, g') := get g A (Some B) in
  match r with
  | Distance d => (cost_add cost_so_far (or_inf d), g')
  | Links _ => (Inf, g')
  end.

(** [GraphProblem(initial, goal, graph)]; the graph itself is the store the
    searches are run on. *)
Definition GraphProblem (initial : Z) (goal : Goal) : @Problem Z Z Graph :=
  mkProblem initial goal GraphProblem_actions GraphProblem_result
            (Problem_goal_test goal) GraphProblem_path_cost.

(** [d[k]] *)
Definition dict_item {K V} `{EqDecision K} (d : dict K V) (k : K) : res V :=
  match dict_get d k with
  | Some v => Ok v
  | None => Raise KeyError
  end.

(** Modelled from the spec: the function [distance] (module [utils]) is not
    part of the source file.  The spec calls it the straight-line Euclidean
    distance between two coordinate pairs; [int_distance a b] is
    [int(distance(a, b))], the integer part of that distance.  Unpacking
    anything but a pair is a [ValueError]. *)
Definition int_distance (a b : list Z) : res Z :=
  match a, b with
  | [xA; yA], [xB; yB] =>
      Ok (Z.sqrt ((xA - xB) * (xA - xB) + (yA - yB) * (yA - yB)))
  | _, _ => Raise ValueError
  end.

(** [min] of a sequence of integers; empty is a [ValueError]. *)
Definition min_list (l : list Z) : res Z :=
  match l with
  | [] => Raise ValueError
  | x :: r => Ok (fold_left Z.min r x)
  end.

(** [GraphProblem.h], applied to a node.  (The branches for [type(node) is
    str] read the state off a string argument; states are integers here.) *)
Definition GraphProblem_h (g : Graph) (goal : Goal) (node : @Node Z Z)
    : res cost :=
  match locations g with
  | None | Some [] => Ok Inf
  | Some locs =>
      let dist_to (gl : res (list Z)) : res Z :=
        a ← dict_item locs (state node); b ← gl; int_distance a b in
      match goal with
      | GoalList goals =>
          ds ← res_mapM (fun gl => dist_to (dict_item locs gl)) goals;
          m ← min_list ds;
          Ok (Fin m)
      | GoalState gl => d ← dist_to (dict_item locs gl); Ok (Fin d)
      | GoalNone => d ← dist_to (Raise KeyError); Ok (Fin d)
      end
  end.

(** [min(a, b)] on costs: the second argument only when it is strictly
    smaller. *)
Definition cost_min (a b : cost) : cost := if cost_ltb b a then b else a.

(** [GraphProblem.find_min_edge]: [min(d.values())] is a [ValueError] for
    a node whose dictionary of links is empty. *)
Definition find_min_edge (g : Graph) : res cost :=
  fold_left
    (fun (acc : res cost) (kv : Z * dict Z Z) =>
       m ← acc;
       local_min ← min_list (map snd kv.2);
       Ok (cost_min m (Fin local_min)))
    (graph_dict g) (Ok Inf).

(** ** Strings, as the loader uses them (ASCII text) *)

(** [c.isspace()] *)
Definition is_space (c : ascii) : bool :=
  let n := nat_of_ascii c in
  ((9 <=? n) && (n <=? 13)) || ((28 <=? n) && (n <=? 32)).

Fixpoint lstrip (drop : ascii → bool) (s : list ascii) : list ascii :=
  match s with
  | c :: r => if drop c then lstrip drop r else s
  | [] => []
  end.

(** [s.strip()] and [s.strip(chars)], by the test for a character to drop. *)
Definition strip_by (drop : ascii → bool) (s : list ascii) : list ascii :=
  rev (lstrip drop (rev (lstrip drop s))).

Definition strip (s : list ascii) : list ascii := strip_by is_space s.

Definition strip_chars (chars : list ascii) (s : list ascii) : list ascii :=
  strip_by (fun c => bool_decide (c ∈ chars)) s.

(** [s.split(sep)] for a separator of one character. *)
Fixpoint split (sep : ascii) (s : list ascii) : list (list ascii) :=
  match s with
  | [] => [[]]
  | c :: r =>
      if bool_decide (c = sep) then [] :: split sep r
      else match split sep r with
           | h :: t => (c :: h) :: t
           | [] => [[c]]
           end
  end.

Definition digit_of (c : ascii) : option Z :=
  let n := nat_of_ascii c in
  if (48 <=? n) && (n <=? 57) then Some (Z.of_nat (n - 48)) else None.

(** Decimal digits, single underscores allowed between digits. *)
Fixpoint parse_digits (acc : Z) (after_digit : bool) (s : list ascii)
    : option Z :=
  match s with
  | [] => if after_digit then Some acc else None
  | c :: r =>
      match digit_of c with
      | Some d => parse_digits (10 * acc + d)%Z true r
      | None =>
          if bool_decide (c = "_"%char) && after_digit
          then match r with
               | [] => None
               | _ => parse_digits acc false r
               end
          else None
      end
  end.

(** The white space that [int] skips around a numeral: tab, line feed,
    vertical tab, form feed, carriage return and space.  (The separators
    28 to 31, which [str.strip] removes, are not among them.) *)
Definition is_c_space (c : ascii) : bool :=
  let n := nat_of_ascii c in
  ((9 <=? n) && (n <=? 13)) || (n =? 32).

Definition is_digit (c : ascii) : bool :=
  match digit_of c with
  | Some _ => true
  | None => false
  end.

(** The largest number of digits that [int] converts: CPython's default,
    [sys.int_info.default_max_str_digits]. *)
Definition max_str_digits : Z := 4300.

(** The digits of [int(s)], after the sign: decimal digits, with single
    underscores allowed between them; anything else is a [ValueError], and
    so is a numeral of more than [max_str_digits] digits. *)
Definition int_digits (digits : list ascii) (sign : Z) : res Z :=
  match parse_digits 0 false digits with
  | Some z =>
      if (max_str_digits <? Z.of_nat (length (List.filter is_digit digits)))%Z
      then Raise ValueError
      else Ok (sign * z)%Z
  | None => Raise ValueError
  end.

(** [int(s)] on a string: surrounding white space, an optional sign, the
    digits. *)
Definition int (s : list ascii) : res Z :=
  match strip_by is_c_space s with
  | "-"%char :: r => int_digits r (-1)%Z
  | "+"%char :: r => int_digits r 1%Z
  | r => int_digits r 1%Z
  end.

(** [parts[i]] *)
Definition list_item {A} (l : list A) (i : nat) : res A :=
  match l !! i with
  | Some x => Ok x
  | None => Raise IndexError
  end.

(** ** [load_graph_from_file] *)

Inductive section_name : Type := SecNodes | SecEdges | SecOrigin | SecDestinations.

(** The variables of the loop over the lines. *)
Record loader_state : Type := mkLoader {
  ld_section : option section_name;
  ld_nodes : dict Z (list Z);
  ld_edges : dict (Z * Z) Z;
  ld_origin : option Z;
  ld_destinations : list Z
}.

Definition set_section (st : loader_state) (sec : section_name) : loader_state :=
  mkLoader (Some sec) (ld_nodes st) (ld_edges st) (ld_origin st)
           (ld_destinations st).

(** The content of a line of the section [Nodes:], [id: (x,y)]. *)
Definition parse_node_line (line : list ascii) : res (Z * list Z) :=
  let parts := split ":"%char line in
  p0 ← list_item parts 0;
  node ← int p0;
  p1 ← list_item parts 1;
  coords ← res_mapM int (split ","%char (strip_chars [" "; "("; ")"]%char p1));
  Ok (node, coords).

(** The content of a line of the section [Edges:], [(from,to): weight]. *)
Definition parse_edge_line (line : list ascii) : res ((Z * Z) * Z) :=
  let parts := split ":"%char line in
  p0 ← list_item parts 0;
  ends ← res_mapM int (split ","%char (strip_chars [" "; "("; ")"]%char p0));
  match ends with
  | [n1; n2] =>
      p1 ← list_item parts 1;
      c ← int p1;
      Ok ((n1, n2), c)
  | _ => Raise ValueError
  end.

(** The body of the loop over the lines. *)
Definition load_line (st : loader_state) (raw : string) : res loader_state :=
  let line := strip (list_ascii_of_string raw) in
  if bool_decide (line = list_ascii_of_string "Nodes:") then Ok (set_section st SecNodes)
  else if bool_decide (line = list_ascii_of_string "Edges:") then Ok (set_section st SecEdges)
  else if bool_decide (line = list_ascii_of_string "Origin:") then Ok (set_section st SecOrigin)
  else if bool_decide (line = list_ascii_of_string "Destinations:")
  then Ok (set_section st SecDestinations)
  else
    match line with
    | [] => Ok st
    | _ =>
        match ld_section st with
        | Some SecNodes =>
            '(node, coords) ← parse_node_line line;
            Ok (mkLoader (ld_section st) (dict_set (ld_nodes st) node coords)
                         (ld_edges st) (ld_origin st) (ld_destinations st))
        | Some SecEdges =>
            '(ends, c) ← parse_edge_line line;
            Ok (mkLoader (ld_section st) (ld_nodes st)
                         (dict_setdefault (ld_edges st) ends c).2
                         (ld_origin st) (ld_destinations st))
        | Some SecOrigin =>
            o ← int line;
            Ok (mkLoader (ld_section st) (ld_nodes st) (ld_edges st) (Some o)
                         (ld_destinations st))
        | Some SecDestinations =>
            ds ← res_mapM int (split ";"%char line);
            Ok (mkLoader (ld_section st) (ld_nodes st) (ld_edges st)
                         (ld_origin st) ds)
        | None => Ok st
        end
    end.

Fixpoint load_lines (st : loader_state) (lines : list string)
    : res loader_state :=
  match lines with
  | [] => Ok st
  | l :: r => st' ← load_line st l; load_lines st' r
  end.

(** The two nested loops that fill the graph: for every declared node, in
    order, the edges that leave it. *)
Definition connect_edges (nodes : dict Z (list Z)) (edges : dict (Z * Z) Z)
    (g : Graph) : Graph :=
  fold_left
    (fun g node =>
       fold_left
         (fun g e =>
            if bool_decide (e.1.1 = node) then connect1 g e.1.1 e.1.2 e.2
            else g)
         edges g)
    (dict_keys nodes) g.

(** [load_graph_from_file], on the lines read from the file. *)
Definition load_graph_from_file (lines : list string)
    : res (Graph * option Z * list Z) :=
  st ← load_lines (mkLoader None [] [] None []) lines;
  let graph_map := connect_edges (ld_nodes st) (ld_edges st) Graph_init in
  Ok (mkGraph (graph_dict graph_map) (directed graph_map) (Some (ld_nodes st)),
      ld_origin st, ld_destinations st).

(** * Vocabulary of the properties *)

(** [d] is the integer part of the Euclidean distance between the points
    [a] and [b]. *)
Definition floor_distance (a b : list Z) (d : Z) : Prop :=
  ∃ xA yA xB yB, a = [xA; yA] ∧ b = [xB; yB] ∧
    (0 ≤ d ∧ d * d ≤ (xA - xB) * (xA - xB) + (yA - yB) * (yA - yB)
     ∧ (xA - xB) * (xA - xB) + (yA - yB) * (yA - yB) < (d + 1) * (d + 1))%Z.

(** [l] is a sequence whose neighbours are related by [R]. *)
Fixpoint chain {A} (R : A → A → Prop) (l : list A) : Prop :=
  match l with
  | a :: r =>
      match r with
      | b :: _ => R a b ∧ chain R r
      | [] => True
      end
  | [] => True
  end.

(** [l] leads from [s] to [t] along [R]. *)
Definition is_path {A} (R : A → A → Prop) (s t : A) (l : list A) : Prop :=
  head l = Some s ∧ last l = Some t ∧ chain R l.

(** The graph has an edge from [a] to [b]. *)
Definition graph_edge (g : Graph) (a b : Z) : Prop :=
  is_Some (edge_weight g a b).

Section Search_vocabulary.
Context {State Action W : Type} `{Countable State}.
Variable problem : @Problem State Action W.

Local Abbreviation config F := (@config State Action W _ _ F).
Local Abbreviation outcome F := (@outcome State Action W _ _ F).

(** [Node(problem.initial)] *)
Definition root_node : @Node State Action :=
  Node_init (initial problem) None None (Fin 0).

(** The nodes of the search tree: the root and what [child_node] builds. *)
Inductive built : @Node State Action → Prop :=
  | built_root : built root_node
  | built_child n a w : built n → built (child_node n problem a w).1.

(** The configurations a search goes through. *)
Inductive reachable {F} (step : config F → outcome F) (c0 : config F)
    : config F → Prop :=
  | reachable_init : reachable step c0 c0
  | reachable_step c c' :
      reachable step c0 c → step c = Running c' → reachable step c0 c'.

(** The count in a result, if it has one. *)
Definition result_count (r : @search_result State Action) : option nat :=
  match r with
  | NodeOnly _ => None
  | NodeAndCount _ k => Some k
  | CountOnly k => Some k
  end.

(** The node in a result, if it has one. *)
Definition result_node (r : @search_result State Action)
    : option (@Node State Action) :=
  match r with
  | NodeOnly n => Some n
  | NodeAndCount n _ => Some n
  | CountOnly _ => None
  end.

(** The problem's domain is fixed during a search: in every store that
    satisfies [Winv], [actions] lists [acts], and the methods keep [Winv]. *)
Record stable (Winv : W → Prop) (acts : State → list Action) : Prop := {
  stable_actions s w :
    Winv w → (actions problem s w).1 = acts s ∧ Winv (actions problem s w).2;
  stable_path_cost c s a s' w :
    Winv w → Winv (problem_path_cost problem c s a s' w).2
}.

Variable acts : State → list Action.

(** One transition of the domain. *)
Definition successor (s s' : State) : Prop :=
  ∃ a, a ∈ acts s ∧ s' = result problem s a.

(** The states of the domain that can be reached from the initial state. *)
Inductive reach : State → Prop :=
  | reach_initial : reach (initial problem)
  | reach_successor s s' : reach s → successor s s' → reach s'.

(** ... in exactly [k] transitions. *)
Inductive reachN : nat → State → Prop :=
  | reachN_initial : reachN 0 (initial problem)
  | reachN_successor k s s' :
      reachN k s → successor s s' → reachN (S k) s'.

(** The nodes a search builds: the root, and the children that
    [child_node] makes for an action of the domain, in a store that
    satisfies [Winv]. *)
Inductive wf_node (Winv : W → Prop) : @Node State Action → Prop :=
  | wf_root : wf_node Winv root_node
  | wf_child n a w :
      wf_node Winv n → a ∈ acts (state n) → Winv w →
      wf_node Winv (child_node n problem a w).1.

(** How a search machine moves, whatever its frontier: it handles a pending
    child, which leaves the frontier's states alone or adds the child's
    state when it is in neither the explored set nor the frontier; or, with
    no child pending, it takes a node out of the frontier, marks its state
    explored and expands it. *)
Definition step_shape {F} (fstates : F → list State)
    (step : config F → outcome F) : Prop :=
  ∀ c c', step c = Running c' →
    (∃ child rest,
        pending c = child :: rest ∧ pending c' = rest
        ∧ explored c' = explored c ∧ world c' = world c
        ∧ (fstates (frontier c') ≡ₚ fstates (frontier c)
           ∨ ((state child ∉ explored c)
              ∧ (state child ∉ fstates (frontier c))
              ∧ fstates (frontier c')
                ≡ₚ (fstates (frontier c) ++ [state child]))))
    ∨ (∃ node,
        pending c = []
        ∧ fstates (frontier c) ≡ₚ (state node :: fstates (frontier c'))
        ∧ explored c' = {[state node]} ∪ explored c
        ∧ (pending c', world c') = expand node problem (world c)).

(** What every search keeps true of its frontier and explored set. *)
Definition frontier_inv {F} (fstates : F → list State) (c : config F) : Prop :=
  NoDup (fstates (frontier c))
  ∧ ∀ s, s ∈ fstates (frontier c) → s ∉ explored c.

(** ... and of the domain. *)
Definition domain_inv (Winv : W → Prop) {F} (fstates : F → list State)
    (c : config F) : Prop :=
  Winv (world c)
  ∧ (∀ s, s ∈ fstates (frontier c) → reach s)
  ∧ (∀ s, s ∈ explored c → reach s)
  ∧ (∀ n, n ∈ pending c → reach (state n)).

(** What the breadth-first loop keeps true while it works on depth [d]:
    the frontier holds nodes of depth [d] followed by nodes of depth
    [d + 1], each at the least depth its state can be reached at; every
    state reachable in fewer than [d] transitions is explored, and every
    state reachable in [d] is explored or in the frontier; the successors
    of explored states are explored, in the frontier or still pending; and
    no goal state has been explored or put in the frontier. *)
Definition bfs_inv (Winv : W → Prop) (d : nat) (c : config (list Node)) : Prop :=
  Winv (world c)
  ∧ (∃ A B, frontier c = A ++ B
            ∧ (∀ n, n ∈ A → depth n = d) ∧ (∀ n, n ∈ B → depth n = S d))
  ∧ (∀ n, n ∈ frontier c →
          wf_node Winv n ∧ ∀ k, reachN k (state n) → depth n ≤ k)
  ∧ (∀ n, n ∈ pending c → wf_node Winv n ∧ depth n = S d)
  ∧ (∀ s k, reachN k s → k < d → s ∈ explored c)
  ∧ (∀ s, reachN d s → s ∈ explored c ∨ s ∈ map state (frontier c))
  ∧ (∀ s s', s ∈ explored c → successor s s' →
             s' ∈ explored c ∨ s' ∈ map state (frontier c)
             ∨ s' ∈ map state (pending c))
  ∧ (∀ s, s ∈ explored c ∨ s ∈ map state (frontier c) →
          goal_test problem s = false).

End Search_vocabulary.

(** The states in a priority queue. *)
Definition pq_states {State Action} (q : @PriorityQueue State Action)
    : list State :=
  map (fun e => state e.2) q.

(** The neighbours of [s] in [g], in the order of its dictionary of links. *)
Definition graph_actions (g : Graph) (s : Z) : list Z :=
  dict_keys (default [] (dict_get (graph_dict g) s)).

(** [g'] is [g] with, possibly, further keys that have no links: what the
    calls of [get] made by a search can turn [g] into. *)
Definition graph_grown (g g' : Graph) : Prop :=
  directed g' = directed g ∧ locations g' = locations g
  ∧ ∃ extra : list Z,
      graph_dict g' = graph_dict g ++ map (fun k => (k, [])) extra.

(** ** The sections of a text *)

(** The section a header line opens. *)
Definition line_header (line : list ascii) : option section_name :=
  if bool_decide (line = list_ascii_of_string "Nodes:") then Some SecNodes
  else if bool_decide (line = list_ascii_of_string "Edges:") then Some SecEdges
  else if bool_decide (line = list_ascii_of_string "Origin:") then Some SecOrigin
  else if bool_decide (line = list_ascii_of_string "Destinations:")
  then Some SecDestinations
  else None.

(** The non-empty content lines of a file, stripped, each with the section
    it stands in; [sec] is the section open at the start. *)
Fixpoint section_lines (sec : option section_name) (lines : list string)
    : list (section_name * list ascii) :=
  match lines with
  | [] => []
  | raw :: r =>
      let line := strip (list_ascii_of_string raw) in
      match line_header line with
      | Some s => section_lines (Some s) r
      | None =>
          match line, sec with
          | _ :: _, Some s => (s, line) :: section_lines sec r
          | _, _ => section_lines sec r
          end
      end
  end.

(** ** The file format, in the words of the spec

    A file holds labelled sections, [Nodes:], [Edges:], [Origin:] and
    [Destinations:]; a node is written [id: (x,y)], an edge
    [(from,to): weight], an origin is a single id, and destinations are
    ids separated by semicolons (with or without a space after each
    semicolon).  Integers are written as decimal numerals. *)

(** The decimal numeral of an integer, as the Standard Library prints
    it. *)
Definition numeral (z : Z) : list ascii :=
  list_ascii_of_string (DecimalString.NilEmpty.string_of_int (Z.to_int z)).

(** The number of digits of that numeral. *)
Definition numeral_digits (z : Z) : nat :=
  Decimal.nb_digits (Decimal.abs (Z.to_int z)).

Inductive file_section : Type :=
  | NodesSection (nodes : list (Z * (Z * Z)))
  | EdgesSection (edges : list ((Z * Z) * Z))
  | OriginSection (origins : list Z)
  | DestinationsSection (spaced : bool) (dests : list (Z * list Z)).

(** [id: (x,y)] *)
Definition node_line (d : Z * (Z * Z)) : list ascii :=
  numeral d.1 ++ list_ascii_of_string ": ("
    ++ numeral d.2.1 ++ list_ascii_of_string ","
    ++ numeral d.2.2 ++ list_ascii_of_string ")".

(** [(from,to): weight] *)
Definition edge_line (d : (Z * Z) * Z) : list ascii :=
  list_ascii_of_string "(" ++ numeral d.1.1 ++ list_ascii_of_string ","
    ++ numeral d.1.2 ++ list_ascii_of_string "): " ++ numeral d.2.

(** A first id and the ids that follow it, each after a semicolon. *)
Definition destinations_line (spaced : bool) (d : Z * list Z) : list ascii :=
  numeral d.1
    ++ concat (map (fun z => list_ascii_of_string (if spaced then "; " else ";")
                               ++ numeral z)
                   d.2).

(** The lines of a section: its label, then one line for each entry. *)
Definition render_section (s : file_section) : list string :=
  match s with
  | NodesSection nodes =>
      "Nodes:"%string :: map (fun d => string_of_list_ascii (node_line d)) nodes
  | EdgesSection edges =>
      "Edges:"%string :: map (fun d => string_of_list_ascii (edge_line d)) edges
  | OriginSection origins =>
      "Origin:"%string :: map (fun o => string_of_list_ascii (numeral o)) origins
  | DestinationsSection spaced dests =>
      "Destinations:"%string
        :: map (fun d => string_of_list_ascii (destinations_line spaced d)) dests
  end.

Definition render_file (f : list file_section) : list string :=
  concat (map render_section f).

(** The content of the lines read from a file: each line without the
    white space around it (the line terminator, indentation), blank lines
    left out. *)
Definition content (lines : list string) : list (list ascii) :=
  filter (fun l => l ≠ [])
         (map (fun raw => strip (list_ascii_of_string raw)) lines).

(** The nodes, with their coordinates, and the edges, with their weights,
    that the sections of a file declare, in order. *)
Definition declared_nodes (f : list file_section) : list (Z * list Z) :=
  concat (map (fun s => match s with
                        | NodesSection nodes =>
                            map (fun d : Z * (Z * Z) => (d.1, [d.2.1; d.2.2]))
                                nodes
                        | _ => []
                        end) f).

Definition declared_edges (f : list file_section) : list ((Z * Z) * Z) :=
  concat (map (fun s => match s with
                        | EdgesSection edges => edges
                        | _ => []
                        end) f).

(** The origins and the lines of destinations, in order. *)
Definition origin_entries (f : list file_section) : list Z :=
  concat (map (fun s => match s with
                        | OriginSection origins => origins
                        | _ => []
                        end) f).

Definition destinations_entries (f : list file_section) : list (list Z) :=
  concat (map (fun s => match s with
                        | DestinationsSection _ dests =>
                            map (fun d : Z * list Z => d.1 :: d.2) dests
                        | _ => []
                        end) f).

(** Every integer written in the file. *)
Definition section_numbers (s : file_section) : list Z :=
  match s with
  | NodesSection nodes =>
      concat (map (fun d : Z * (Z * Z) => [d.1; d.2.1; d.2.2]) nodes)
  | EdgesSection edges =>
      concat (map (fun d : (Z * Z) * Z => [d.1.1; d.1.2; d.2]) edges)
  | OriginSection origins => origins
  | DestinationsSection _ dests =>
      concat (map (fun d : Z * list Z => d.1 :: d.2) dests)
  end.

Definition file_numbers (f : list file_section) : list Z :=
  concat (map section_numbers f).

(** No numeral of the file is longer than [int] accepts. *)
Definition numbers_fit (f : list file_section) : Prop :=
  Forall (fun z => (Z.of_nat (numeral_digits z) ≤ max_str_digits)%Z)
         (file_numbers f).

(** The states that carrying out [acts] one after the other goes through,
    from [s] on. *)
Fixpoint replay {State Action W : Type} (p : @Problem State Action W)
    (s : State) (acts : list Action) : list State :=
  s :: match acts with
       | [] => []
       | a :: r => replay p (result p s a) r
       end.

(** No key is declared with two different values. *)
Definition consistent {K V} (l : list (K * V)) : Prop :=
  ∀ k v v', (k, v) ∈ l → (k, v') ∈ l → v = v'.

(** Assignments in sequence: [d[k] = v] for each pair. *)
Definition assign_all {K V} `{EqDecision K} (d : dict K V) (l : list (K * V))
    : dict K V :=
  fold_left (fun d kv => dict_set d kv.1 kv.2) l d.

(** [d.setdefault(k, v)] for each pair. *)
Definition setdefault_all {K V} `{EqDecision K} (d : dict K V)
    (l : list (K * V)) : dict K V :=
  fold_left (fun d kv => (dict_setdefault d kv.1 kv.2).2) l d.

(** The origins and the lists of destinations a file declares, in order. *)
Definition declared_origins_from (sec : option section_name)
    (lines : list string) : list Z :=
  omap (fun sl : section_name * list ascii =>
          match sl.1, int sl.2 with
          | SecOrigin, Ok o => Some o
          | _, _ => None
          end)
       (section_lines sec lines).

Definition declared_destinations_from (sec : option section_name)
    (lines : list string) : list (list Z) :=
  omap (fun sl : section_name * list ascii =>
          match sl.1, res_mapM int (split ";" sl.2) with
          | SecDestinations, Ok ds => Some ds
          | _, _ => None
          end)
       (section_lines sec lines).

Definition declared_origins (lines : list string) : list Z :=
  declared_origins_from None lines.

Definition declared_destinations (lines : list string) : list (list Z) :=
  declared_destinations_from None lines.

(** The section open after a line. *)
Definition next_section (sec : option section_name) (raw : string)
    : option section_name :=
  match line_header (strip (list_ascii_of_string raw)) with
  | Some s => Some s
  | None => sec
  end.

(** The adjacency dictionary is a dictionary of dictionaries: no key occurs
    twice, at either level. *)
Definition wf_graph (g : Graph) : Prop :=
  NoDup (dict_keys (graph_dict g))
  ∧ Forall (fun kv : Z * dict Z Z => NoDup (dict_keys kv.2)) (graph_dict g).

(** The cost [GraphProblem.path_cost] accumulates along a sequence of
    states, starting from [acc]. *)
Fixpoint path_weight (g : Graph) (acc : cost) (l : list Z) : cost :=
  match l with
  | a :: r =>
      match r with
      | b :: _ => path_weight g (cost_add acc (or_inf (edge_weight g a b))) r
      | [] => acc
      end
  | [] => acc
  end.

(** [a <= b] on costs. *)
Definition cost_le (a b : cost) : Prop :=
  match a, b with
  | Fin x, Fin y => (x ≤ y)%Z
  | _, Inf => True
  | Inf, Fin _ => False
  end.

Section Search_vocabulary_2.
Context {State Action W : Type} `{Countable State}.
Variable problem : @Problem State Action W.
Variable acts : State → list Action.

Local Abbreviation config F := (@config State Action W _ _ F).
Local Abbreviation outcome F := (@outcome State Action W _ _ F).

(** A machine never loses sight of a child it has handled: its state is
    explored or in the frontier afterwards. *)
Definition step_sees_child {F} (fstates : F → list State)
    (step : config F → outcome F) : Prop :=
  ∀ c c' child rest,
    step c = Running c' → pending c = child :: rest →
    state child ∈ explored c' ∨ state child ∈ fstates (frontier c').

(** Where the nodes of the frontier come from: handling a child puts at
    most that child in; otherwise a node of the frontier is taken out and
    expanded. *)
Definition step_nodes {F} (fnodes : F → list (@Node State Action))
    (step : config F → outcome F) : Prop :=
  ∀ c c', step c = Running c' →
    (∃ child rest,
        pending c = child :: rest ∧ pending c' = rest
        ∧ ∀ n, n ∈ fnodes (frontier c') →
               n ∈ fnodes (frontier c) ∨ n = child)
    ∨ (∃ node,
        pending c = [] ∧ node ∈ fnodes (frontier c)
        ∧ (∀ n, n ∈ fnodes (frontier c') → n ∈ fnodes (frontier c))
        ∧ (pending c', world c') = expand node problem (world c)).

(** A state becomes explored only if it fails the goal test. *)
Definition explores_non_goals {F} (step : config F → outcome F) : Prop :=
  ∀ c c' s,
    step c = Running c' → s ∈ explored c' →
    s ∈ explored c ∨ goal_test problem s = false.

(** The initial state has been seen, and every successor of an explored
    state is explored, in the frontier or about to be handled. *)
Definition closure_inv {F} (fstates : F → list State) (c : config F) : Prop :=
  (initial problem ∈ explored c ∨ initial problem ∈ fstates (frontier c))
  ∧ ∀ s s', s ∈ explored c → successor problem acts s s' →
            s' ∈ explored c ∨ s' ∈ fstates (frontier c)
            ∨ s' ∈ map state (pending c).

(** What a machine returns: the number of explored states when nothing is
    left to handle, or a node that passes the goal test, taken from the
    frontier or from the pending children, with that number. *)
Definition step_returns {F} (fstates : F → list State)
    (fnodes : F → list (@Node State Action))
    (step : config F → outcome F) : Prop :=
  ∀ c r w, step c = Returned r w →
    (r = CountOnly (size (explored c))
     ∧ pending c = [] ∧ fstates (frontier c) = [])
    ∨ (∃ n, r = NodeAndCount n (size (explored c))
            ∧ goal_test problem (state n) = true
            ∧ (state n ∈ fstates (frontier c) ∨ n ∈ pending c)
            ∧ (n ∈ fnodes (frontier c) ∨ n ∈ pending c)).

(** Every node held by the machine was built by the search. *)
Definition nodes_inv (Winv : W → Prop) {F}
    (fnodes : F → list (@Node State Action)) (c : config F) : Prop :=
  (∀ n, n ∈ fnodes (frontier c) → wf_node problem acts Winv n)
  ∧ (∀ n, n ∈ pending c → wf_node problem acts Winv n).

End Search_vocabulary_2.

(** The nodes in a priority queue. *)
Definition pq_nodes {State Action} (q : @PriorityQueue State Action)
    : list (@Node State Action) :=
  map snd q.

Section Search_vocabulary_3.
Context {State Action W : Type} `{Countable State}.
Variable problem : @Problem State Action W.
Variable acts : State → list Action.

Local Abbreviation config F := (@config State Action W _ _ F).
Local Abbreviation outcome F := (@outcome State Action W _ _ F).

(** The loop variables of [c] with another store. *)
Definition with_world {F} (c : config F) (w : W) : config F :=
  Config (frontier c) (explored c) (pending c) w.

(** The cost that [path_cost] computes is the same in every store that
    satisfies [Winv]. *)
Definition store_blind (Winv : W → Prop) : Prop :=
  ∀ c s a s' w1 w2, Winv w1 → Winv w2 →
    (problem_path_cost problem c s a s' w1).1
    = (problem_path_cost problem c s a s' w2).1.

(** A machine whose moves do not depend on which store satisfying [Winv]
    it works on. *)
Definition step_blind (Winv : W → Prop) {F} (step : config F → outcome F)
    : Prop :=
  ∀ c w2, Winv (world c) → Winv w2 →
    match step c, step (with_world c w2) with
    | Running c1, Running c2 =>
        frontier c2 = frontier c1 ∧ explored c2 = explored c1
        ∧ pending c2 = pending c1 ∧ Winv (world c1) ∧ Winv (world c2)
    | Returned r1 _, Returned r2 w2' => r2 = r1 ∧ w2' = w2
    | _, _ => False
    end.

(** The assignment [result, no_nodes_explored = search(prob)] of
    [runGraphSeacrh]: a pair is unpacked; a bare node or a bare count is
    not iterable, which is a [TypeError]. *)
Inductive unpacked : Type :=
  | Unpacked (result : @Node State Action) (no_nodes_explored : nat)
  | TypeError.

Definition unpack_result (r : @search_result State Action) : unpacked :=
  match r with
  | NodeAndCount n k => Unpacked n k
  | NodeOnly _ => TypeError
  | CountOnly _ => TypeError
  end.

End Search_vocabulary_3.

Section Search_vocabulary_4.
Context {State Action W : Type} `{Countable State}.
Variable problem : @Problem State Action W.
Variable acts : State → list Action.
Variable wt : State → Action → Z.

Local Abbreviation config F := (@config State Action W _ _ F).
Local Abbreviation PriorityQueue := (@PriorityQueue State Action).

(** [route s C]: some sequence of actions leads from the initial state to
    [s], and the weights of its actions add up to [C]. *)
Inductive route : State → Z → Prop :=
  | route_initial : route (initial problem) 0
  | route_step s C a :
      route s C → a ∈ acts s → route (result problem s a) (C + wt s a).

(** [path_cost] adds the weight of the action to the cost so far. *)
Definition additive_cost (Winv : W → Prop) : Prop :=
  ∀ c s a w, Winv w → a ∈ acts s →
    (problem_path_cost problem c s a (result problem s a) w).1
    = cost_add c (Fin (wt s a)).

(** The estimate [hs] never drops by more than the weight of an action. *)
Definition consistent_heuristic (hs : State → Z) : Prop :=
  ∀ s a, a ∈ acts s → (hs s ≤ wt s a + hs (result problem s a))%Z.

(** The queue or the pending children hold a node for the state [s] whose
    path cost is at most [x]. *)
Definition covered (s : State) (x : Z) (c : config PriorityQueue) : Prop :=
  ∃ m, (m ∈ pq_nodes (frontier c) ∨ m ∈ pending c)
       ∧ state m = s ∧ cost_le (path_cost m) (Fin x).

(** What the best-first loop keeps true when [f] is the path cost plus a
    consistent estimate: a node for the initial state, and for every
    unexplored successor of an explored state, is at hand with a path cost
    no larger than that of any route through the explored state. *)
Definition astar_inv (c : config PriorityQueue) : Prop :=
  (initial problem ∈ explored c ∨ covered (initial problem) 0 c)
  ∧ ∀ s C a, route s C → s ∈ explored c → a ∈ acts s →
             (result problem s a ∉ explored c) →
             covered (result problem s a) (C + wt s a) c.

End Search_vocabulary_4.

(** * Properties *)

(** ** Dictionaries *)

Section dict_facts.
Context {K V : Type} `{EqDecision K}.
Implicit Types (d : dict K V) (k : K) (v : V).

Lemma dict_get_app d d' k :
  dict_get (d ++ d') k =
  match dict_get d k with
  | Some v => Some v
  | None => dict_get d' k
  end.
Proof.
  induction d as [|[k' v'] d IH]; simpl; [done|].
  by destruct (decide (k = k')).
Qed.

Lemma dict_get_set_eq d k v : dict_get (dict_set d k v) k = Some v.
Proof.
  induction d as [|[k' v'] d IH]; simpl.
  - by rewrite decide_True.
  - destruct (decide (k = k')) as [->|Hne]; simpl.
    + by rewrite decide_True.
    + by rewrite decide_False.
Qed.

Lemma dict_get_set_ne d k k' v :
  k ≠ k' → dict_get (dict_set d k v) k' = dict_get d k'.
Proof.
  intros Hne. induction d as [|[k0 v0] d IH]; simpl.
  - by rewrite decide_False.
  - destruct (decide (k = k0)) as [->|Hne0]; simpl.
    + by rewrite !decide_False.
    + by rewrite IH.
Qed.

Lemma dict_get_Some_elem_of d k v : dict_get d k = Some v → (k, v) ∈ d.
Proof.
  induction d as [|[k' v'] d IH]; simpl; [done|].
  destruct (decide (k = k')) as [->|Hne].
  - intros [= ->]. left.
  - intros Hg. right. by apply IH.
Qed.

Lemma dict_get_None_keys d k : dict_get d k = None ↔ k ∉ dict_keys d.
Proof.
  induction d as [|[k' v'] d IH]; simpl.
  - split; [intros _; apply not_elem_of_nil | done].
  - rewrite not_elem_of_cons. destruct (decide (k = k')) as [->|Hne].
    + split; [done | by intros [? _]].
    + rewrite IH. tauto.
Qed.

Lemma dict_get_is_Some_keys d k : is_Some (dict_get d k) ↔ k ∈ dict_keys d.
Proof.
  destruct (dict_get d k) eqn:Hg.
  - split; [intros _ | by eauto].
    destruct (decide (k ∈ dict_keys d)) as [|Hn]; [done|].
    apply dict_get_None_keys in Hn. congruence.
  - split; [by intros [? ?] | intros Hin].
    apply dict_get_None_keys in Hg. done.
Qed.

Lemma dict_all_None_nil d : (∀ k, dict_get d k = None) → d = [].
Proof.
  destruct d as [|[k v] d]; [done|]. intros Hall.
  specialize (Hall k). simpl in Hall. by rewrite decide_True in Hall.
Qed.

Lemma dict_setdefault_get d k v k' :
  dict_get (dict_setdefault d k v).2 k' =
  match dict_get d k' with
  | Some x => Some x
  | None => if decide (k' = k) then Some v else None
  end.
Proof.
  unfold dict_setdefault. destruct (dict_get d k) as [x|] eqn:Hk; simpl.
  - destruct (dict_get d k') eqn:Hk'; [done|].
    destruct (decide (k' = k)) as [->|]; [congruence | done].
  - rewrite dict_get_app. by destruct (dict_get d k').
Qed.

Lemma dict_setdefault_value d k v :
  (dict_setdefault d k v).1 = default v (dict_get d k).
Proof. unfold dict_setdefault. by destruct (dict_get d k). Qed.

Lemma dict_keys_set d k v :
  dict_keys (dict_set d k v) =
  if decide (k ∈ dict_keys d) then dict_keys d else dict_keys d ++ [k].
Proof.
  unfold dict_keys.
  induction d as [|[k' v'] d IH]; cbn [dict_set map fst app].
  - case_decide as Hin; [by apply elem_of_nil in Hin | done].
  - destruct (decide (k = k')) as [->|Hne]; cbn [map fst].
    + rewrite decide_True; [done | left].
    + rewrite IH. destruct (decide (k ∈ map fst d)) as [Hin|Hnin].
      * rewrite decide_True; [done | by right].
      * rewrite decide_False; [done|].
        rewrite not_elem_of_cons. done.
Qed.

Lemma dict_keys_NoDup_set d k v :
  NoDup (dict_keys d) → NoDup (dict_keys (dict_set d k v)).
Proof.
  intros Hnd. rewrite dict_keys_set. case_decide; [done|].
  apply NoDup_app. split_and!; [done | | apply NoDup_singleton].
  intros x Hx Hx'. apply list_elem_of_singleton in Hx' as ->. done.
Qed.

End dict_facts.

(** ** Graph: reading edges *)

Lemma get_graph_dict g a b :
  graph_dict (get g a b).2 = (dict_setdefault (graph_dict g) a []).2.
Proof.
  unfold get. destruct (dict_setdefault (graph_dict g) a []) as [links d].
  by destruct b.
Qed.

Lemma get_links g a :
  (get g a None).1 = Links (default [] (dict_get (graph_dict g) a)).
Proof.
  unfold get. rewrite <- dict_setdefault_value.
  by destruct (dict_setdefault (graph_dict g) a []).
Qed.

Lemma get_distance g a b :
  (get g a (Some b)).1 = Distance (edge_weight g a b).
Proof.
  unfold get, edge_weight.
  pose proof (dict_setdefault_value (graph_dict g) a []) as Hv.
  destruct (dict_setdefault (graph_dict g) a []) as [links d]. simpl in *.
  subst links. by destruct (dict_get (graph_dict g) a).
Qed.

(** C10.  [g.get(a, b)] is [None] when the graph has no edge from [a] to
    [b], and [g.get(a)] is the empty dictionary when no edge leaves [a]:
    neither call raises, whether or not [a] is a key of the adjacency
    dictionary. *)
Theorem get_absent_edge (g : Graph) (a b : Z) :
  (edge_weight g a b = None → (get g a (Some b)).1 = Distance None) ∧
  ((∀ b', edge_weight g a b' = None) → (get g a None).1 = Links []).
Proof.
  split.
  - intros Hnone. by rewrite get_distance, Hnone.
  - intros Hall. rewrite get_links. f_equal.
    unfold edge_weight in Hall.
    destruct (dict_get (graph_dict g) a) as [links|]; [|done].
    simpl. by apply dict_all_None_nil.
Qed.

Lemma get_absent_edge_witness :
  let g := mkGraph [(1, [(2, 7)]); (3, [])]%Z true None in
  ((get g 1%Z (Some 5%Z)).1 = Distance None ∧ (get g 3%Z None).1 = Links [])
  ∧ ((get g 4%Z (Some 1%Z)).1 = Distance None ∧ (get g 4%Z None).1 = Links []).
Proof.
  intros g. split.
  - split.
    + apply (proj1 (get_absent_edge g 1%Z 5%Z)). reflexivity.
    + apply (proj2 (get_absent_edge g 3%Z 5%Z)). intros b'. reflexivity.
  - split.
    + apply (proj1 (get_absent_edge g 4%Z 1%Z)). reflexivity.
    + apply (proj2 (get_absent_edge g 4%Z 1%Z)). intros b'. reflexivity.
Defined.

(** ** GraphProblem.path_cost *)

Lemma GraphProblem_path_cost_value c A act B g :
  (GraphProblem_path_cost c A act B g).1 = cost_add c (or_inf (edge_weight g A B)).
Proof.
  unfold GraphProblem_path_cost.
  pose proof (get_distance g A B) as Hd.
  destruct (get g A (Some B)) as [r g']. simpl in Hd. by subst r.
Qed.

Lemma GraphProblem_path_cost_edge c A act B g w :
  edge_weight g A B = Some w → w ≠ 0%Z →
  (GraphProblem_path_cost c A act B g).1 = cost_add c (Fin w).
Proof.
  intros Hw Hnz. rewrite GraphProblem_path_cost_value, Hw.
  by destruct w.
Qed.

Lemma GraphProblem_path_cost_no_edge c A act B g :
  edge_weight g A B = None → (GraphProblem_path_cost c A act B g).1 = Inf.
Proof.
  intros Hw. rewrite GraphProblem_path_cost_value, Hw. by destruct c.
Qed.

(** C5, at an edge of weight 0.  The graph has the edge [1 -> 2] with weight
    [0]; with accumulated cost [5] the claim gives [5 + 0 = 5], while
    [path_cost] returns the infinite cost, because [0 or np.inf] is
    [np.inf]. *)
Theorem path_cost_zero_weight_edge :
  let g := mkGraph [(1, [(2, 0)])]%Z true None in
  edge_weight g 1%Z 2%Z = Some 0%Z
  ∧ cost_add (Fin 5) (Fin 0) = Fin 5
  ∧ (GraphProblem_path_cost (Fin 5) 1%Z 2%Z 2%Z g).1 = Inf.
Proof. done. Qed.

(** ** GraphProblem.h *)

Lemma int_distance_floor a b d :
  floor_distance a b d → int_distance a b = Ok d.
Proof.
  intros (xA & yA & xB & yB & -> & -> & Hd0 & Hlo & Hhi). simpl. f_equal.
  apply Z.sqrt_unique. lia.
Qed.

Lemma floor_distance_int a b d :
  int_distance a b = Ok d → floor_distance a b d.
Proof.
  destruct a as [|xA [|yA [|]]]; try done.
  destruct b as [|xB [|yB [|]]]; try done.
  simpl. intros [= <-]. exists xA, yA, xB, yB.
  set (n := ((xA - xB) * (xA - xB) + (yA - yB) * (yA - yB))%Z).
  assert (0 ≤ n)%Z as Hn
    by (apply Z.add_nonneg_nonneg; apply Z.square_nonneg).
  pose proof (Z.sqrt_nonneg n) as H0.
  destruct (Z.sqrt_spec n Hn) as [Hlo Hhi].
  unfold Z.succ in Hhi.
  split_and!; [done | done | exact H0 | exact Hlo | exact Hhi].
Qed.

Lemma floor_distance_unique a b d d' :
  floor_distance a b d → floor_distance a b d' → d = d'.
Proof.
  intros H1 H2. apply int_distance_floor in H1, H2. congruence.
Qed.

Lemma fold_left_min_le (l : list Z) (x : Z) :
  (fold_left Z.min l x ≤ x)%Z ∧ ∀ y, y ∈ l → (fold_left Z.min l x ≤ y)%Z.
Proof.
  revert x. induction l as [|z l IH]; intros x; simpl.
  - split; [lia | by intros y ?%elem_of_nil].
  - destruct (IH (Z.min x z)) as [Hx Hl]. split; [lia|].
    intros y [->|Hy]%elem_of_cons; [lia | by apply Hl].
Qed.

Lemma fold_left_min_elem (l : list Z) (x : Z) :
  fold_left Z.min l x = x ∨ fold_left Z.min l x ∈ l.
Proof.
  revert x. induction l as [|z l IH]; intros x; simpl; [by left|].
  destruct (IH (Z.min x z)) as [Heq|Hin].
  - rewrite Heq. destruct (Z.min_spec x z) as [[_ ->]|[_ ->]];
      [by left | right; left].
  - right. by right.
Qed.

Lemma min_list_spec (l : list Z) (m : Z) :
  min_list l = Ok m → m ∈ l ∧ ∀ y, y ∈ l → (m ≤ y)%Z.
Proof.
  destruct l as [|x l]; [done|]. simpl. intros [= <-].
  destruct (fold_left_min_le l x) as [Hx Hl]. split.
  - destruct (fold_left_min_elem l x) as [->|Hin]; [left | by right].
  - intros y [->|Hy]%elem_of_cons; [done | by apply Hl].
Qed.

Lemma res_mapM_Ok {A B} (f : A → res B) (g : A → B) (l : list A) :
  (∀ a, a ∈ l → f a = Ok (g a)) → res_mapM f l = Ok (map g l).
Proof.
  induction l as [|a l IH]; intros Hf; simpl; [done|].
  rewrite Hf by left. simpl. rewrite IH; [done|].
  intros a' Ha'. apply Hf. by right.
Qed.

Lemma GraphProblem_h_no_locations g goal node :
  locations g = None ∨ locations g = Some [] →
  GraphProblem_h g goal node = Ok Inf.
Proof. unfold GraphProblem_h. by intros [-> | ->]. Qed.

Lemma GraphProblem_h_single g locs gl node a b d :
  locations g = Some locs → locs ≠ [] →
  dict_get locs (state node) = Some a → dict_get locs gl = Some b →
  floor_distance a b d →
  GraphProblem_h g (GoalState gl) node = Ok (Fin d).
Proof.
  intros Hl Hne Ha Hb Hd. unfold GraphProblem_h. rewrite Hl.
  destruct locs as [|e locs]; [done|].
  unfold dict_item. rewrite Ha, Hb. simpl.
  by rewrite (int_distance_floor _ _ _ Hd).
Qed.

Lemma GraphProblem_h_list g locs goals node a :
  locations g = Some locs → locs ≠ [] → goals ≠ [] →
  dict_get locs (state node) = Some a →
  (∀ gl, gl ∈ goals → ∃ b d, dict_get locs gl = Some b ∧ floor_distance a b d) →
  ∃ m, GraphProblem_h g (GoalList goals) node = Ok (Fin m)
    ∧ (∃ gl b, gl ∈ goals ∧ dict_get locs gl = Some b ∧ floor_distance a b m)
    ∧ (∀ gl b d, gl ∈ goals → dict_get locs gl = Some b →
         floor_distance a b d → (m ≤ d)%Z).
Proof.
  intros Hl Hne Hgs Ha Hall. unfold GraphProblem_h. rewrite Hl.
  destruct locs as [|e locs]; [done|]. clear Hne.
  set (locs' := e :: locs) in *.
  set (dist := fun gl : Z =>
         match dict_get locs' gl with
         | Some b => match int_distance a b with Ok d => d | Raise _ => 0%Z end
         | None => 0%Z
         end).
  assert (∀ gl b d, gl ∈ goals → dict_get locs' gl = Some b →
            floor_distance a b d → dist gl = d) as Hdist.
  { intros gl b d _ Hb Hd. unfold dist.
    by rewrite Hb, (int_distance_floor _ _ _ Hd). }
  rewrite (res_mapM_Ok _ dist).
  2:{ intros gl Hgl. destruct (Hall gl Hgl) as (b & d & Hb & Hd).
      unfold dict_item. rewrite Ha, Hb. simpl.
      rewrite (int_distance_floor _ _ _ Hd). f_equal. symmetry. eauto. }
  simpl. destruct (min_list (map dist goals)) as [m|err] eqn:Hmin.
  2:{ destruct goals; [done | discriminate Hmin]. }
  apply min_list_spec in Hmin as [Hin Hle]. exists m. split; [done|]. split.
  - apply list_elem_of_fmap in Hin as (gl & -> & Hgl).
    destruct (Hall gl Hgl) as (b & d & Hb & Hd).
    exists gl, b. rewrite (Hdist gl b d) by done. done.
  - intros gl b d Hgl Hb Hd. rewrite <- (Hdist gl b d) by done.
    apply Hle. apply list_elem_of_fmap. eauto.
Qed.

(** C6 (as amended).  [h] returns the infinite cost when the graph has no
    [locations] attribute or an empty one.  With a non-empty [locations]
    that holds a coordinate pair for the node's state and for every goal,
    it returns the integer part of the Euclidean distance to the goal, for
    a list of goals the least such value. *)
Theorem h_straight_line_distance (g : Graph) (goal : Goal) (node : Node) :
  ((locations g = None ∨ locations g = Some []) →
     GraphProblem_h g goal node = Ok Inf)
  ∧ (∀ locs a,
       locations g = Some locs → locs ≠ [] →
       dict_get locs (state node) = Some a →
       (∀ gl b d,
          goal = GoalState gl → dict_get locs gl = Some b →
          floor_distance a b d →
          GraphProblem_h g goal node = Ok (Fin d))
       ∧ (∀ goals,
            goal = GoalList goals → goals ≠ [] →
            (∀ gl, gl ∈ goals →
               ∃ b d, dict_get locs gl = Some b ∧ floor_distance a b d) →
            ∃ m, GraphProblem_h g goal node = Ok (Fin m)
              ∧ (∃ gl b, gl ∈ goals ∧ dict_get locs gl = Some b
                         ∧ floor_distance a b m)
              ∧ (∀ gl b d, gl ∈ goals → dict_get locs gl = Some b →
                   floor_distance a b d → (m ≤ d)%Z))).
Proof.
  split; [apply GraphProblem_h_no_locations|].
  intros locs a Hl Hne Ha. split.
  - intros gl b d -> Hb Hd. by eapply GraphProblem_h_single.
  - intros goals -> Hgs Hall. by eapply GraphProblem_h_list.
Qed.

Lemma h_straight_line_distance_witness :
  let locs := [(1, [0; 0]); (2, [3; 4]); (3, [1; 1])]%Z in
  let node := Node_init 1%Z None None (Fin 0) : @Node Z Z in
  GraphProblem_h (mkGraph [] true None) (GoalState 2%Z) node = Ok Inf
  ∧ GraphProblem_h (mkGraph [] true (Some locs)) (GoalState 2%Z) node
    = Ok (Fin 5)
  ∧ ∃ m, GraphProblem_h (mkGraph [] true (Some locs)) (GoalList [2; 3]%Z) node
         = Ok (Fin m).
Proof.
  intros locs node. split_and!.
  - apply (proj1 (h_straight_line_distance
                    (mkGraph [] true None) (GoalState 2%Z) node)).
    by left.
  - apply (proj1 (proj2 (h_straight_line_distance
                    (mkGraph [] true (Some locs)) (GoalState 2%Z) node)
                  locs [0; 0]%Z eq_refl ltac:(done) eq_refl)
             2%Z [3; 4]%Z 5%Z eq_refl eq_refl).
    exists 0%Z, 0%Z, 3%Z, 4%Z. split_and!; [done | done | lia..].
  - destruct (proj2 (proj2 (h_straight_line_distance
                    (mkGraph [] true (Some locs)) (GoalList [2; 3]%Z) node)
                  locs [0; 0]%Z eq_refl ltac:(done) eq_refl)
             [2; 3]%Z eq_refl ltac:(done)) as (m & Hm & _).
    + intros gl Hgl.
      apply elem_of_cons in Hgl as [->|Hgl];
        [|apply list_elem_of_singleton in Hgl as ->].
      * exists [3; 4]%Z, 5%Z. split; [done|].
        exists 0%Z, 0%Z, 3%Z, 4%Z. split_and!; [done | done | lia..].
      * exists [1; 1]%Z, 1%Z. split; [done|].
        exists 0%Z, 0%Z, 1%Z, 1%Z. split_and!; [done | done | lia..].
    + by exists m.
Defined.

(** C6, where it fails: the graph has coordinates for node [1] only and the
    goal is node [2].  Coordinate data is missing for an involved state, and
    [h] raises [KeyError] instead of returning the infinite cost. *)
Lemma h_missing_coordinates_raises :
  let locs := [(1, [0; 0])]%Z in
  let node := Node_init 1%Z None None (Fin 0) : @Node Z Z in
  dict_get locs 2%Z = None
  ∧ GraphProblem_h (mkGraph [] true (Some locs)) (GoalState 2%Z) node
    = Raise KeyError
  ∧ GraphProblem_h (mkGraph [] true (Some locs)) (GoalState 2%Z) node
    ≠ Ok Inf.
Proof. done. Qed.

(** ** Nodes and the search tree *)

Section Node_facts.
Context {State Action W : Type}.
Implicit Types (n q c : @Node State Action) (p : @Problem State Action W).

Lemma path_back_unfold n :
  path_back n = n :: match parent n with
                     | Some q => path_back q
                     | None => []
                     end.
Proof. by destruct n. Qed.

Lemma path_unfold n :
  path n = match parent n with
           | Some q => path q ++ [n]
           | None => [n]
           end.
Proof.
  unfold path. rewrite path_back_unfold. simpl.
  by destruct (parent n).
Qed.

Lemma path_last n : last (path n) = Some n.
Proof.
  rewrite path_unfold. destruct (parent n); [|done]. by rewrite last_snoc.
Qed.

Lemma path_length_pos n : 0 < length (path n).
Proof.
  rewrite path_unfold. destruct (parent n); simpl; [|lia].
  rewrite length_app. simpl. lia.
Qed.

Lemma solution_unfold n :
  solution n = match parent n with
               | Some q => solution q ++ [action n]
               | None => []
               end.
Proof.
  unfold solution. rewrite path_unfold. destruct (parent n) as [q|]; [|done].
  pose proof (path_length_pos q) as Hq.
  destruct (path q) as [|r l]; simpl in *; [lia|]. by rewrite map_app.
Qed.

Lemma child_node_fields n p a w :
  let c := (child_node n p a w).1 in
  state c = result p (state n) a ∧ parent c = Some n ∧ action c = Some a
  ∧ depth c = depth n + 1
  ∧ path_cost c
    = (problem_path_cost p (path_cost n) (state n) a (state c) w).1.
Proof.
  unfold child_node.
  destruct (problem_path_cost p (path_cost n) (state n) a
              (result p (state n) a) w) as [pc w'] eqn:Hpc.
  simpl. by rewrite Hpc.
Qed.

Lemma child_nodes_fields n p acts w :
  Forall2 (fun a c =>
             state c = result p (state n) a ∧ parent c = Some n
             ∧ action c = Some a ∧ depth c = depth n + 1
             ∧ ∃ w', path_cost c
                     = (problem_path_cost p (path_cost n) (state n) a
                          (state c) w').1)
          acts (child_nodes n p acts w).1.
Proof.
  revert w. induction acts as [|a acts IH]; intros w; simpl; [constructor|].
  pose proof (child_node_fields n p a w) as Hc.
  destruct (child_node n p a w) as [c w1].
  specialize (IH w1). destruct (child_nodes n p acts w1) as [cs w2].
  simpl in *. constructor; [|done].
  destruct Hc as (? & ? & ? & ? & ?). split_and!; eauto.
Qed.

Lemma built_path p n :
  built p n →
  head (path n) = Some (root_node p) ∧ length (path n) = depth n + 1.
Proof.
  induction 1 as [|n a w Hn [Hhead Hlen]]; [done|].
  destruct (child_node_fields n p a w) as (_ & Hpar & _ & Hd & _).
  rewrite path_unfold, Hpar, Hd, length_app. simpl. split; [|lia].
  destruct (path n); [done | by simpl in *].
Qed.

(** C7.  The root has depth 0.  The children that [expand] builds
    correspond, in order, to the actions of the parent's state: each has
    the state given by [result], the parent and the action as its links,
    the parent's depth plus one, and the path cost that the problem's
    [path_cost] returns.  For a node [n] of the search tree, [path] lists
    the ancestors from the root down to [n] itself, one per unit of depth,
    and [solution] lists the actions along that path, without the root. *)
Theorem node_tree_construction p n w :
  built p n →
  depth (root_node p) = 0
  ∧ Forall2 (fun a c =>
               state c = result p (state n) a ∧ parent c = Some n
               ∧ action c = Some a ∧ depth c = depth n + 1
               ∧ ∃ w', path_cost c
                       = (problem_path_cost p (path_cost n) (state n) a
                            (state c) w').1)
            (actions p (state n) w).1 (expand n p w).1
  ∧ path n = match parent n with
             | Some q => path q ++ [n]
             | None => [n]
             end
  ∧ head (path n) = Some (root_node p)
  ∧ last (path n) = Some n
  ∧ length (path n) = depth n + 1
  ∧ solution n = map action (tail (path n))
  ∧ solution n = match parent n with
                 | Some q => solution q ++ [action n]
                 | None => []
                 end.
Proof.
  intros Hn. destruct (built_path p n Hn) as [Hhead Hlen]. split_and!.
  - done.
  - unfold expand. destruct (actions p (state n) w) as [acts w1]. simpl.
    apply child_nodes_fields.
  - apply path_unfold.
  - done.
  - apply path_last.
  - done.
  - done.
  - apply solution_unfold.
Qed.

End Node_facts.

(** ** The search machines *)

Section Machine_facts.
Context {State Action W : Type} `{Countable State}.
Variable state_ltb : State → State → bool.
Variable problem : @Problem State Action W.

Local Abbreviation config F := (@config State Action W _ _ F).
Local Abbreviation outcome F := (@outcome State Action W _ _ F).
Local Abbreviation Node := (@Node State Action).
Local Abbreviation PriorityQueue := (@PriorityQueue State Action).

Implicit Types (n child node : Node) (l fr : list Node) (q : PriorityQueue).

Lemma reachable_invariant {F} (step : config F → outcome F) (c0 : config F)
    (P : config F → Prop) :
  P c0 → (∀ c c', P c → step c = Running c' → P c') →
  ∀ c, reachable step c0 c → P c.
Proof. intros H0 Hstep c Hc. induction Hc; eauto. Qed.

Lemma reachable_front {F} (step : config F → outcome F) (c0 c1 c : config F) :
  step c0 = Running c1 → reachable step c1 c → reachable step c0 c.
Proof.
  intros H01 Hc. induction Hc as [|c c' _ IH Hs].
  - eapply reachable_step; [apply reachable_init | done].
  - eapply reachable_step; done.
Qed.

Lemma run_reachable {F} (step : config F → outcome F) fuel (c0 : config F) r w :
  run step fuel c0 = Some (r, w) →
  ∃ c, reachable step c0 c ∧ step c = Returned r w.
Proof.
  revert c0. induction fuel as [|fuel IH]; intros c0; simpl; [done|].
  destruct (step c0) as [c1|r' w'] eqn:Hs.
  - intros Hrun. destruct (IH _ Hrun) as (c & Hc & Hret).
    exists c. split; [by eapply reachable_front | done].
  - intros [= -> ->]. exists c0. split; [apply reachable_init | done].
Qed.

Lemma run_more_fuel {F} (step : config F → outcome F) fuel fuel' (c : config F) x :
  run step fuel c = Some x → fuel ≤ fuel' → run step fuel' c = Some x.
Proof.
  revert fuel' c. induction fuel as [|fuel IH]; intros fuel' c; simpl; [done|].
  intros Hrun Hle. destruct fuel' as [|fuel']; [lia|]. simpl.
  destruct (step c); [|done]. apply IH; [done | lia].
Qed.

(** *** Lists and queues as frontiers *)

Lemma node_in_spec child l : node_in child l = true ↔ state child ∈ map state l.
Proof.
  unfold node_in, Node_eqb. rewrite existsb_exists, list_elem_of_fmap.
  split.
  - intros (m & Hm & Heq). apply bool_decide_eq_true in Heq.
    exists m. split; [done | by apply list_elem_of_In].
  - intros (m & Heq & Hm). exists m.
    split; [by apply list_elem_of_In | by apply bool_decide_eq_true].
Qed.

Lemma node_in_false child l :
  node_in child l = false ↔ state child ∉ map state l.
Proof.
  rewrite <- node_in_spec. by destruct (node_in child l).
Qed.

Lemma list_pop_Some l node fr : list_pop l = Some (node, fr) → l = fr ++ [node].
Proof.
  unfold list_pop. destruct (rev l) as [|x r] eqn:Hrev; [done|].
  intros [= <- <-]. rewrite <- (rev_involutive l), Hrev. done.
Qed.

Lemma list_pop_None l : list_pop l = None → l = [].
Proof.
  unfold list_pop. destruct (rev l) as [|x r] eqn:Hrev; [|done].
  intros _. by rewrite <- (rev_involutive l), Hrev.
Qed.

Lemma pq_contains_spec q n : pq_contains q n = true ↔ state n ∈ pq_states q.
Proof.
  unfold pq_contains, pq_states, Node_eqb.
  rewrite existsb_exists, list_elem_of_fmap. split.
  - intros (e & He & Heq). apply bool_decide_eq_true in Heq.
    exists e. split; [done | by apply list_elem_of_In].
  - intros (e & Heq & He). exists e.
    split; [by apply list_elem_of_In | by apply bool_decide_eq_true].
Qed.

Lemma pq_contains_false q n :
  pq_contains q n = false ↔ state n ∉ pq_states q.
Proof.
  rewrite <- pq_contains_spec. by destruct (pq_contains q n).
Qed.

Lemma pq_states_append f q n :
  pq_states (pq_append f q n) = pq_states q ++ [state n].
Proof. unfold pq_states, pq_append. by rewrite map_app. Qed.

Lemma pq_states_delitem q n :
  state n ∈ pq_states q →
  pq_states q ≡ₚ state n :: pq_states (pq_delitem q n).
Proof.
  induction q as [|e q IH]; simpl.
  - by intros ?%elem_of_nil.
  - unfold Node_eqb at 1. case_bool_decide as Heq.
    + intros _. by rewrite Heq.
    + intros [Hn|Hin]%elem_of_cons; [congruence|].
      simpl. rewrite (IH Hin) at 1. apply Permutation_swap.
Qed.

Lemma pq_getitem_Some q n :
  state n ∈ pq_states q →
  ∃ e, e ∈ q ∧ state e.2 = state n ∧ pq_getitem q n = Some e.1.
Proof.
  induction q as [|e q IH]; simpl.
  - by intros ?%elem_of_nil.
  - unfold Node_eqb at 1. case_bool_decide as Heq.
    + intros _. exists e. split_and!; [left | done | done].
    + intros [Hn|Hin]%elem_of_cons; [congruence|].
      destruct (IH Hin) as (e' & He' & Hst & Hget).
      exists e'. split_and!; [by right | done | done].
Qed.

Lemma pq_extract_perm e q :
  e :: q ≡ₚ (pq_extract state_ltb e q).1 :: (pq_extract state_ltb e q).2.
Proof.
  revert e. induction q as [|x q IH]; intros e; simpl; [done|].
  destruct (entry_ltb state_ltb x e).
  - specialize (IH x). destruct (pq_extract state_ltb x q) as [m rest].
    simpl in *. rewrite IH. apply perm_swap.
  - specialize (IH e). destruct (pq_extract state_ltb e q) as [m rest].
    simpl in *. etrans; [apply perm_swap|]. rewrite IH. apply perm_swap.
Qed.

Lemma pq_pop_Some q node q' :
  pq_pop state_ltb q = Some (node, q') →
  ∃ k, q ≡ₚ (k, node) :: q'.
Proof.
  unfold pq_pop. destruct q as [|e q]; [done|].
  pose proof (pq_extract_perm e q) as Hp.
  destruct (pq_extract state_ltb e q) as [[k m] rest]. simpl in *.
  intros [= <- <-]. by exists k.
Qed.

Lemma pq_pop_None q : pq_pop state_ltb q = None → q = [].
Proof.
  unfold pq_pop. destruct q as [|e q]; [done|].
  by destruct (pq_extract state_ltb e q).
Qed.

(** *** The shape of the three step functions *)

Lemma dfs_step_shape : step_shape problem (map state) (dfs_step problem).
Proof.
  intros c c' Hs. unfold dfs_step in Hs.
  destruct (pending c) as [|child rest] eqn:Hp.
  - right. destruct (list_pop (frontier c)) as [[node fr]|] eqn:Hpop; [|done].
    destruct (goal_test problem (state node)); [done|].
    destruct (expand node problem (world c)) as [children w] eqn:He.
    injection Hs as <-. exists node. simpl. split_and!; try done.
    apply list_pop_Some in Hpop. rewrite Hpop, map_app. simpl.
    symmetry. apply Permutation_cons_append.
  - left. exists child, rest.
    destruct (bool_decide (state child ∉ explored c)) eqn:Hex;
      destruct (node_in child (frontier c)) eqn:Hin;
      simpl in Hs; injection Hs as <-; simpl; split_and!; try done;
      try (by left).
    right. apply bool_decide_eq_true in Hex. apply node_in_false in Hin.
    by rewrite map_app.
Qed.

Lemma bfs_step_shape : step_shape problem (map state) (bfs_step problem).
Proof.
  intros c c' Hs. unfold bfs_step in Hs.
  destruct (pending c) as [|child rest] eqn:Hp.
  - right. destruct (frontier c) as [|node fr] eqn:Hfr; [done|].
    destruct (expand node problem (world c)) as [children w] eqn:He.
    injection Hs as <-. exists node. simpl. by split_and!.
  - left. exists child, rest.
    destruct (bool_decide (state child ∉ explored c)) eqn:Hex;
      destruct (node_in child (frontier c)) eqn:Hin;
      simpl in Hs;
      try (injection Hs as <-; simpl; split_and!; try done; by left).
    destruct (goal_test problem (state child)); [done|].
    injection Hs as <-; simpl; split_and!; try done.
    right. apply bool_decide_eq_true in Hex. apply node_in_false in Hin.
    by rewrite map_app.
Qed.

Lemma bf_step_shape f :
  step_shape problem pq_states (bf_step state_ltb problem f).
Proof.
  intros c c' Hs. unfold bf_step in Hs.
  destruct (pending c) as [|child rest] eqn:Hp.
  - right.
    destruct (pq_pop state_ltb (frontier c)) as [[node fr]|] eqn:Hpop; [|done].
    destruct (goal_test problem (state node)); [done|].
    destruct (expand node problem (world c)) as [children w] eqn:He.
    injection Hs as <-. exists node. simpl. split_and!; try done.
    apply pq_pop_Some in Hpop as [k Hperm].
    unfold pq_states. by rewrite Hperm.
  - left. exists child, rest.
    destruct (bool_decide (state child ∉ explored c)) eqn:Hex;
      destruct (pq_contains (frontier c) child) eqn:Hin; simpl in Hs.
    + destruct (pq_getitem (frontier c) child) as [queued|];
        [destruct (cost_ltb (f child) queued)|];
        injection Hs as <-; simpl; split_and!; try done; try (by left).
      left. rewrite pq_states_append.
      apply pq_contains_spec in Hin.
      etrans; [|symmetry; apply (pq_states_delitem _ _ Hin)].
      symmetry. apply Permutation_cons_append.
    + injection Hs as <-; simpl; split_and!; try done.
      right. apply bool_decide_eq_true in Hex.
      apply pq_contains_false in Hin. by rewrite pq_states_append.
    + destruct (pq_getitem (frontier c) child) as [queued|];
        [destruct (cost_ltb (f child) queued)|];
        injection Hs as <-; simpl; split_and!; try done; try (by left).
      left. rewrite pq_states_append.
      apply pq_contains_spec in Hin.
      etrans; [|symmetry; apply (pq_states_delitem _ _ Hin)].
      symmetry. apply Permutation_cons_append.
    + injection Hs as <-; simpl; split_and!; try done. by left.
Qed.

(** *** What the step functions return *)

Lemma dfs_step_returned c r w :
  dfs_step problem c = Returned r w →
  w = world c ∧ pending c = []
  ∧ ((r = CountOnly (size (explored c)) ∧ frontier c = [])
     ∨ ∃ node fr, r = NodeAndCount node (size (explored c))
                  ∧ frontier c = fr ++ [node]
                  ∧ goal_test problem (state node) = true).
Proof.
  unfold dfs_step. destruct (pending c) as [|child rest].
  - destruct (list_pop (frontier c)) as [[node fr]|] eqn:Hpop.
    + destruct (goal_test problem (state node)) eqn:Hg.
      * intros [= <- <-]. split_and!; [done..|]. right.
        exists node, fr. split_and!; [done | by apply list_pop_Some | done].
      * by destruct (expand node problem (world c)).
    + intros [= <- <-]. split_and!; [done..|]. left.
      split; [done | by apply list_pop_None].
  - by destruct (_ && _).
Qed.

Lemma bfs_step_returned c r w :
  bfs_step problem c = Returned r w →
  w = world c
  ∧ ((r = CountOnly (size (explored c)) ∧ pending c = [] ∧ frontier c = [])
     ∨ ∃ child rest, r = NodeAndCount child (size (explored c))
                     ∧ pending c = child :: rest
                     ∧ goal_test problem (state child) = true
                     ∧ (state child ∉ explored c)
                     ∧ (state child ∉ map state (frontier c))).
Proof.
  unfold bfs_step. destruct (pending c) as [|child rest].
  - destruct (frontier c) as [|node fr].
    + intros [= <- <-]. split; [done|]. by left.
    + by destruct (expand node problem (world c)).
  - destruct (bool_decide (state child ∉ explored c)) eqn:Hex;
      destruct (node_in child (frontier c)) eqn:Hin; simpl; try done.
    destruct (goal_test problem (state child)) eqn:Hg; [|done].
    intros [= <- <-]. split; [done|]. right. exists child, rest.
    apply bool_decide_eq_true in Hex. apply node_in_false in Hin.
    by split_and!.
Qed.

Lemma bf_step_returned f c r w :
  bf_step state_ltb problem f c = Returned r w →
  w = world c ∧ pending c = []
  ∧ ((r = CountOnly (size (explored c)) ∧ frontier c = [])
     ∨ ∃ node, r = NodeAndCount node (size (explored c))
               ∧ state node ∈ pq_states (frontier c)
               ∧ goal_test problem (state node) = true).
Proof.
  unfold bf_step. destruct (pending c) as [|child rest].
  - destruct (pq_pop state_ltb (frontier c)) as [[node fr]|] eqn:Hpop.
    + destruct (goal_test problem (state node)) eqn:Hg.
      * intros [= <- <-]. split_and!; [done..|]. right.
        exists node. split_and!; [done | | done].
        apply pq_pop_Some in Hpop as [k Hperm].
        unfold pq_states. rewrite Hperm. left.
      * by destruct (expand node problem (world c)).
    + intros [= <- <-]. split_and!; [done..|]. left.
      split; [done | by apply pq_pop_None].
  - destruct (_ && _); [done|]. destruct (pq_contains _ _); [|done].
    destruct (pq_getitem _ _); [|done]. by destruct (cost_ltb _ _).
Qed.

(** *** Invariants that follow from the shape of a step *)

Lemma frontier_inv_step {F} (fstates : F → list State) step (c c' : config F) :
  step_shape problem fstates step →
  frontier_inv fstates c → step c = Running c' → frontier_inv fstates c'.
Proof.
  intros Hshape [Hnd Hdisj] Hs.
  destruct (Hshape c c' Hs) as
    [(child & rest & Hp & Hp' & He & Hw & Hfr) | (node & Hp & Hfr & He & Hx)].
  - destruct Hfr as [Hfr | (Hex & Hnin & Hfr)].
    + split.
      * by rewrite Hfr.
      * intros s Hin. rewrite He. apply Hdisj. by rewrite <- Hfr.
    + split.
      * rewrite Hfr. apply NoDup_app. split_and!; [done | | apply NoDup_singleton].
        intros x Hx Hx'. apply list_elem_of_singleton in Hx' as ->. done.
      * intros s Hin. rewrite He. rewrite Hfr in Hin.
        apply elem_of_app in Hin as [Hin|Hin]; [by apply Hdisj|].
        by apply list_elem_of_singleton in Hin as ->.
  - rewrite Hfr in Hnd. apply NoDup_cons in Hnd as [Hnin Hnd']. split; [done|].
    intros s Hin. rewrite He.
    assert (s ∉ explored c) by (apply Hdisj; rewrite Hfr; by right).
    assert (s ≠ state node) by (by intros ->).
    by intros [?%elem_of_singleton|?]%elem_of_union.
Qed.

Lemma frontier_inv_reachable {F} (fstates : F → list State) step (c0 c : config F) :
  step_shape problem fstates step →
  frontier_inv fstates c0 → reachable step c0 c → frontier_inv fstates c.
Proof.
  intros Hshape H0 Hc. revert c Hc. apply reachable_invariant; [done|].
  intros c c' Hinv Hs. by eapply frontier_inv_step.
Qed.

Section Stable.
Variable Winv : W → Prop.
Variable acts : State → list Action.
Hypothesis Hstable : stable problem Winv acts.

Lemma child_nodes_stable n (l : list Action) w :
  Winv w →
  Winv (child_nodes n problem l w).2
  ∧ Forall2 (fun a c => ∃ w', Winv w' ∧ c = (child_node n problem a w').1)
            l (child_nodes n problem l w).1.
Proof using Hstable.
  revert w. induction l as [|a l IH]; intros w Hw; simpl; [by split|].
  assert (Winv (child_node n problem a w).2) as Hw1.
  { unfold child_node.
    pose proof (stable_path_cost _ _ _ Hstable (path_cost n) (state n) a
                  (result problem (state n) a) w Hw) as Hw1.
    by destruct (problem_path_cost problem (path_cost n) (state n) a
                   (result problem (state n) a) w). }
  destruct (child_node n problem a w) as [c w1] eqn:Hc. simpl in Hw1.
  destruct (IH w1 Hw1) as [Hw2 Hall].
  destruct (child_nodes n problem l w1) as [cs w2]. simpl in *.
  split; [done|]. constructor; [|done].
  exists w. by rewrite Hc.
Qed.

Lemma expand_stable n w :
  Winv w →
  Winv (expand n problem w).2
  ∧ Forall2 (fun a c => ∃ w', Winv w' ∧ c = (child_node n problem a w').1)
            (acts (state n)) (expand n problem w).1.
Proof using Hstable.
  intros Hw. unfold expand.
  destruct (stable_actions _ _ _ Hstable (state n) w Hw) as [Hacts Hw1].
  destruct (actions problem (state n) w) as [l w1]. simpl in *. subst l.
  by apply child_nodes_stable.
Qed.

Lemma expand_children n w child :
  Winv w → child ∈ (expand n problem w).1 →
  ∃ a w', a ∈ acts (state n) ∧ Winv w'
          ∧ child = (child_node n problem a w').1.
Proof using Hstable.
  intros Hw Hin. destruct (expand_stable n w Hw) as [_ Hall].
  apply list_elem_of_lookup in Hin as [i Hi].
  destruct (Forall2_lookup_r _ _ _ _ _ Hall Hi) as (a & Ha & w' & Hw' & ->).
  exists a, w'. split_and!; [|done|done].
  apply list_elem_of_lookup. by exists i.
Qed.

Lemma expand_successors n w child :
  Winv w → child ∈ (expand n problem w).1 →
  successor problem acts (state n) (state child).
Proof using Hstable.
  intros Hw Hin.
  destruct (expand_children n w child Hw Hin) as (a & w' & Ha & _ & ->).
  exists a. split; [done|]. apply child_node_fields.
Qed.

Lemma expand_states n w :
  Winv w →
  map state (expand n problem w).1
  = map (result problem (state n)) (acts (state n)).
Proof using Hstable.
  intros Hw. destruct (expand_stable n w Hw) as [_ Hall].
  induction Hall as [|a c l cs' (w' & _ & ->) _ IH]; simpl; [done|].
  f_equal; [|done]. apply child_node_fields.
Qed.

Lemma domain_inv_step {F} (fstates : F → list State) step (c c' : config F) :
  step_shape problem fstates step →
  domain_inv problem acts Winv fstates c → step c = Running c' →
  domain_inv problem acts Winv fstates c'.
Proof.
  intros Hshape (Hw & Hfr & Hex & Hpe) Hs.
  destruct (Hshape c c' Hs) as
    [(child & rest & Hp & Hp' & He & Hw' & Hfr') | (node & Hp & Hfr' & He & Hx)].
  - split_and!.
    + by rewrite Hw'.
    + intros s Hin. destruct Hfr' as [Hfr' | (_ & _ & Hfr')];
        rewrite Hfr' in Hin; [by apply Hfr|].
      apply elem_of_app in Hin as [Hin|Hin]; [by apply Hfr|].
      apply list_elem_of_singleton in Hin as ->. apply Hpe. rewrite Hp. left.
    + intros s. rewrite He. apply Hex.
    + intros n Hin. apply Hpe. rewrite Hp. right. by rewrite <- Hp'.
  - assert (reach problem acts (state node)) as Hnode
      by (apply Hfr; rewrite Hfr'; left).
    destruct (expand_stable node (world c) Hw) as [Hw' _].
    rewrite <- Hx in Hw'. simpl in Hw'.
    split_and!.
    + done.
    + intros s Hin. apply Hfr. rewrite Hfr'. by right.
    + intros s. rewrite He. intros [->%elem_of_singleton|Hin]%elem_of_union;
        [done | by apply Hex].
    + intros n Hin. eapply reach_successor; [exact Hnode|].
      eapply expand_successors; [exact Hw|]. by rewrite <- Hx.
Qed.

Lemma domain_inv_reachable {F} (fstates : F → list State) step (c0 c : config F) :
  step_shape problem fstates step →
  domain_inv problem acts Winv fstates c0 → reachable step c0 c →
  domain_inv problem acts Winv fstates c.
Proof.
  intros Hshape H0 Hc. revert c Hc. apply reachable_invariant; [done|].
  intros c c' Hinv Hs. by eapply domain_inv_step.
Qed.

(** The explored states never outnumber the reachable ones. *)
Lemma explored_bounded {F} (fstates : F → list State) (c : config F)
    (U : gset State) :
  domain_inv problem acts Winv fstates c →
  (∀ s, reach problem acts s → s ∈ U) →
  size (explored c) ≤ size U.
Proof.
  intros (_ & _ & Hex & _) HU. apply subseteq_size.
  intros s Hs. by apply HU, Hex.
Qed.

(** On a finite domain every search comes to an end. *)
Lemma run_terminates {F} (fstates : F → list State) step (U : gset State) :
  step_shape problem fstates step →
  (∀ s, reach problem acts s → s ∈ U) →
  ∀ c : config F,
    frontier_inv fstates c → domain_inv problem acts Winv fstates c →
    ∃ fuel r w, run step fuel c = Some (r, w).
Proof using Hstable.
  clear state_ltb.
  intros Hshape HU c.
  remember (size (U ∖ explored c)) as a eqn:Ha.
  revert c Ha. induction a as [a IHa] using lt_wf_ind. intros c Ha.
  remember (length (pending c)) as b eqn:Hb.
  revert c Ha Hb. induction b as [b IHb] using lt_wf_ind.
  intros c Ha Hb Hfi Hdi.
  destruct (step c) as [c'|r w] eqn:Hs.
  2:{ exists 1, r, w. simpl. by rewrite Hs. }
  pose proof (frontier_inv_step _ _ _ _ Hshape Hfi Hs) as Hfi'.
  pose proof (domain_inv_step _ _ _ _ Hshape Hdi Hs) as Hdi'.
  assert (∃ fuel r w, run step fuel c' = Some (r, w)) as (fuel & r & w & Hrun).
  { destruct (Hshape c c' Hs) as
      [(child & rest & Hp & Hp' & He & Hw' & Hfr') | (node & Hp & Hfr' & He & Hx)].
    - apply (IHb (length (pending c'))); try done.
      + rewrite Hb, Hp, Hp'. simpl. lia.
      + by rewrite He.
    - apply (IHa (size (U ∖ explored c'))); try done.
      rewrite Ha. apply subset_size.
      destruct Hfi as [_ Hdisj]. destruct Hdi as (_ & Hfr & _ & _).
      assert (state node ∈ fstates (frontier c)) as Hin
        by (rewrite Hfr'; left).
      pose proof (Hdisj _ Hin) as Hnex. pose proof (HU _ (Hfr _ Hin)) as HinU.
      rewrite He. split.
      + intros x. rewrite !elem_of_difference, elem_of_union. tauto.
      + intros Hsub. specialize (Hsub (state node)).
        rewrite !elem_of_difference, elem_of_union, elem_of_singleton in Hsub.
        destruct (Hsub (conj HinU Hnex)) as [_ Hn]. apply Hn. by left. }
  exists (S fuel), r, w. simpl. by rewrite Hs.
Qed.

End Stable.

(** *** The initial configurations *)

Lemma dfs_init_frontier_inv w : frontier_inv (map state) (dfs_init problem w).
Proof.
  split; simpl.
  - apply NoDup_singleton.
  - intros s _. apply not_elem_of_empty.
Qed.

Lemma bf_init_frontier_inv f w : frontier_inv pq_states (bf_init problem f w).
Proof.
  split; simpl.
  - apply NoDup_singleton.
  - intros s _. apply not_elem_of_empty.
Qed.

Lemma dfs_init_domain_inv Winv acts w :
  Winv w → domain_inv problem acts Winv (map state) (dfs_init problem w).
Proof.
  intros Hw. split_and!; simpl; [done | | |].
  - intros s ->%list_elem_of_singleton. apply reach_initial.
  - by intros s ?%not_elem_of_empty.
  - by intros n ?%elem_of_nil.
Qed.

Lemma bf_init_domain_inv Winv acts f w :
  Winv w → domain_inv problem acts Winv pq_states (bf_init problem f w).
Proof.
  intros Hw. split_and!; simpl; [done | | |].
  - intros s ->%list_elem_of_singleton. apply reach_initial.
  - by intros s ?%not_elem_of_empty.
  - by intros n ?%elem_of_nil.
Qed.

(** *** The keys in the priority queue *)

Lemma pq_delitem_Forall (P : cost * Node → Prop) q n :
  Forall P q → Forall P (pq_delitem q n).
Proof.
  induction 1 as [|e q He Hq IH]; simpl; [done|].
  destruct (Node_eqb e.2 n); [done | by constructor].
Qed.

Lemma bf_keys_reachable f w0 c :
  reachable (bf_step state_ltb problem f) (bf_init problem f w0) c →
  Forall (fun e => e.1 = f e.2) (frontier c).
Proof.
  revert c. apply reachable_invariant.
  { simpl. by constructor. }
  intros c c' Hkeys Hs. unfold bf_step in Hs.
  assert (∀ n, Forall (fun e => e.1 = f e.2) (pq_append f (frontier c) n))
    as Happ.
  { intros n. apply Forall_app. split; [done | by constructor]. }
  destruct (pending c) as [|child rest].
  - destruct (pq_pop state_ltb (frontier c)) as [[node fr]|] eqn:Hpop; [|done].
    destruct (goal_test problem (state node)); [done|].
    destruct (expand node problem (world c)) as [children w].
    injection Hs as <-. simpl.
    apply pq_pop_Some in Hpop as [k Hperm]. rewrite Hperm in Hkeys.
    by apply Forall_cons in Hkeys as [_ ?].
  - destruct (_ && _); [injection Hs as <-; apply Happ|].
    destruct (pq_contains _ _); [|by injection Hs as <-].
    destruct (pq_getitem _ _); [|by injection Hs as <-].
    destruct (cost_ltb _ _); injection Hs as <-; simpl; [|done].
    apply Forall_app. split; [by apply pq_delitem_Forall | by constructor].
Qed.

Lemma pq_delitem_split q n :
  state n ∈ pq_states q →
  ∃ q1 e q2, q = q1 ++ e :: q2 ∧ state e.2 = state n
             ∧ (state n ∉ pq_states q1)
             ∧ pq_delitem q n = q1 ++ q2 ∧ pq_getitem q n = Some e.1.
Proof.
  induction q as [|e q IH]; simpl.
  - by intros ?%elem_of_nil.
  - unfold Node_eqb. case_bool_decide as Heq.
    + intros _. exists [], e, q. split_and!; try done. apply not_elem_of_nil.
    + intros [Hn|Hin]%elem_of_cons; [congruence|].
      destruct (IH Hin) as (q1 & e' & q2 & -> & Hst & Hnin & Hdel & Hget).
      exists (e :: q1), e', q2. split_and!; try done.
      * simpl. rewrite not_elem_of_cons. split; [congruence | done].
      * simpl. by rewrite Hdel.
Qed.

(** C2.  In [best_first_graph_search], a child whose state is in neither
    the explored set nor the frontier is appended to the frontier.  A child
    whose state is in the frontier meets exactly one queued entry with that
    state, keyed by the f-value of its node: if the child's f-value is
    strictly less the entry is deleted and the child appended, otherwise
    the frontier is left as it is.  A child whose state is explored is
    dropped.  The explored set never changes while children are handled. *)
Theorem best_first_child_handling (f : Node → cost) (w0 : W)
    (c : config PriorityQueue) (child : Node) (rest : list Node) :
  reachable (bf_step state_ltb problem f) (bf_init problem f w0) c →
  pending c = child :: rest →
  let continue_with q' :=
    bf_step state_ltb problem f c
    = Running (Config q' (explored c) rest (world c)) in
  ((state child ∉ explored c) → (state child ∉ pq_states (frontier c)) →
     continue_with (pq_append f (frontier c) child))
  ∧ (state child ∈ pq_states (frontier c) →
       ∃ q1 queued q2,
         frontier c = q1 ++ (f queued, queued) :: q2
         ∧ state queued = state child
         ∧ (state child ∉ pq_states (q1 ++ q2))
         ∧ (cost_ltb (f child) (f queued) = true →
              continue_with (q1 ++ q2 ++ [(f child, child)]))
         ∧ (cost_ltb (f child) (f queued) = false →
              continue_with (frontier c)))
  ∧ (state child ∈ explored c → continue_with (frontier c)).
Proof.
  intros Hreach Hp.
  pose proof (bf_keys_reachable _ _ _ Hreach) as Hkeys.
  pose proof (frontier_inv_reachable pq_states _ _ _ (bf_step_shape f)
                (bf_init_frontier_inv f w0) Hreach) as [Hnd Hdisj].
  simpl. unfold bf_step. rewrite Hp. split_and!.
  - intros Hex Hfr. apply pq_contains_false in Hfr.
    by rewrite Hfr, bool_decide_true.
  - intros Hin.
    destruct (pq_delitem_split _ _ Hin)
      as (q1 & [k queued] & q2 & Hq & Hst & Hnin & Hdel & Hget).
    simpl in *.
    assert (k = f queued) as ->.
    { rewrite Hq in Hkeys. apply Forall_app in Hkeys as [_ Hk].
      by apply Forall_cons in Hk as [? _]. }
    exists q1, queued, q2. split_and!; [done | done | | |].
    + rewrite Hq in Hnd. unfold pq_states in *.
      rewrite map_app in *. simpl in Hnd.
      apply NoDup_app in Hnd as (_ & Hcross & Hnd2).
      apply NoDup_cons in Hnd2 as [Hnin2 _]. rewrite <- Hst in *.
      rewrite elem_of_app. intros [?|?]; done.
    + intros Hlt. apply pq_contains_spec in Hin.
      rewrite Hin, andb_false_r, Hget, Hlt, Hdel.
      unfold pq_append. by rewrite <- app_assoc.
    + intros Hlt. apply pq_contains_spec in Hin.
      by rewrite Hin, andb_false_r, Hget, Hlt.
  - intros Hex.
    rewrite bool_decide_false by (by intros ?). simpl.
    assert (state child ∉ pq_states (frontier c)) as Hfr
      by (intros Hin; by apply (Hdisj _ Hin)).
    apply pq_contains_false in Hfr. by rewrite Hfr.
Qed.

(** C3.  In each of the three searches the states of the frontier entries
    are pairwise distinct in every configuration the search goes through;
    and when the problem's domain is fixed ([stable]) and all its reachable
    states lie in a finite set [U], the count a search returns is at most
    the size of [U]. *)
Theorem frontier_distinct_explored_bounded (f : Node → cost) (w0 : W) :
  (∀ c, reachable (dfs_step problem) (dfs_init problem w0) c →
        NoDup (map state (frontier c)))
  ∧ (∀ c, reachable (bfs_step problem) (bfs_init problem w0) c →
          NoDup (map state (frontier c)))
  ∧ (∀ c, reachable (bf_step state_ltb problem f) (bf_init problem f w0) c →
          NoDup (pq_states (frontier c)))
  ∧ (∀ (Winv : W → Prop) (acts : State → list Action) (U : gset State)
       fuel r w k,
       stable problem Winv acts → Winv w0 →
       (∀ s, reach problem acts s → s ∈ U) →
       depth_first_graph_search problem fuel w0 = Some (r, w)
       ∨ breadth_first_graph_search problem fuel w0 = Some (r, w)
       ∨ best_first_graph_search state_ltb problem f fuel w0 = Some (r, w) →
       result_count r = Some k →
       k ≤ size U).
Proof.
  split_and!.
  - intros c Hc.
    by apply (frontier_inv_reachable (map state) _ _ _ dfs_step_shape
                (dfs_init_frontier_inv w0) Hc).
  - intros c Hc.
    by apply (frontier_inv_reachable (map state) _ _ _ bfs_step_shape
                (dfs_init_frontier_inv w0) Hc).
  - intros c Hc.
    by apply (frontier_inv_reachable pq_states _ _ _ (bf_step_shape f)
                (bf_init_frontier_inv f w0) Hc).
  - intros Winv acts U fuel r w k Hst Hw0 HU Hrun Hk.
    destruct Hrun as [Hrun | [Hrun | Hrun]].
    + apply run_reachable in Hrun as (c & Hc & Hret).
      apply dfs_step_returned in Hret as (_ & _ & Hr).
      assert (k = size (explored c)) as ->.
      { destruct Hr as [[-> _] | (? & ? & -> & _)]; simpl in Hk; congruence. }
      eapply (explored_bounded Winv acts (map state)); [|done].
      eapply domain_inv_reachable;
        [done | apply dfs_step_shape | by apply dfs_init_domain_inv | done].
    + unfold breadth_first_graph_search in Hrun.
      destruct (goal_test problem _); [by injection Hrun as <- <-|].
      apply run_reachable in Hrun as (c & Hc & Hret).
      apply bfs_step_returned in Hret as (_ & Hr).
      assert (k = size (explored c)) as ->.
      { destruct Hr as [[-> _] | (? & ? & -> & _)]; simpl in Hk; congruence. }
      eapply (explored_bounded Winv acts (map state)); [|done].
      eapply domain_inv_reachable;
        [done | apply bfs_step_shape | by apply dfs_init_domain_inv | done].
    + apply run_reachable in Hrun as (c & Hc & Hret).
      apply bf_step_returned in Hret as (_ & _ & Hr).
      assert (k = size (explored c)) as ->.
      { destruct Hr as [[-> _] | (? & -> & _)]; simpl in Hk; congruence. }
      eapply (explored_bounded Winv acts pq_states); [|done].
      eapply domain_inv_reachable;
        [done | apply bf_step_shape | by apply bf_init_domain_inv | done].
Qed.

(** What the three searches return: a goal node with the number of
    explored states, or that number alone; the breadth-first search returns
    the root alone when the initial state is a goal. *)
Lemma search_result_shape (f : Node → cost) (fuel : nat) (w0 w : W)
    (r : search_result) :
  let found r := ∃ n k, r = NodeAndCount n k
                        ∧ goal_test problem (state n) = true in
  let failed r := ∃ k, r = CountOnly k in
  (depth_first_graph_search problem fuel w0 = Some (r, w) →
     found r ∨ failed r)
  ∧ (best_first_graph_search state_ltb problem f fuel w0 = Some (r, w) →
       found r ∨ failed r)
  ∧ (breadth_first_graph_search problem fuel w0 = Some (r, w) →
       if goal_test problem (initial problem)
       then r = NodeOnly (root_node problem)
       else found r ∨ failed r).
Proof.
  simpl. split_and!.
  - intros Hrun. apply run_reachable in Hrun as (c & _ & Hret).
    apply dfs_step_returned in Hret
      as (_ & _ & [[-> _] | (n & fr & -> & _ & Hg)]); [right | left]; eauto.
  - intros Hrun. apply run_reachable in Hrun as (c & _ & Hret).
    apply bf_step_returned in Hret
      as (_ & _ & [[-> _] | (n & -> & _ & Hg)]); [right | left]; eauto.
  - unfold breadth_first_graph_search. simpl.
    destruct (goal_test problem (initial problem)); [by intros [= <- _]|].
    intros Hrun. apply run_reachable in Hrun as (c & _ & Hret).
    apply bfs_step_returned in Hret
      as (_ & [[-> _] | (n & rest & -> & _ & Hg & _)]); [right | left]; eauto.
Qed.

End Machine_facts.

(** ** Breadth-first search finds a shallowest goal *)

Lemma chain_snoc {A} (R : A → A → Prop) (l : list A) (a b : A) :
  chain R l → last l = Some a → R a b → chain R (l ++ [b]).
Proof.
  induction l as [|x l IH]; [done|].
  destruct l as [|y l]; simpl in *.
  - intros _ [= ->] HR. done.
  - intros [Hxy Hch] Hlast HR. split; [done|]. by apply IH.
Qed.

Section BFS_facts.
Context {State Action W : Type} `{Countable State}.
Variable problem : @Problem State Action W.
Variable Winv : W → Prop.
Variable acts : State → list Action.
Hypothesis Hstable : stable problem Winv acts.

Local Abbreviation config F := (@config State Action W _ _ F).
Local Abbreviation Node := (@Node State Action).
Local Abbreviation successor := (successor problem acts).
Local Abbreviation reach := (reach problem acts).
Local Abbreviation reachN := (reachN problem acts).
Local Abbreviation wf_node := (wf_node problem acts Winv).

Lemma reach_reachN s : reach s ↔ ∃ k, reachN k s.
Proof.
  split.
  - induction 1 as [|s s' _ [k IH] Hs].
    + exists 0. constructor.
    + exists (S k). by econstructor.
  - intros [k Hk]. induction Hk; [constructor | by econstructor].
Qed.

Lemma reachN_along_path l s t k :
  reachN k s → chain successor (s :: l) → last (s :: l) = Some t →
  reachN (k + length l) t.
Proof.
  revert s k. induction l as [|b l IH]; intros s k Hk Hch Hlast.
  - simpl in *. injection Hlast as <-. by rewrite Nat.add_0_r.
  - destruct Hch as [Hsb Hch]. simpl length.
    replace (k + S (length l)) with (S k + length l) by lia.
    apply (IH b); [by econstructor | done | done].
Qed.

Lemma path_reachN t l :
  is_path successor (initial problem) t l → reachN (length l - 1) t.
Proof.
  intros (Hhead & Hlast & Hch). destruct l as [|s l]; [done|].
  simpl in Hhead. injection Hhead as ->.
  replace (length (initial problem :: l) - 1) with (0 + length l)
    by (simpl; lia).
  eapply reachN_along_path; [constructor | done | done].
Qed.

Lemma wf_node_path n :
  wf_node n →
  is_path successor (initial problem) (state n) (map state (path n))
  ∧ length (path n) = S (depth n).
Proof.
  induction 1 as [|n a w Hn [(Hhead & Hlast & Hch) Hlen] Ha Hw].
  - by split_and!.
  - destruct (child_node_fields n problem a w) as (Hst & Hpar & _ & Hd & _).
    rewrite path_unfold, Hpar, Hst, Hd. rewrite map_app, length_app. simpl.
    rewrite Hst. split; [|lia]. split_and!.
    + destruct (map state (path n)); [done | by simpl in *].
    + by rewrite last_snoc.
    + eapply chain_snoc; [done | done |]. by exists a.
Qed.

Lemma expand_wf node w child :
  Winv w → wf_node node → child ∈ (expand node problem w).1 →
  wf_node child ∧ depth child = S (depth node).
Proof.
  intros Hw Hnode Hin.
  destruct (expand_children _ _ _ Hstable node w child Hw Hin)
    as (a & w' & Ha & Hw' & ->).
  split; [by constructor|].
  destruct (child_node_fields node problem a w') as (_ & _ & _ & Hd & _).
  rewrite Hd. lia.
Qed.

Lemma successor_expand node w s' :
  Winv w → successor (state node) s' →
  s' ∈ map state (expand node problem w).1.
Proof.
  intros Hw (a & Ha & ->). rewrite (expand_states _ _ _ Hstable) by done.
  apply list_elem_of_fmap. by exists a.
Qed.

Lemma bfs_init_inv w :
  Winv w → goal_test problem (initial problem) = false →
  bfs_inv problem acts Winv 0 (bfs_init problem w).
Proof.
  intros Hw Hgoal. split_and!; simpl.
  - done.
  - exists [Node_init (initial problem) None None (Fin 0)], [].
    split_and!; [done | | by intros n ?%elem_of_nil].
    by intros n ->%list_elem_of_singleton.
  - intros n ->%list_elem_of_singleton. split; [constructor|].
    intros k _. simpl. lia.
  - by intros n ?%elem_of_nil.
  - intros s k _ Hk. lia.
  - intros s Hs. inversion Hs; subst. right. left.
  - by intros s s' ?%not_elem_of_empty.
  - intros s [?%not_elem_of_empty | ->%list_elem_of_singleton]; done.
Qed.

(** Taking the next node out of the frontier starts work on its depth. *)
Lemma bfs_inv_next_level d c node fr :
  bfs_inv problem acts Winv d c → pending c = [] → frontier c = node :: fr →
  (∃ A B, fr = A ++ B ∧ (∀ n, n ∈ A → depth n = depth node)
          ∧ (∀ n, n ∈ B → depth n = S (depth node)))
  ∧ (∀ s k, reachN k s → k < depth node → s ∈ explored c)
  ∧ (∀ s, reachN (depth node) s →
          s ∈ explored c ∨ s ∈ map state (node :: fr)).
Proof.
  intros (Hw & (A & B & HAB & HA & HB) & Hfr & Hpe & Hlt & Heq & Hcl & Hgoal)
         Hp HF.
  rewrite HF in *. rewrite Hp in *.
  destruct A as [|a A]; simpl in HAB.
  - subst B. assert (depth node = S d) as Hd by (apply HB; left).
    assert (∀ s k, reachN k s → k < S d → s ∈ explored c) as Hlt'.
    { intros s k Hk Hlt2. destruct (decide (k < d)) as [Hkd|Hkd]; [by eapply Hlt|].
      assert (k = d) as -> by lia.
      destruct (Heq s Hk) as [?|Hin]; [done|].
      apply list_elem_of_fmap in Hin as (n & -> & Hn).
      pose proof (HB n Hn). destruct (Hfr n Hn) as [_ Hmin].
      specialize (Hmin d Hk). lia. }
    rewrite Hd. split_and!; [|done|].
    + exists fr, []. split_and!; [by rewrite app_nil_r | | by intros n ?%elem_of_nil].
      intros n Hn. apply HB. by right.
    + intros s Hs. inversion Hs as [|k s0 s1 Hs0 Hsucc0]; subst.
      assert (s0 ∈ explored c) as Hs0' by (eapply Hlt'; [done | lia]).
      destruct (Hcl _ _ Hs0' Hsucc0) as [?|[?|Hnil]]; [by left | by right|].
      by apply elem_of_nil in Hnil.
  - injection HAB as <- ->.
    assert (depth node = d) as Hd by (apply HA; left).
    rewrite Hd. split_and!; [|done|done].
    exists A, B. split_and!; [done | | done].
    intros n Hn. apply HA. by right.
Qed.

Lemma bfs_inv_step d c c' :
  bfs_inv problem acts Winv d c → bfs_step problem c = Running c' →
  ∃ d', bfs_inv problem acts Winv d' c'.
Proof.
  intros Hinv Hs. unfold bfs_step in Hs.
  destruct (pending c) as [|child rest] eqn:Hp.
  - destruct (frontier c) as [|node fr] eqn:HF; [done|].
    destruct (bfs_inv_next_level _ _ _ _ Hinv Hp HF)
      as ((A & B & HAB & HA & HB) & Hlt' & Heq').
    destruct Hinv as (Hw & _ & Hfr & Hpe & Hlt & Heq & Hcl & Hgoal).
    rewrite HF in *. rewrite Hp in *.
    assert (wf_node node) as Hnode by (apply Hfr; left).
    destruct (expand_stable _ _ _ Hstable node (world c) Hw) as [Hw' _].
    pose proof (fun ch => expand_wf node (world c) ch Hw Hnode) as Hch.
    pose proof (fun s' => successor_expand node (world c) s' Hw) as Hsucc.
    destruct (expand node problem (world c)) as [children w]. simpl in *.
    injection Hs as <-. exists (depth node). split_and!; simpl.
    + done.
    + by exists A, B.
    + intros n Hn. apply Hfr. by right.
    + done.
    + intros s k Hk Hklt. apply elem_of_union. right. by eapply Hlt'.
    + intros s Hs. rewrite elem_of_union, elem_of_singleton.
      destruct (Heq' s Hs) as [?|[->|?]%elem_of_cons]; auto.
    + intros s s' [->%elem_of_singleton|Hs]%elem_of_union Hss.
      * right. right. by apply Hsucc.
      * rewrite elem_of_union, elem_of_singleton.
        destruct (Hcl _ _ Hs Hss) as [?|[[->|?]%elem_of_cons|Hnil]]; auto.
        by apply elem_of_nil in Hnil.
    + intros s [[->%elem_of_singleton|Hs]%elem_of_union|Hs].
      * apply Hgoal. right. left.
      * apply Hgoal. by left.
      * apply Hgoal. right. by right.
  - destruct Hinv as
      (Hw & (A & B & HAB & HA & HB) & Hfr & Hpe & Hlt & Heq & Hcl & Hgoal).
    rewrite Hp in *.
    destruct (Hpe child ltac:(left)) as [Hwf Hdepth].
    destruct (bool_decide (state child ∉ explored c)
              && negb (node_in child (frontier c))) eqn:Htest.
    + apply andb_true_iff in Htest as [Hex Hin].
      apply bool_decide_eq_true in Hex.
      apply negb_true_iff, node_in_false in Hin.
      destruct (goal_test problem (state child)) eqn:Hg; [done|].
      injection Hs as <-.
      exists d. split_and!; simpl.
      * done.
      * exists A, (B ++ [child]). split_and!.
        -- by rewrite HAB, app_assoc.
        -- done.
        -- intros n [?| ->%list_elem_of_singleton]%elem_of_app; auto.
      * intros n [?| ->%list_elem_of_singleton]%elem_of_app; [auto|].
        split; [done|]. intros k Hk. rewrite Hdepth.
        destruct (decide (k < d)) as [Hklt|Hklt];
          [by pose proof (Hlt _ _ Hk Hklt)|].
        destruct (decide (k = d)) as [->|Hkd]; [|lia].
        by destruct (Heq _ Hk).
      * intros n Hn. apply Hpe. by right.
      * done.
      * intros s Hs. rewrite map_app, elem_of_app.
        destruct (Heq s Hs); auto.
      * intros s s' Hs Hss. rewrite map_app, elem_of_app. simpl.
        destruct (Hcl _ _ Hs Hss) as [?|[?|[->|?]%elem_of_cons]]; auto.
        right. left. right. left.
      * intros s. rewrite map_app, elem_of_app.
        intros [?|[?| ->%list_elem_of_singleton]]; auto.
    + assert (state child ∈ explored c
              ∨ state child ∈ map state (frontier c)) as Hseen.
      { apply andb_false_iff in Htest as [Hex|Hin].
        - apply bool_decide_eq_false in Hex. left. by apply dec_stable.
        - apply negb_false_iff, node_in_spec in Hin. by right. }
      injection Hs as <-. exists d. split_and!; simpl; try done.
      * by exists A, B.
      * intros n Hn. apply Hpe. by right.
      * intros s s' Hs Hss.
        destruct (Hcl _ _ Hs Hss) as [?|[?|[->|?]%elem_of_cons]]; auto.
        destruct Hseen; auto.
Qed.

Lemma bfs_inv_reachable w0 c :
  Winv w0 → goal_test problem (initial problem) = false →
  reachable (bfs_step problem) (bfs_init problem w0) c →
  ∃ d, bfs_inv problem acts Winv d c.
Proof.
  intros Hw Hgoal. revert c. apply reachable_invariant.
  - exists 0. by apply bfs_init_inv.
  - intros c c' [d Hinv] Hs. by eapply bfs_inv_step.
Qed.

Lemma bfs_inv_exhausted d c :
  bfs_inv problem acts Winv d c → pending c = [] → frontier c = [] →
  ∀ s, reach s → s ∈ explored c.
Proof.
  intros (Hw & _ & Hfr & Hpe & Hlt & Heq & Hcl & Hgoal) Hp HF.
  rewrite HF, Hp in *.
  induction 1 as [|s s' Hs IH Hss].
  - destruct d as [|d].
    + destruct (Heq (initial problem)) as [?|Hnil]; [constructor | done|].
      by apply elem_of_nil in Hnil.
    + apply (Hlt _ 0); [constructor | lia].
  - destruct (Hcl _ _ IH Hss) as [?|[Hnil|Hnil]]; [done | |];
      by apply elem_of_nil in Hnil.
Qed.

(** Whatever the breadth-first loop returns when a goal state is reachable
    is a goal node no deeper than any goal state. *)
Lemma bfs_loop_shallowest w0 fuel r w :
  Winv w0 → goal_test problem (initial problem) = false →
  (∃ s, reach s ∧ goal_test problem s = true) →
  run (bfs_step problem) fuel (bfs_init problem w0) = Some (r, w) →
  ∃ n k, r = NodeAndCount n k ∧ wf_node n
         ∧ goal_test problem (state n) = true
         ∧ ∀ j s, reachN j s → goal_test problem s = true → depth n ≤ j.
Proof.
  intros Hw Hgoal0 (sg & Hsg & Hsg_goal) Hrun.
  apply run_reachable in Hrun as (c & Hc & Hret).
  destruct (bfs_inv_reachable _ _ Hw Hgoal0 Hc) as [d Hinv].
  apply bfs_step_returned in Hret
    as (_ & [(-> & Hp & HF) | (child & rest & -> & Hp & Hg & Hex & Hin)]).
  - pose proof (bfs_inv_exhausted _ _ Hinv Hp HF sg Hsg) as Hin.
    destruct Hinv as (_ & _ & _ & _ & _ & _ & _ & Hgoal).
    rewrite (Hgoal sg) in Hsg_goal; [done | by left].
  - destruct Hinv as (_ & _ & Hfr & Hpe & Hlt & Heq & Hcl & Hgoal).
    destruct (Hpe child) as [Hwf Hdepth]; [rewrite Hp; left|].
    exists child, (size (explored c)). split_and!; [done..|].
    intros j s Hj Hs. rewrite Hdepth.
    destruct (decide (j < d)) as [Hjd|Hjd].
    { rewrite (Hgoal s) in Hs; [done|]. left. by eapply Hlt. }
    destruct (decide (j = d)) as [->|Hjd']; [|lia].
    rewrite (Hgoal s) in Hs; [done|]. by apply Heq.
Qed.

(** On a finite domain with a reachable goal state, breadth-first search
    returns, and what it returns is a goal node no deeper than any goal
    state. *)
Lemma breadth_first_shallowest (U : gset State) w0 :
  Winv w0 → (∀ s, reach s → s ∈ U) →
  (∃ s, reach s ∧ goal_test problem s = true) →
  ∃ fuel0 r w n,
    (∀ fuel, fuel0 ≤ fuel →
             breadth_first_graph_search problem fuel w0 = Some (r, w))
    ∧ result_node r = Some n ∧ wf_node n
    ∧ goal_test problem (state n) = true
    ∧ ∀ j s, reachN j s → goal_test problem s = true → depth n ≤ j.
Proof.
  intros Hw HU Hgoal. unfold breadth_first_graph_search.
  destruct (goal_test problem (state (Node_init (initial problem) None None (Fin 0))))
    eqn:Hg0.
  - exists 0, (NodeOnly (root_node problem)), w0, (root_node problem).
    split_and!; [done | done | constructor | done |].
    intros j s _ _. simpl. lia.
  - destruct (run_terminates _ _ _ Hstable (map state) (bfs_step problem) U
                (bfs_step_shape _) HU (bfs_init problem w0))
      as (fuel0 & r & w & Hrun).
    { apply dfs_init_frontier_inv. }
    { by apply dfs_init_domain_inv. }
    destruct (bfs_loop_shallowest _ _ _ _ Hw Hg0 Hgoal Hrun)
      as (n & k & -> & Hwf & Hgn & Hmin).
    exists fuel0, (NodeAndCount n k), w, n. split_and!; try done.
    intros fuel Hfuel. by eapply run_more_fuel.
Qed.

End BFS_facts.

(** ** Searching a graph *)

Lemma dict_get_no_links (extra : list Z) (a : Z) :
  default [] (dict_get (map (fun k => (k, @nil (Z * Z))) extra) a) = [].
Proof.
  induction extra as [|k extra IH]; simpl; [done|].
  by destruct (decide (a = k)).
Qed.

Lemma edge_weight_links g a b :
  edge_weight g a b = dict_get (default [] (dict_get (graph_dict g) a)) b.
Proof. unfold edge_weight. by destruct (dict_get (graph_dict g) a). Qed.

Lemma graph_grown_refl g : graph_grown g g.
Proof. split_and!; [done..|]. exists []. simpl. by rewrite app_nil_r. Qed.

Lemma graph_grown_links g g' a :
  graph_grown g g' →
  default [] (dict_get (graph_dict g') a)
  = default [] (dict_get (graph_dict g) a).
Proof.
  intros (_ & _ & extra & ->). rewrite dict_get_app.
  destruct (dict_get (graph_dict g) a); [done|]. apply dict_get_no_links.
Qed.

Lemma graph_grown_edge_weight g g' a b :
  graph_grown g g' → edge_weight g' a b = edge_weight g a b.
Proof.
  intros Hg. by rewrite !edge_weight_links, (graph_grown_links _ _ _ Hg).
Qed.

Lemma get_directed_locations g a b :
  directed (get g a b).2 = directed g ∧ locations (get g a b).2 = locations g.
Proof.
  unfold get. destruct (dict_setdefault (graph_dict g) a []) as [links d].
  by destruct b.
Qed.

Lemma get_grown g g' a b : graph_grown g g' → graph_grown g (get g' a b).2.
Proof.
  intros (Hd & Hl & extra & Hdict).
  destruct (get_directed_locations g' a b) as [Hd' Hl'].
  split_and!; [congruence | congruence |].
  rewrite get_graph_dict. unfold dict_setdefault.
  destruct (dict_get (graph_dict g') a).
  - by exists extra.
  - exists (extra ++ [a]). simpl. by rewrite Hdict, map_app, app_assoc.
Qed.

Lemma GraphProblem_actions_value g a :
  (GraphProblem_actions a g).1 = graph_actions g a
  ∧ (GraphProblem_actions a g).2 = (get g a None).2.
Proof.
  unfold GraphProblem_actions, graph_actions.
  pose proof (get_links g a) as Hl.
  destruct (get g a None) as [r g']. simpl in *. by subst r.
Qed.

Lemma GraphProblem_path_cost_store c A act B g :
  (GraphProblem_path_cost c A act B g).2 = (get g A (Some B)).2.
Proof.
  unfold GraphProblem_path_cost.
  destruct (get g A (Some B)) as [[links|d] g']; done.
Qed.

Lemma GraphProblem_stable (g : Graph) (origin : Z) (goal : Goal) :
  stable (GraphProblem origin goal) (graph_grown g) (graph_actions g).
Proof.
  split; simpl.
  - intros s w Hw. destruct (GraphProblem_actions_value w s) as [-> ->].
    split; [|by apply get_grown].
    unfold graph_actions. by rewrite (graph_grown_links _ _ _ Hw).
  - intros c s a s' w Hw. rewrite GraphProblem_path_cost_store.
    by apply get_grown.
Qed.

Lemma GraphProblem_successor g origin goal s s' :
  successor (GraphProblem origin goal) (graph_actions g) s s'
  ↔ graph_edge g s s'.
Proof.
  unfold successor, graph_edge, graph_actions. simpl.
  unfold GraphProblem_result. rewrite edge_weight_links.
  rewrite dict_get_is_Some_keys. split.
  - by intros (a & Ha & ->).
  - intros Hin. by exists s'.
Qed.

Lemma chain_impl {A} (R R' : A → A → Prop) (l : list A) :
  (∀ a b, R a b → R' a b) → chain R l → chain R' l.
Proof.
  intros HR. induction l as [|a l IH]; [done|].
  destruct l as [|b l]; [done|]. intros [Hab Hch]. split; auto.
Qed.

Lemma GraphProblem_is_path g origin goal t l :
  is_path (successor (GraphProblem origin goal) (graph_actions g)) origin t l
  ↔ is_path (graph_edge g) origin t l.
Proof.
  unfold is_path. split; intros (Hh & Hl & Hch); split_and!; try done.
  - eapply chain_impl; [|done]. intros a b. apply GraphProblem_successor.
  - eapply chain_impl; [|done]. intros a b. apply GraphProblem_successor.
Qed.

Lemma graph_edge_nodes g a b : graph_edge g a b → b ∈ nodes g.
Proof.
  unfold graph_edge, nodes, edge_weight. intros Hedge.
  apply elem_of_remove_dups, elem_of_app. right.
  destruct (dict_get (graph_dict g) a) as [links|] eqn:Ha;
    [|by destruct Hedge].
  apply dict_get_is_Some_keys in Hedge.
  apply dict_get_Some_elem_of in Ha.
  apply list_elem_of_In, in_concat. exists (dict_keys links). split.
  - apply in_map_iff. exists (a, links). split; [done|].
    by apply list_elem_of_In.
  - by apply list_elem_of_In.
Qed.

Lemma GraphProblem_reach_nodes g origin goal s :
  reach (GraphProblem origin goal) (graph_actions g) s →
  s ∈ (list_to_set (origin :: nodes g) : gset Z).
Proof.
  intros Hs. apply elem_of_list_to_set.
  induction Hs as [|s s' _ _ Hss]; [left|]. right.
  apply GraphProblem_successor in Hss. by eapply graph_edge_nodes.
Qed.

(** With unit weights the path cost of a node is its depth. *)
Lemma unit_weights_path_cost g origin goal n :
  (∀ a b w, edge_weight g a b = Some w → w = 1%Z) →
  wf_node (GraphProblem origin goal) (graph_actions g) (graph_grown g) n →
  path_cost n = Fin (Z.of_nat (depth n)).
Proof.
  intros Hunit. induction 1 as [|n a w Hn IH Ha Hw]; [done|].
  destruct (child_node_fields n (GraphProblem origin goal) a w)
    as (Hst & _ & _ & Hd & Hpc).
  rewrite Hpc, Hd. simpl. rewrite GraphProblem_path_cost_value.
  rewrite Hst. simpl. unfold GraphProblem_result.
  rewrite (graph_grown_edge_weight _ _ _ _ Hw).
  assert (graph_edge g (state n) a) as [wt Hwt].
  { apply (GraphProblem_successor g origin goal). by exists a. }
  rewrite Hwt, (Hunit _ _ _ Hwt), IH. simpl. f_equal. lia.
Qed.

(** C1.  On a graph whose edges all have weight 1, with a path from the
    origin to the goal, [breadth_first_graph_search] returns (for every
    sufficient fuel, the same result) a node for the goal whose [path] is a
    path of the graph from the origin to the goal with the fewest edges
    among all such paths; its path cost is that number of edges. *)
Theorem bfs_shortest_path (g : Graph) (origin goal : Z) :
  (∀ a b w, edge_weight g a b = Some w → w = 1%Z) →
  (∃ l, is_path (graph_edge g) origin goal l) →
  ∃ fuel0 r g' n,
    (∀ fuel, fuel0 ≤ fuel →
       breadth_first_graph_search (GraphProblem origin (GoalState goal)) fuel g
       = Some (r, g'))
    ∧ result_node r = Some n
    ∧ state n = goal
    ∧ is_path (graph_edge g) origin goal (map state (path n))
    ∧ path_cost n = Fin (Z.of_nat (length (path n) - 1))
    ∧ ∀ l, is_path (graph_edge g) origin goal l →
           length (path n) ≤ length l.
Proof.
  intros Hunit [l0 Hl0].
  set (p := GraphProblem origin (GoalState goal)).
  pose proof (GraphProblem_stable g origin (GoalState goal)) as Hstable.
  assert (∀ l, is_path (graph_edge g) origin goal l →
               reachN p (graph_actions g) (length l - 1) goal) as Hreach.
  { intros l Hl. apply (path_reachN p).
    by apply (GraphProblem_is_path g origin (GoalState goal)). }
  destruct (breadth_first_shallowest p (graph_grown g) (graph_actions g)
              Hstable (list_to_set (origin :: nodes g)) g)
    as (fuel0 & r & g' & n & Hrun & Hn & Hwf & Hgoal & Hmin).
  { apply graph_grown_refl. }
  { intros s. apply GraphProblem_reach_nodes. }
  { exists goal. split; [|by apply bool_decide_eq_true].
    apply (reach_reachN p). eauto. }
  apply bool_decide_eq_true in Hgoal.
  destruct (wf_node_path p (graph_grown g) (graph_actions g) n Hwf)
    as [Hpath Hlen].
  exists fuel0, r, g', n. split_and!; try done.
  - rewrite <- Hgoal.
    by apply (GraphProblem_is_path g origin (GoalState goal)).
  - rewrite (unit_weights_path_cost g origin (GoalState goal) n Hunit Hwf).
    f_equal. lia.
  - intros l Hl. pose proof (Hmin _ _ (Hreach l Hl)) as Hle.
    destruct Hl as (Hh & _ & _). destruct l; [done|]. simpl in *.
    rewrite Hlen. specialize (Hle ltac:(by apply bool_decide_eq_true)). lia.
Qed.

Lemma bfs_shortest_path_witness :
  let g := mkGraph [(1, [(2, 1); (3, 1)]); (2, [(4, 1)]); (3, [(4, 1)])]%Z
                   true None in
  ∃ fuel0 r g' n,
    (∀ fuel, fuel0 ≤ fuel →
       breadth_first_graph_search (GraphProblem 1%Z (GoalState 4%Z)) fuel g
       = Some (r, g'))
    ∧ result_node r = Some n
    ∧ state n = 4%Z
    ∧ is_path (graph_edge g) 1%Z 4%Z (map state (path n))
    ∧ path_cost n = Fin (Z.of_nat (length (path n) - 1))
    ∧ ∀ l, is_path (graph_edge g) 1%Z 4%Z l → length (path n) ≤ length l.
Proof.
  intros g. apply (bfs_shortest_path g 1%Z 4%Z).
  - intros a b w. unfold edge_weight. simpl.
    repeat (case_decide; simpl); congruence.
  - exists [1; 2; 4]%Z. split_and!; [done | done |].
    simpl. split_and!; [by eexists | by eexists | done].
Defined.

(** C4, where the initial state is the goal.  [depth_first_graph_search]
    and [best_first_graph_search] return the pair of the root node and the
    count 0; [breadth_first_graph_search] returns the root node alone. *)
Theorem bfs_initial_goal_returns_bare_node (f : @Node Z Z → cost) (fuel : nat) :
  let g := mkGraph [(1, [(2, 1)])]%Z true None in
  let p := GraphProblem 1%Z (GoalState 1%Z) in
  goal_test p (initial p) = true
  ∧ breadth_first_graph_search p fuel g = Some (NodeOnly (root_node p), g)
  ∧ depth_first_graph_search p (S fuel) g
    = Some (NodeAndCount (root_node p) 0, g)
  ∧ best_first_graph_search Z.ltb p f (S fuel) g
    = Some (NodeAndCount (root_node p) 0, g).
Proof. done. Qed.

(** C8 (as amended).  A search over a graph leaves [locations] and every
    edge weight as they were; the adjacency dictionary it leaves is the
    original one followed by keys with empty links. *)
Theorem search_keeps_edges_and_locations (state_ltb : Z → Z → bool)
    (origin : Z) (goal : Goal) (f : @Node Z Z → cost) (g : Graph)
    (fuel : nat) (r : search_result) (g' : Graph) :
  depth_first_graph_search (GraphProblem origin goal) fuel g = Some (r, g')
  ∨ breadth_first_graph_search (GraphProblem origin goal) fuel g = Some (r, g')
  ∨ best_first_graph_search state_ltb (GraphProblem origin goal) f fuel g
    = Some (r, g') →
  locations g' = locations g
  ∧ (∀ a b, edge_weight g' a b = edge_weight g a b)
  ∧ ∃ extra : list Z,
      graph_dict g' = graph_dict g ++ map (fun k => (k, [])) extra.
Proof.
  intros Hrun.
  set (p := GraphProblem origin goal).
  pose proof (GraphProblem_stable g origin goal) as Hstable.
  assert (graph_grown g g') as Hgrown.
  { destruct Hrun as [Hrun | [Hrun | Hrun]].
    - apply run_reachable in Hrun as (c & Hc & Hret).
      apply dfs_step_returned in Hret as (-> & _).
      eapply (domain_inv_reachable p _ _ Hstable (map state)) in Hc as [Hw _];
        [done | apply dfs_step_shape|].
      apply dfs_init_domain_inv, graph_grown_refl.
    - unfold breadth_first_graph_search in Hrun.
      destruct (goal_test _ _).
      { injection Hrun as _ <-. apply graph_grown_refl. }
      apply run_reachable in Hrun as (c & Hc & Hret).
      apply bfs_step_returned in Hret as (-> & _).
      eapply (domain_inv_reachable p _ _ Hstable (map state)) in Hc as [Hw _];
        [done | apply bfs_step_shape|].
      apply dfs_init_domain_inv, graph_grown_refl.
    - apply run_reachable in Hrun as (c & Hc & Hret).
      apply bf_step_returned in Hret as (-> & _).
      eapply (domain_inv_reachable p _ _ Hstable pq_states) in Hc as [Hw _];
        [done | apply bf_step_shape|].
      apply bf_init_domain_inv, graph_grown_refl. }
  split_and!.
  - by destruct Hgrown as (_ & ? & _).
  - intros a b. by apply graph_grown_edge_weight.
  - by destruct Hgrown as (_ & _ & ?).
Qed.

Lemma search_keeps_edges_and_locations_witness :
  let g := mkGraph [(1, [(2, 1)])]%Z true (Some [(1, [0; 0]); (2, [3; 4])]%Z) in
  ∃ r g',
    breadth_first_graph_search (GraphProblem 1%Z (GoalState 9%Z)) 10 g
    = Some (r, g')
    ∧ locations g' = locations g
    ∧ (∀ a b, edge_weight g' a b = edge_weight g a b)
    ∧ ∃ extra : list Z,
        graph_dict g' = graph_dict g ++ map (fun k => (k, [])) extra.
Proof.
  intros g.
  destruct (breadth_first_graph_search (GraphProblem 1%Z (GoalState 9%Z)) 10 g)
    as [[r g']|] eqn:Hrun; [|by vm_compute in Hrun].
  exists r, g'. split; [done|].
  apply (search_keeps_edges_and_locations Z.ltb 1%Z (GoalState 9%Z)
           (fun _ => Inf) g 10 r g').
  right. left. exact Hrun.
Defined.

(** C8, where it fails: searching the graph [1 -> 2] for the unreachable
    goal [9] expands node [2], and [get(2)] inserts the key [2]: the
    adjacency dictionary after the search differs from the one before. *)
Lemma search_adds_keys_to_graph :
  let g := mkGraph [(1, [(2, 1)])]%Z true None in
  ∃ r g',
    breadth_first_graph_search (GraphProblem 1%Z (GoalState 9%Z)) 10 g
    = Some (r, g')
    ∧ graph_dict g' = [(1, [(2, 1)]); (2, [])]%Z
    ∧ graph_dict g' ≠ graph_dict g.
Proof.
  intros g. eexists _, _. split; [vm_compute; reflexivity|]. by split.
Qed.

Lemma node_tree_construction_witness :
  let g := mkGraph [(1, [(2, 4); (3, 5)]); (2, [(3, 1)])]%Z true None in
  let p := GraphProblem 1%Z (GoalState 3%Z) in
  let n := (child_node (root_node p) p 2%Z g).1 in
  map state (expand n p g).1 = [3%Z]
  ∧ map path_cost (expand n p g).1 = [Fin 5]
  ∧ map state (path n) = [1; 2]%Z
  ∧ solution n = [Some 2%Z].
Proof.
  intros g p n.
  destruct (node_tree_construction p n g) as (_ & _ & Hpath & _ & _ & _ & Hsol & _).
  { apply built_child. apply built_root. }
  rewrite Hsol, Hpath. by vm_compute.
Defined.

Lemma best_first_child_handling_witness :
  let g := mkGraph [(1, [(2, 4); (3, 5)]); (2, [(3, 1)])]%Z true None in
  let p := GraphProblem 1%Z (GoalState 3%Z) in
  let f := fun n : @Node Z Z => path_cost n in
  ∃ c child rest,
    reachable (bf_step Z.ltb p f) (bf_init p f g) c
    ∧ pending c = child :: rest
    ∧ state child = 3%Z
    ∧ bf_step Z.ltb p f c
      = Running (Config (pq_append f (frontier c) child) (explored c) rest
                        (world c)).
Proof.
  intros g p f.
  assert (∃ c1, bf_step Z.ltb p f (bf_init p f g) = Running c1
                ∧ ∃ c2, bf_step Z.ltb p f c1 = Running c2
                ∧ ∃ child rest, pending c2 = child :: rest
                                ∧ state child = 3%Z
                                ∧ (state child ∉ explored c2)
                                ∧ (state child ∉ pq_states (frontier c2)))
    as (c1 & Hs1 & c2 & Hs2 & child & rest & Hp & Hst & Hex & Hfr).
  { eexists. split; [vm_compute; reflexivity|].
    eexists. split; [vm_compute; reflexivity|].
    eexists _, _. split; [vm_compute; reflexivity|].
    split; [done|]. split.
    - apply (bool_decide_unpack _). by vm_compute.
    - apply (bool_decide_unpack _). by vm_compute. }
  assert (reachable (bf_step Z.ltb p f) (bf_init p f g) c2) as Hreach.
  { eapply reachable_step; [|exact Hs2].
    eapply reachable_step; [apply reachable_init | exact Hs1]. }
  exists c2, child, rest. split_and!; [done..|].
  by apply (proj1 (best_first_child_handling Z.ltb p f g c2 child rest
                     Hreach Hp)).
Defined.

Lemma frontier_distinct_explored_bounded_witness :
  let g := mkGraph [(1, [(2, 1)]); (2, [(1, 1)])]%Z true None in
  let p := GraphProblem 1%Z (GoalState 9%Z) in
  depth_first_graph_search p 10 g
  = Some (CountOnly 2, mkGraph [(1, [(2, 1)]); (2, [(1, 1)])]%Z true None)
  ∧ 2 ≤ size (list_to_set (1 :: nodes g)%Z : gset Z).
Proof.
  intros g p.
  assert (depth_first_graph_search p 10 g
          = Some (CountOnly 2, mkGraph [(1, [(2, 1)]); (2, [(1, 1)])]%Z true None))
    as Hrun by (by vm_compute).
  split; [done|].
  apply (proj2 (proj2 (proj2 (frontier_distinct_explored_bounded
                                Z.ltb p (fun _ => Inf) g)))
           (graph_grown g) (graph_actions g)
           (list_to_set (1 :: nodes g)%Z) 10 (CountOnly 2)
           (mkGraph [(1, [(2, 1)]); (2, [(1, 1)])]%Z true None) 2).
  - apply GraphProblem_stable.
  - apply graph_grown_refl.
  - intros s. apply GraphProblem_reach_nodes.
  - by left.
  - done.
Defined.

(** ** The loader *)

Section fold_dict.
Context {K V : Type} `{EqDecision K}.
Implicit Types (d : dict K V) (l : list (K * V)).

Lemma assign_all_snoc d l kv :
  assign_all d (l ++ [kv]) = dict_set (assign_all d l) kv.1 kv.2.
Proof. unfold assign_all. by rewrite fold_left_app. Qed.

Lemma setdefault_all_snoc d l kv :
  setdefault_all d (l ++ [kv])
  = (dict_setdefault (setdefault_all d l) kv.1 kv.2).2.
Proof. unfold setdefault_all. by rewrite fold_left_app. Qed.

Lemma dict_get_set d k v k' :
  dict_get (dict_set d k v) k'
  = if decide (k' = k) then Some v else dict_get d k'.
Proof.
  case_decide as Hk.
  - subst. apply dict_get_set_eq.
  - by apply dict_get_set_ne.
Qed.

Lemma assign_all_get l k v :
  consistent l → dict_get (assign_all [] l) k = Some v ↔ (k, v) ∈ l.
Proof.
  induction l as [|[k' v'] l IH] using rev_ind; intros Hc.
  - simpl. split; [done | by intros ?%elem_of_nil].
  - rewrite assign_all_snoc, dict_get_set. simpl.
    assert (consistent l) as Hc'.
    { intros k0 v0 v0' H1 H2. apply (Hc k0); apply elem_of_app; by left. }
    rewrite elem_of_app, list_elem_of_singleton. case_decide as Hk.
    + subst k'. split.
      * intros [= ->]. by right.
      * intros Hin. f_equal.
        apply (Hc k); apply elem_of_app;
          [right; by apply list_elem_of_singleton|].
        destruct Hin as [?|[= ->]];
          [by left | right; by apply list_elem_of_singleton].
    + rewrite (IH Hc'). split; [by left|]. intros [?|[= ? ?]]; [done|].
      congruence.
Qed.

Lemma setdefault_all_get l :
  consistent l →
  ∀ k v, dict_get (setdefault_all [] l) k = Some v ↔ (k, v) ∈ l.
Proof.
  induction l as [|[k' v'] l IH] using rev_ind; intros Hc k v.
  - simpl. split; [done | by intros ?%elem_of_nil].
  - rewrite setdefault_all_snoc, dict_setdefault_get. simpl.
    assert (consistent l) as Hc'.
    { intros k0 v0 v0' H1 H2. apply (Hc k0); apply elem_of_app; by left. }
    specialize (IH Hc').
    rewrite elem_of_app, list_elem_of_singleton.
    destruct (dict_get (setdefault_all [] l) k) as [x|] eqn:Hget.
    + assert ((k, x) ∈ l) as Hx by (by apply IH).
      split.
      * intros [= ->]. by left.
      * intros Hin. f_equal. apply (Hc k).
        -- apply elem_of_app. by left.
        -- apply elem_of_app. destruct Hin as [?|[= -> ->]];
             [by left | right; by apply list_elem_of_singleton].
    + case_decide as Hk.
      * subst k'. split.
        -- intros [= ->]. by right.
        -- intros [Hin|[= ->]]; [|done].
           apply IH in Hin. congruence.
      * split; [done|]. intros [Hin|[= ? ?]]; [|done].
        apply IH in Hin. congruence.
Qed.

Lemma setdefault_all_NoDup l : NoDup (dict_keys (setdefault_all [] l)).
Proof.
  induction l as [|[k' v'] l IH] using rev_ind; [constructor|].
  rewrite setdefault_all_snoc. unfold dict_setdefault. simpl.
  destruct (dict_get (setdefault_all [] l) k') eqn:Hget; [done|]. simpl.
  unfold dict_keys. rewrite map_app. simpl.
  apply NoDup_app. split_and!; [done | | apply NoDup_singleton].
  intros x Hx ->%list_elem_of_singleton.
  by apply dict_get_None_keys in Hget.
Qed.

Lemma assign_all_keys l k :
  k ∈ dict_keys (assign_all [] l) ↔ k ∈ map fst l.
Proof.
  rewrite <- dict_get_is_Some_keys.
  induction l as [|[k' v'] l IH] using rev_ind.
  - simpl. split; [by intros [? ?] | by intros ?%elem_of_nil].
  - rewrite assign_all_snoc, dict_get_set, map_app, elem_of_app. simpl.
    rewrite list_elem_of_singleton. case_decide; [|tauto].
    split; [by right | by eauto].
Qed.

End fold_dict.

Lemma connect1_edge_weight g A B w a b :
  edge_weight (connect1 g A B w) a b
  = if decide (a = A ∧ b = B) then Some w else edge_weight g a b.
Proof.
  unfold connect1.
  pose proof (dict_setdefault_value (graph_dict g) A []) as Hlinks.
  pose proof (dict_setdefault_get (graph_dict g) A [] a) as Hd.
  destruct (dict_setdefault (graph_dict g) A []) as [links d].
  simpl in Hlinks, Hd. subst links.
  rewrite !edge_weight_links. simpl. rewrite dict_get_set.
  destruct (decide (a = A)) as [->|Hne].
  - simpl. rewrite dict_get_set.
    destruct (decide (b = B)) as [->|Hne].
    + by rewrite decide_True.
    + rewrite decide_False; [done | by intros [_ ?]].
  - rewrite decide_False by (by intros [? _]). rewrite Hd.
    by destruct (dict_get (graph_dict g) a).
Qed.

Lemma connect_node_edge_weight (edges : dict (Z * Z) Z) (node : Z) :
  NoDup (dict_keys edges) → ∀ g a b,
  edge_weight
    (fold_left (fun g e =>
                  if bool_decide (e.1.1 = node)
                  then connect1 g e.1.1 e.1.2 e.2 else g) edges g) a b
  = if decide (a = node)
    then match dict_get edges (a, b) with
         | Some w => Some w
         | None => edge_weight g a b
         end
    else edge_weight g a b.
Proof.
  induction edges as [|[[n1 n2] w] edges IH]; intros Hnd g a b; simpl.
  - by case_decide.
  - apply NoDup_cons in Hnd as [Hnin Hnd]. rewrite (IH Hnd).
    apply dict_get_None_keys in Hnin. simpl in Hnin.
    case_bool_decide as Hn1; simpl in Hn1.
    + subst n1. destruct (decide (a = node)) as [->|Hne].
      * rewrite connect1_edge_weight.
        destruct (decide ((node, b) = (node, n2))) as [[= ->]|Hne].
        -- by rewrite Hnin, decide_True.
        -- rewrite decide_False; [done|]. intros [_ ->]. done.
      * rewrite connect1_edge_weight.
        rewrite decide_False; [done | by intros [? _]].
    + destruct (decide (a = node)) as [->|Hne]; [|done].
      rewrite decide_False; [done|]. congruence.
Qed.

Lemma connect_edges_edge_weight nodes edges g a b :
  NoDup (dict_keys edges) →
  edge_weight (connect_edges nodes edges g) a b
  = if decide (a ∈ dict_keys nodes)
    then match dict_get edges (a, b) with
         | Some w => Some w
         | None => edge_weight g a b
         end
    else edge_weight g a b.
Proof.
  intros Hnd. unfold connect_edges. generalize (dict_keys nodes) as ks.
  intros ks. revert g. induction ks as [|k ks IH]; intros g; cbn [fold_left].
  - case_decide as Hin; [by apply elem_of_nil in Hin | done].
  - rewrite IH, (connect_node_edge_weight _ _ Hnd).
    destruct (decide (a = k)) as [->|Hne].
    + rewrite (decide_True (P := k ∈ k :: ks)) by left.
      case_decide; by destruct (dict_get edges (k, b)).
    + destruct (decide (a ∈ ks)) as [Hin|Hnin].
      * rewrite decide_True; [done | by right].
      * rewrite decide_False; [done|]. by intros [?|?]%elem_of_cons.
Qed.

Lemma section_lines_cons sec raw r :
  section_lines sec (raw :: r)
  = section_lines sec [raw] ++ section_lines (next_section sec raw) r.
Proof.
  unfold next_section. simpl.
  destruct (line_header (strip (list_ascii_of_string raw))); [done|].
  destruct (strip (list_ascii_of_string raw)); [done|].
  by destruct sec.
Qed.

Lemma load_line_section st raw st' :
  load_line st raw = Ok st' →
  ld_section st' = next_section (ld_section st) raw.
Proof.
  unfold load_line, next_section. unfold line_header.
  set (line := strip (list_ascii_of_string raw)).
  destruct (bool_decide (line = _)); [by intros [= <-]|].
  destruct (bool_decide (line = _)); [by intros [= <-]|].
  destruct (bool_decide (line = _)); [by intros [= <-]|].
  destruct (bool_decide (line = _)); [by intros [= <-]|].
  destruct line as [|ch line'] eqn:Hline; [by intros [= <-]|].
  rewrite <- Hline. clear Hline.
  destruct (ld_section st) as [[]|] eqn:Hsec; simpl.
  - destruct (parse_node_line line) as [[node coords]|e]; [|done].
    by intros [= <-].
  - destruct (parse_edge_line line) as [[ends c]|e]; [|done].
    by intros [= <-].
  - destruct (int line) as [o|e]; [|done]. by intros [= <-].
  - destruct (res_mapM int (split ";" line)) as [ds|e]; [|done].
    by intros [= <-].
  - by intros [= <-].
Qed.

Lemma load_lines_app st l1 l2 :
  load_lines st (l1 ++ l2) = (st1 ← load_lines st l1; load_lines st1 l2).
Proof.
  revert st. induction l1 as [|raw l1 IH]; intros st; [done|].
  simpl. destruct (load_line st raw) as [st1|e]; [|done]. simpl. apply IH.
Qed.

Lemma load_line_blank st raw :
  strip (list_ascii_of_string raw) = [] → load_line st raw = Ok st.
Proof. unfold load_line. by intros ->. Qed.

Lemma load_line_content st raw :
  line_header (strip (list_ascii_of_string raw)) = None →
  load_line st raw
  = let line := strip (list_ascii_of_string raw) in
    match line with
    | [] => Ok st
    | _ =>
        match ld_section st with
        | Some SecNodes =>
            '(node, coords) ← parse_node_line line;
            Ok (mkLoader (ld_section st) (dict_set (ld_nodes st) node coords)
                         (ld_edges st) (ld_origin st) (ld_destinations st))
        | Some SecEdges =>
            '(ends, c) ← parse_edge_line line;
            Ok (mkLoader (ld_section st) (ld_nodes st)
                         (dict_setdefault (ld_edges st) ends c).2
                         (ld_origin st) (ld_destinations st))
        | Some SecOrigin =>
            o ← int line;
            Ok (mkLoader (ld_section st) (ld_nodes st) (ld_edges st) (Some o)
                         (ld_destinations st))
        | Some SecDestinations =>
            ds ← res_mapM int (split ";"%char line);
            Ok (mkLoader (ld_section st) (ld_nodes st) (ld_edges st)
                         (ld_origin st) ds)
        | None => Ok st
        end
    end.
Proof.
  unfold load_line, line_header.
  set (line := strip (list_ascii_of_string raw)).
  repeat (destruct (bool_decide (line = _)); [done|]). done.
Qed.

Lemma load_line_no_section st raw :
  ld_section st = None →
  line_header (strip (list_ascii_of_string raw)) = None →
  load_line st raw = Ok st.
Proof.
  intros Hsec Hhead. rewrite (load_line_content _ _ Hhead). simpl.
  rewrite Hsec. by destruct (strip _).
Qed.

Lemma split_no_separator sep (s : list ascii) : sep ∉ s → split sep s = [s].
Proof.
  induction s as [|c s IH]; [done|]. intros Hnin.
  apply not_elem_of_cons in Hnin as [Hne Hnin]. simpl.
  rewrite bool_decide_false by done. by rewrite (IH Hnin).
Qed.

Lemma assign_all_app {K V} `{EqDecision K} (d : dict K V) l1 l2 :
  assign_all d (l1 ++ l2) = assign_all (assign_all d l1) l2.
Proof. unfold assign_all. by rewrite fold_left_app. Qed.

Lemma setdefault_all_app {K V} `{EqDecision K} (d : dict K V) l1 l2 :
  setdefault_all d (l1 ++ l2) = setdefault_all (setdefault_all d l1) l2.
Proof. unfold setdefault_all. by rewrite fold_left_app. Qed.

Lemma consistent_NoDup_keys {K V} (l : list (K * V)) :
  NoDup (map fst l) → consistent l.
Proof.
  induction l as [|[k0 v0] l IH]; intros Hnd k v v' H1 H2.
  - by apply elem_of_nil in H1.
  - simpl in Hnd. apply NoDup_cons in Hnd as [Hnin Hnd].
    assert (∀ x, (k0, x) ∈ l → False) as Hno.
    { intros x Hx. apply Hnin. apply list_elem_of_fmap. by exists (k0, x). }
    apply elem_of_cons in H1 as [Heq1|H1];
      apply elem_of_cons in H2 as [Heq2|H2]; simplify_eq;
      [done | by destruct (Hno _ H2) | by destruct (Hno _ H1) | by eapply IH].
Qed.

Lemma connect1_directed g A B w : directed (connect1 g A B w) = directed g.
Proof. unfold connect1. by destruct (dict_setdefault _ _ _). Qed.

Lemma connect_edges_directed nodes edges g :
  directed (connect_edges nodes edges g) = directed g.
Proof.
  unfold connect_edges. generalize (dict_keys nodes) as ks. intros ks.
  revert g. induction ks as [|k ks IH]; intros g; [done|].
  cbn [fold_left]. rewrite IH. clear IH.
  revert g. induction edges as [|e es IHes]; intros g; [done|].
  cbn [fold_left]. rewrite IHes.
  case_bool_decide; [apply connect1_directed | done].
Qed.

(** ** Text: [strip], [split] and numerals *)

Lemma rev_reverse {A} (l : list A) : rev l = reverse l.
Proof. by rewrite rev_alt. Qed.

Lemma lstrip_dropped drop (pre s : list ascii) :
  Forall (fun c => drop c = true) pre → lstrip drop (pre ++ s) = lstrip drop s.
Proof. induction 1 as [|c pre Hc _ IH]; simpl; [done|]. by rewrite Hc. Qed.

Lemma lstrip_kept drop (s : list ascii) :
  (∀ c, head s = Some c → drop c = false) → lstrip drop s = s.
Proof. destruct s as [|c r]; simpl; [done|]. intros Hc. by rewrite (Hc c). Qed.

(** [strip] removes what can be dropped on both sides of a text that starts
    and ends with characters to keep. *)
Lemma strip_by_core drop (pre mid post : list ascii) :
  Forall (fun c => drop c = true) pre →
  Forall (fun c => drop c = true) post →
  (∀ c, head mid = Some c → drop c = false) →
  (∀ c, last mid = Some c → drop c = false) →
  mid ≠ [] →
  strip_by drop (pre ++ mid ++ post) = mid.
Proof.
  intros Hpre Hpost Hhead Hlast Hne. unfold strip_by.
  rewrite (lstrip_dropped _ _ _ Hpre), (lstrip_kept drop (mid ++ post)).
  2:{ intros c. rewrite head_app. destruct mid; [done|]. simpl. apply Hhead. }
  rewrite !rev_reverse, reverse_app.
  rewrite lstrip_dropped by (by apply Forall_reverse).
  rewrite lstrip_kept, reverse_involutive; [done|].
  intros c. rewrite head_reverse. apply Hlast.
Qed.

Lemma strip_by_kept drop (s : list ascii) :
  (∀ c, head s = Some c → drop c = false) →
  (∀ c, last s = Some c → drop c = false) →
  strip_by drop s = s.
Proof.
  intros Hhead Hlast. destruct (decide (s = [])) as [->|Hne]; [done|].
  pose proof (strip_by_core drop [] s [] (Forall_nil_2 _) (Forall_nil_2 _)
                Hhead Hlast Hne) as Hs.
  simpl in Hs. by rewrite app_nil_r in Hs.
Qed.

Lemma split_app sep (a b : list ascii) :
  (sep ∉ a) → split sep (a ++ sep :: b) = a :: split sep b.
Proof.
  induction a as [|c a IH]; intros Hnin; simpl.
  - by rewrite bool_decide_true.
  - apply not_elem_of_cons in Hnin as [Hne Hnin].
    rewrite bool_decide_false by done. by rewrite (IH Hnin).
Qed.

(** *** Numerals *)

Local Abbreviation uint_chars d :=
  (list_ascii_of_string (DecimalString.NilEmpty.string_of_uint d)).

(** The characters of a numeral: digits, and the sign. *)
Lemma numeral_char_kept (c : ascii) :
  is_digit c = true ∨ c = "-"%char →
  is_space c = false ∧ is_c_space c = false
  ∧ (c ∉ [" "; "("; ")"; ":"; ","; ";"; "N"; "E"; "O"; "D"]%char).
Proof.
  intros [Hc| ->].
  - destruct c as [[] [] [] [] [] [] [] []]; try discriminate Hc;
      (split_and!; [reflexivity | reflexivity
                    | apply (bool_decide_unpack _); vm_compute; exact I]).
  - split_and!; [reflexivity | reflexivity
                 | apply (bool_decide_unpack _); vm_compute; exact I].
Qed.

Lemma uint_chars_digits d : Forall (fun c => is_digit c = true) (uint_chars d).
Proof. induction d; simpl; by constructor. Qed.

Lemma uint_chars_length d :
  length (List.filter is_digit (uint_chars d)) = Decimal.nb_digits d.
Proof. induction d; simpl; [done|..]; by f_equal. Qed.

Lemma uint_chars_nonempty d : d ≠ Decimal.Nil → uint_chars d ≠ [].
Proof. by destruct d. Qed.

Lemma numeral_unfold z :
  ∃ d, d ≠ Decimal.Nil ∧ d = Decimal.abs (Z.to_int z)
       ∧ ((0 ≤ z)%Z ∧ numeral z = uint_chars d ∧ Z.of_uint d = z
          ∨ (z < 0)%Z ∧ numeral z = "-"%char :: uint_chars d
            ∧ Z.of_uint d = (- z)%Z).
Proof.
  pose proof (DecimalZ.of_to z) as Hz. unfold numeral.
  destruct z as [|p|p]; simpl in *.
  - exists (Decimal.D0 Decimal.Nil). split_and!; [done | done |]. left. by split.
  - exists (Pos.to_uint p).
    split_and!; [apply DecimalPos.Unsigned.to_uint_nonnil | done |].
    left. split_and!; [lia | done | done].
  - exists (Pos.to_uint p).
    split_and!; [apply DecimalPos.Unsigned.to_uint_nonnil | done |].
    right. split_and!; [lia | done | lia].
Qed.

Lemma numeral_chars z :
  Forall (fun c => is_digit c = true ∨ c = "-"%char) (numeral z).
Proof.
  destruct (numeral_unfold z) as (d & _ & _ & [(_ & -> & _)|(_ & -> & _)]).
  - eapply Forall_impl; [apply uint_chars_digits|]. by left.
  - constructor; [by right|].
    eapply Forall_impl; [apply uint_chars_digits|]. by left.
Qed.

Lemma numeral_nonempty z : numeral z ≠ [].
Proof.
  destruct (numeral_unfold z) as (d & Hd & _ & [(_ & -> & _)|(_ & -> & _)]);
    [by apply uint_chars_nonempty | done].
Qed.

Lemma numeral_head z c :
  head (numeral z) = Some c → is_digit c = true ∨ c = "-"%char.
Proof.
  pose proof (numeral_chars z) as Hall. destruct (numeral z); [done|].
  intros [= <-]. by apply Forall_cons in Hall as [? _].
Qed.

Lemma numeral_last z c :
  last (numeral z) = Some c → is_digit c = true ∨ c = "-"%char.
Proof.
  pose proof (numeral_chars z) as Hall. intros Hl.
  rewrite Forall_forall in Hall. apply Hall.
  by apply last_Some_elem_of.
Qed.

Lemma numeral_not_elem z c :
  c ∈ [" "; "("; ")"; ":"; ","; ";"]%char → c ∉ numeral z.
Proof.
  intros Hc Hin. pose proof (numeral_chars z) as Hall.
  rewrite Forall_forall in Hall.
  destruct (numeral_char_kept c (Hall c Hin)) as (_ & _ & Hn).
  apply Hn.
  repeat (apply elem_of_cons in Hc as [->|Hc];
          [apply (bool_decide_unpack _); by vm_compute|]).
  by apply elem_of_nil in Hc.
Qed.

Lemma parse_digits_digit acc b c k r :
  digit_of c = Some k →
  parse_digits acc b (c :: r) = parse_digits (10 * acc + k)%Z true r.
Proof. intros Hc. simpl. by rewrite Hc. Qed.

Lemma parse_digits_acc d (acc : positive) :
  parse_digits (Z.pos acc) true (uint_chars d)
  = Some (Z.pos (Pos.of_uint_acc d acc)).
Proof.
  revert acc. induction d; intros acc; [done|..];
    cbn [DecimalString.NilEmpty.string_of_uint list_ascii_of_string
         Pos.of_uint_acc];
    erewrite parse_digits_digit by reflexivity;
    rewrite <- IHd; f_equal;
    try (match goal with
         | |- context [Z.of_nat ?n] =>
             let v := eval vm_compute in (Z.of_nat n) in
             change (Z.of_nat n) with v
         end; lia).
Qed.

Lemma parse_digits_zero d :
  parse_digits 0 true (uint_chars d) = Some (Z.of_uint d).
Proof.
  induction d; [done|..];
    cbn [DecimalString.NilEmpty.string_of_uint list_ascii_of_string];
    erewrite parse_digits_digit by reflexivity;
    match goal with
    | |- parse_digits ?a _ _ = _ =>
        let v := eval vm_compute in a in change a with v
    end;
    first [exact IHd | exact (parse_digits_acc d _)].
Qed.

Lemma parse_digits_uint d :
  d ≠ Decimal.Nil → parse_digits 0 false (uint_chars d) = Some (Z.of_uint d).
Proof.
  destruct d; [done|..]; intros _;
    cbn [DecimalString.NilEmpty.string_of_uint list_ascii_of_string];
    erewrite parse_digits_digit by reflexivity;
    match goal with
    | |- parse_digits ?a _ _ = _ =>
        let v := eval vm_compute in a in change a with v
    end;
    first [exact (parse_digits_zero d) | exact (parse_digits_acc d _)].
Qed.

Lemma int_digits_uint d sign :
  d ≠ Decimal.Nil →
  (Z.of_nat (Decimal.nb_digits d) ≤ max_str_digits)%Z →
  int_digits (uint_chars d) sign = Ok (sign * Z.of_uint d)%Z.
Proof.
  intros Hd Hfit. unfold int_digits.
  rewrite (parse_digits_uint d Hd), uint_chars_length.
  by rewrite (proj2 (Z.ltb_ge _ _) Hfit).
Qed.

Lemma int_sign_digit c r :
  is_digit c = true →
  match c :: r with
  | "-"%char :: r' => int_digits r' (-1)%Z
  | "+"%char :: r' => int_digits r' 1%Z
  | l => int_digits l 1%Z
  end = int_digits (c :: r) 1%Z.
Proof. destruct c as [[] [] [] [] [] [] [] []]; first [discriminate | done]. Qed.

(** [int] reads a numeral back, also after white space. *)
Lemma int_numeral pre z :
  Forall (fun c => is_c_space c = true) pre →
  (Z.of_nat (numeral_digits z) ≤ max_str_digits)%Z →
  int (pre ++ numeral z) = Ok z.
Proof.
  intros Hpre Hfit. unfold int.
  replace (pre ++ numeral z) with (pre ++ numeral z ++ [])
    by (by rewrite app_nil_r).
  rewrite strip_by_core; [|done | constructor | | | apply numeral_nonempty].
  2:{ intros c Hc. by apply numeral_char_kept, (numeral_head z). }
  2:{ intros c Hc. by apply numeral_char_kept, (numeral_last z). }
  unfold numeral_digits in Hfit.
  destruct (numeral_unfold z)
    as (d & Hd & Habs & [(Hz & Hn & Hv)|(Hz & Hn & Hv)]);
    rewrite <- Habs in Hfit; rewrite Hn.
  - pose proof (uint_chars_digits d) as Hdig.
    pose proof (uint_chars_nonempty d Hd) as Hne.
    destruct (uint_chars d) as [|c r] eqn:Hchars; [done|].
    apply Forall_cons in Hdig as [Hc _].
    rewrite (int_sign_digit c r Hc), <- Hchars.
    rewrite (int_digits_uint d 1 Hd Hfit). f_equal. lia.
  - rewrite (int_digits_uint d (-1) Hd Hfit). f_equal. lia.
Qed.

Lemma int_digits_raises r sign e : int_digits r sign = Raise e → e = ValueError.
Proof.
  unfold int_digits. destruct (parse_digits 0 false r); [|by intros [= <-]].
  destruct (_ <? _)%Z; [by intros [= <-] | done].
Qed.

Lemma int_raises_ValueError s e : int s = Raise e → e = ValueError.
Proof.
  unfold int. destruct (strip_by is_c_space s) as [|c r];
    [apply int_digits_raises|].
  destruct (decide (c = "-"%char)) as [->|Hm]; [apply int_digits_raises|].
  destruct (decide (c = "+"%char)) as [->|Hp]; [apply int_digits_raises|].
  intros Hint. apply (int_digits_raises (c :: r) 1%Z). rewrite <- Hint.
  destruct c as [[] [] [] [] [] [] [] []]; done.
Qed.

(** *** The lines of a file in the format of the spec *)

Lemma last_nonempty {A} (l : list A) : l ≠ [] → is_Some (last l).
Proof.
  induction l as [|x l IH]; [done|]. intros _. rewrite last_cons.
  by destruct (last l).
Qed.

Lemma numeral_last_app (pre : list ascii) z c :
  last (pre ++ numeral z) = Some c → is_digit c = true ∨ c = "-"%char.
Proof.
  rewrite last_app.
  destruct (last_nonempty (numeral z) (numeral_nonempty z)) as [y Hy].
  rewrite Hy. intros [= <-]. by eapply numeral_last.
Qed.

Lemma numeral_head_app z (post : list ascii) c :
  head (numeral z ++ post) = Some c → is_digit c = true ∨ c = "-"%char.
Proof.
  rewrite head_app. pose proof (numeral_nonempty z) as Hne.
  destruct (numeral z) as [|y r] eqn:Hn; [done|]. simpl. intros [= <-].
  apply (numeral_head z). by rewrite Hn.
Qed.

(** A line that starts and ends with characters of the format is its own
    content, and is no label. *)
Lemma rendered_line (l : list ascii) :
  (∀ c, head l = Some c →
        is_space c = false ∧ (c ∉ ["N"; "E"; "O"; "D"]%char)) →
  (∀ c, last l = Some c → is_space c = false) →
  strip (list_ascii_of_string (string_of_list_ascii l)) = l
  ∧ line_header l = None.
Proof.
  intros Hhead Hlast. rewrite list_ascii_of_string_of_list_ascii. split.
  - apply strip_by_kept; [intros c Hc; by apply Hhead | done].
  - unfold line_header.
    repeat (rewrite bool_decide_false;
            [|intros ->; destruct (Hhead _ eq_refl) as [_ Hn]; apply Hn;
              apply (bool_decide_unpack _); by vm_compute]).
    done.
Qed.

Lemma numeral_char_line_start c :
  is_digit c = true ∨ c = "-"%char →
  is_space c = false ∧ (c ∉ ["N"; "E"; "O"; "D"]%char).
Proof.
  intros Hc. destruct (numeral_char_kept c Hc) as (Hs & _ & Hn).
  split; [done|]. intros Hin. apply Hn.
  repeat (apply elem_of_cons in Hin as [->|Hin];
          [apply (bool_decide_unpack _); by vm_compute|]).
  by apply elem_of_nil in Hin.
Qed.

Lemma numeral_char_not_stripped c :
  is_digit c = true ∨ c = "-"%char →
  bool_decide (c ∈ [" "; "("; ")"]%char) = false.
Proof.
  intros Hc. destruct (numeral_char_kept c Hc) as (_ & _ & Hn).
  apply bool_decide_eq_false. intros Hin. apply Hn.
  repeat (apply elem_of_cons in Hin as [->|Hin];
          [apply (bool_decide_unpack _); by vm_compute|]).
  by apply elem_of_nil in Hin.
Qed.

Lemma node_line_rendered d :
  strip (list_ascii_of_string (string_of_list_ascii (node_line d)))
  = node_line d
  ∧ line_header (node_line d) = None ∧ node_line d ≠ [].
Proof.
  assert (node_line d ≠ []) as Hne.
  { unfold node_line. pose proof (numeral_nonempty d.1).
    by destruct (numeral d.1). }
  destruct (rendered_line (node_line d)) as [Hs Hh]; [| |done].
  - intros c Hc. apply numeral_char_line_start.
    by apply numeral_head_app in Hc.
  - intros c. unfold node_line. rewrite !last_app. simpl.
    by intros [= <-].
Qed.

Lemma edge_line_rendered d :
  strip (list_ascii_of_string (string_of_list_ascii (edge_line d)))
  = edge_line d
  ∧ line_header (edge_line d) = None ∧ edge_line d ≠ [].
Proof.
  assert (edge_line d ≠ []) as Hne by done.
  destruct (rendered_line (edge_line d)) as [Hs Hh]; [| |done].
  - intros c [= <-]. split; [done|].
    apply (bool_decide_unpack _). by vm_compute.
  - intros c. unfold edge_line. rewrite !app_assoc. intros Hc.
    apply numeral_last_app in Hc.
    by destruct (numeral_char_kept c Hc) as (? & _).
Qed.

Lemma origin_line_rendered o :
  strip (list_ascii_of_string (string_of_list_ascii (numeral o))) = numeral o
  ∧ line_header (numeral o) = None ∧ numeral o ≠ [].
Proof.
  destruct (rendered_line (numeral o)) as [Hs Hh];
    [| |split_and!; [done | done | apply numeral_nonempty]].
  - intros c Hc. by apply numeral_char_line_start, (numeral_head o).
  - intros c Hc. by apply numeral_char_kept, (numeral_last o).
Qed.

Lemma destinations_last sep (pre : list ascii) (rest : list Z) c :
  (∀ c, last pre = Some c → is_digit c = true ∨ c = "-"%char) →
  last (pre ++ concat (map (fun z => sep ++ numeral z) rest)) = Some c →
  is_digit c = true ∨ c = "-"%char.
Proof.
  revert pre. induction rest as [|z rest IH]; intros pre Hpre; simpl.
  - rewrite app_nil_r. apply Hpre.
  - rewrite !app_assoc, <- (app_assoc pre). apply IH.
    intros c'. rewrite app_assoc. apply numeral_last_app.
Qed.

Lemma destinations_line_rendered spaced d :
  strip (list_ascii_of_string
           (string_of_list_ascii (destinations_line spaced d)))
  = destinations_line spaced d
  ∧ line_header (destinations_line spaced d) = None
  ∧ destinations_line spaced d ≠ [].
Proof.
  assert (destinations_line spaced d ≠ []) as Hne.
  { unfold destinations_line. pose proof (numeral_nonempty d.1).
    by destruct (numeral d.1). }
  destruct (rendered_line (destinations_line spaced d)) as [Hs Hh]; [| |done].
  - intros c Hc. apply numeral_char_line_start.
    by apply numeral_head_app in Hc.
  - intros c Hc. apply numeral_char_kept.
    apply destinations_last in Hc; [done|]. apply numeral_last.
Qed.

Lemma int_numeral_plain z :
  (Z.of_nat (numeral_digits z) ≤ max_str_digits)%Z → int (numeral z) = Ok z.
Proof. intros Hz. by apply (int_numeral [] z). Qed.

Lemma int_numeral_spaced z :
  (Z.of_nat (numeral_digits z) ≤ max_str_digits)%Z →
  int (" "%char :: numeral z) = Ok z.
Proof. intros Hz. apply (int_numeral [" "%char] z); [by constructor | done]. Qed.

Lemma numeral_pair_not_elem x y c :
  c ∈ [" "; "("; ")"; ":"; ";"]%char →
  c ∉ numeral x ++ ","%char :: numeral y.
Proof.
  intros Hc. rewrite not_elem_of_app, not_elem_of_cons. split_and!.
  - apply numeral_not_elem.
    repeat (apply elem_of_cons in Hc as [->|Hc];
            [apply (bool_decide_unpack _); by vm_compute|]).
    by apply elem_of_nil in Hc.
  - intros ->.
    repeat (apply elem_of_cons in Hc as [Hc|Hc]; [done|]).
    by apply elem_of_nil in Hc.
  - apply numeral_not_elem.
    repeat (apply elem_of_cons in Hc as [->|Hc];
            [apply (bool_decide_unpack _); by vm_compute|]).
    by apply elem_of_nil in Hc.
Qed.

(** The coordinates or the endpoints between the brackets. *)
Lemma strip_brackets (pre post : list ascii) x y :
  Forall (fun c => bool_decide (c ∈ [" "; "("; ")"]%char) = true) pre →
  Forall (fun c => bool_decide (c ∈ [" "; "("; ")"]%char) = true) post →
  strip_chars [" "; "("; ")"]%char
    (pre ++ (numeral x ++ ","%char :: numeral y) ++ post)
  = numeral x ++ ","%char :: numeral y.
Proof.
  intros Hpre Hpost. unfold strip_chars. apply strip_by_core; [done | done | | |].
  - intros c Hc. apply numeral_char_not_stripped.
    by apply numeral_head_app in Hc.
  - intros c Hc. apply numeral_char_not_stripped.
    apply (numeral_last_app (numeral x ++ [","%char]) y).
    by rewrite <- app_assoc.
  - pose proof (numeral_nonempty x). by destruct (numeral x).
Qed.

Lemma split_numeral_pair x y :
  split ","%char (numeral x ++ ","%char :: numeral y) = [numeral x; numeral y].
Proof.
  rewrite split_app, split_no_separator; [done | |];
    apply numeral_not_elem; apply (bool_decide_unpack _); by vm_compute.
Qed.

Lemma res_mapM_numeral_pair x y :
  (Z.of_nat (numeral_digits x) ≤ max_str_digits)%Z →
  (Z.of_nat (numeral_digits y) ≤ max_str_digits)%Z →
  res_mapM int [numeral x; numeral y] = Ok [x; y].
Proof.
  intros Hx Hy. cbn [res_mapM].
  by rewrite (int_numeral_plain x Hx), (int_numeral_plain y Hy).
Qed.

Lemma node_line_shape d :
  node_line d
  = numeral d.1
      ++ ":"%char :: ([" "; "("]%char
                        ++ (numeral d.2.1 ++ ","%char :: numeral d.2.2)
                        ++ [")"%char]).
Proof. unfold node_line. simpl. by rewrite <- app_assoc. Qed.

Lemma edge_line_shape d :
  edge_line d
  = (["("%char] ++ (numeral d.1.1 ++ ","%char :: numeral d.1.2)
       ++ [")"%char])
      ++ ":"%char :: " "%char :: numeral d.2.
Proof. unfold edge_line. simpl. by rewrite <- !app_assoc. Qed.

Local Ltac notin_line :=
  rewrite ?not_elem_of_app, ?not_elem_of_cons; split_and?;
  first [ done
        | apply not_elem_of_nil
        | apply numeral_not_elem; apply (bool_decide_unpack _); by vm_compute ].

(** The loader reads a node line and an edge line as the format means
    them. *)
Lemma parse_node_line_rendered d :
  (Z.of_nat (numeral_digits d.1) ≤ max_str_digits)%Z →
  (Z.of_nat (numeral_digits d.2.1) ≤ max_str_digits)%Z →
  (Z.of_nat (numeral_digits d.2.2) ≤ max_str_digits)%Z →
  parse_node_line (node_line d) = Ok (d.1, [d.2.1; d.2.2]).
Proof.
  intros H1 H2 H3. unfold parse_node_line. rewrite node_line_shape.
  rewrite split_app
    by (apply numeral_not_elem; apply (bool_decide_unpack _); by vm_compute).
  rewrite split_no_separator by notin_line.
  cbn [list_item lookup list_lookup mbind res_bind].
  rewrite (int_numeral_plain _ H1).
  cbn [mbind res_bind list_item lookup list_lookup].
  rewrite strip_brackets by (repeat constructor).
  rewrite split_numeral_pair, (res_mapM_numeral_pair _ _ H2 H3). done.
Qed.

Lemma parse_edge_line_rendered d :
  (Z.of_nat (numeral_digits d.1.1) ≤ max_str_digits)%Z →
  (Z.of_nat (numeral_digits d.1.2) ≤ max_str_digits)%Z →
  (Z.of_nat (numeral_digits d.2) ≤ max_str_digits)%Z →
  parse_edge_line (edge_line d) = Ok d.
Proof.
  intros H1 H2 H3. unfold parse_edge_line. rewrite edge_line_shape.
  rewrite split_app by notin_line.
  rewrite split_no_separator by notin_line.
  cbn [list_item lookup list_lookup mbind res_bind].
  rewrite strip_brackets by (repeat constructor).
  rewrite split_numeral_pair, (res_mapM_numeral_pair _ _ H1 H2).
  cbn [mbind res_bind list_item lookup list_lookup].
  rewrite (int_numeral_spaced _ H3). by destruct d as [[a b] w].
Qed.

Lemma split_destinations (spaced : bool) (pre : list ascii) (rest : list Z) :
  (";"%char ∉ pre) →
  split ";"%char
    (pre ++ concat (map (fun z =>
                           list_ascii_of_string (if spaced then "; " else ";")
                             ++ numeral z) rest))
  = pre :: map (fun z => (if spaced then [" "%char] else []) ++ numeral z) rest.
Proof.
  destruct spaced; revert pre;
    (induction rest as [|z rest IH]; intros pre Hpre; simpl in *;
     [rewrite app_nil_r; by apply split_no_separator|]);
    rewrite split_app by done; f_equal.
  - apply (IH (" "%char :: numeral z)). notin_line.
  - apply (IH (numeral z)). notin_line.
Qed.

Lemma res_mapM_numerals (spaced : bool) (zs : list Z) :
  Forall (fun z => (Z.of_nat (numeral_digits z) ≤ max_str_digits)%Z) zs →
  res_mapM int
    (map (fun z => (if spaced then [" "%char] else []) ++ numeral z) zs)
  = Ok zs.
Proof.
  induction 1 as [|z zs Hz _ IH]; [done|]. cbn [map res_mapM].
  rewrite IH.
  replace (int ((if spaced then [" "%char] else []) ++ numeral z)) with (Ok z);
    [done|].
  destruct spaced; simpl;
    [by rewrite int_numeral_spaced | by rewrite int_numeral_plain].
Qed.

Lemma parse_destinations_rendered spaced d :
  Forall (fun z => (Z.of_nat (numeral_digits z) ≤ max_str_digits)%Z)
         (d.1 :: d.2) →
  res_mapM int (split ";"%char (destinations_line spaced d)) = Ok (d.1 :: d.2).
Proof.
  intros Hall. apply Forall_cons in Hall as [H1 H2].
  unfold destinations_line. rewrite split_destinations
    by (apply numeral_not_elem; apply (bool_decide_unpack _); by vm_compute).
  cbn [res_mapM]. rewrite (int_numeral_plain _ H1).
  by rewrite (res_mapM_numerals spaced _ H2).
Qed.

(** *** The loader on the lines of a section *)

Lemma load_node_line st d :
  ld_section st = Some SecNodes →
  (Z.of_nat (numeral_digits d.1) ≤ max_str_digits)%Z →
  (Z.of_nat (numeral_digits d.2.1) ≤ max_str_digits)%Z →
  (Z.of_nat (numeral_digits d.2.2) ≤ max_str_digits)%Z →
  load_line st (string_of_list_ascii (node_line d))
  = Ok (mkLoader (Some SecNodes) (dict_set (ld_nodes st) d.1 [d.2.1; d.2.2])
                 (ld_edges st) (ld_origin st) (ld_destinations st)).
Proof.
  intros Hsec H1 H2 H3. destruct (node_line_rendered d) as (Hs & Hh & Hne).
  rewrite load_line_content by (by rewrite Hs). cbv zeta. rewrite Hs, Hsec.
  destruct (node_line d) as [|c l] eqn:Hl; [done|]. rewrite <- Hl.
  by rewrite parse_node_line_rendered.
Qed.

Lemma load_edge_line st d :
  ld_section st = Some SecEdges →
  (Z.of_nat (numeral_digits d.1.1) ≤ max_str_digits)%Z →
  (Z.of_nat (numeral_digits d.1.2) ≤ max_str_digits)%Z →
  (Z.of_nat (numeral_digits d.2) ≤ max_str_digits)%Z →
  load_line st (string_of_list_ascii (edge_line d))
  = Ok (mkLoader (Some SecEdges) (ld_nodes st)
                 (dict_setdefault (ld_edges st) d.1 d.2).2
                 (ld_origin st) (ld_destinations st)).
Proof.
  intros Hsec H1 H2 H3. destruct (edge_line_rendered d) as (Hs & Hh & Hne).
  rewrite load_line_content by (by rewrite Hs). cbv zeta. rewrite Hs, Hsec.
  destruct (edge_line d) as [|c l] eqn:Hl; [done|]. rewrite <- Hl.
  rewrite parse_edge_line_rendered by done. by destruct d.
Qed.

Lemma load_origin_line st o :
  ld_section st = Some SecOrigin →
  (Z.of_nat (numeral_digits o) ≤ max_str_digits)%Z →
  load_line st (string_of_list_ascii (numeral o))
  = Ok (mkLoader (Some SecOrigin) (ld_nodes st) (ld_edges st) (Some o)
                 (ld_destinations st)).
Proof.
  intros Hsec H1. destruct (origin_line_rendered o) as (Hs & Hh & Hne).
  rewrite load_line_content by (by rewrite Hs). cbv zeta. rewrite Hs, Hsec.
  destruct (numeral o) as [|c l] eqn:Hl; [done|]. rewrite <- Hl.
  by rewrite int_numeral_plain.
Qed.

Lemma load_destinations_line st spaced d :
  ld_section st = Some SecDestinations →
  Forall (fun z => (Z.of_nat (numeral_digits z) ≤ max_str_digits)%Z)
         (d.1 :: d.2) →
  load_line st (string_of_list_ascii (destinations_line spaced d))
  = Ok (mkLoader (Some SecDestinations) (ld_nodes st) (ld_edges st)
                 (ld_origin st) (d.1 :: d.2)).
Proof.
  intros Hsec H1.
  destruct (destinations_line_rendered spaced d) as (Hs & Hh & Hne).
  rewrite load_line_content by (by rewrite Hs). cbv zeta. rewrite Hs, Hsec.
  destruct (destinations_line spaced d) as [|c l] eqn:Hl; [done|].
  rewrite <- Hl. by rewrite parse_destinations_rendered.
Qed.

Lemma load_nodes_lines st nodes :
  ld_section st = Some SecNodes →
  Forall (fun z => (Z.of_nat (numeral_digits z) ≤ max_str_digits)%Z)
         (section_numbers (NodesSection nodes)) →
  load_lines st (map (fun d => string_of_list_ascii (node_line d)) nodes)
  = Ok (mkLoader (Some SecNodes)
          (assign_all (ld_nodes st)
             (map (fun d : Z * (Z * Z) => (d.1, [d.2.1; d.2.2])) nodes))
          (ld_edges st) (ld_origin st) (ld_destinations st)).
Proof.
  revert st. induction nodes as [|d nodes IH]; intros st Hsec Hfit.
  - destruct st. simpl in *. by subst.
  - cbn [section_numbers map concat app] in Hfit.
    apply Forall_cons in Hfit as [H1 Hfit].
    apply Forall_cons in Hfit as [H2 Hfit].
    apply Forall_cons in Hfit as [H3 Hfit].
    cbn [map load_lines]. rewrite load_node_line by done.
    cbn [mbind res_bind]. by rewrite IH.
Qed.

Lemma load_edges_lines st edges :
  ld_section st = Some SecEdges →
  Forall (fun z => (Z.of_nat (numeral_digits z) ≤ max_str_digits)%Z)
         (section_numbers (EdgesSection edges)) →
  load_lines st (map (fun d => string_of_list_ascii (edge_line d)) edges)
  = Ok (mkLoader (Some SecEdges) (ld_nodes st)
          (setdefault_all (ld_edges st) edges)
          (ld_origin st) (ld_destinations st)).
Proof.
  revert st. induction edges as [|d edges IH]; intros st Hsec Hfit.
  - destruct st. simpl in *. by subst.
  - cbn [section_numbers map concat app] in Hfit.
    apply Forall_cons in Hfit as [H1 Hfit].
    apply Forall_cons in Hfit as [H2 Hfit].
    apply Forall_cons in Hfit as [H3 Hfit].
    cbn [map load_lines]. rewrite load_edge_line by done.
    cbn [mbind res_bind]. by rewrite IH.
Qed.

Lemma load_origin_lines st origins :
  ld_section st = Some SecOrigin →
  Forall (fun z => (Z.of_nat (numeral_digits z) ≤ max_str_digits)%Z) origins →
  load_lines st (map (fun o => string_of_list_ascii (numeral o)) origins)
  = Ok (mkLoader (Some SecOrigin) (ld_nodes st) (ld_edges st)
          (from_option Some (ld_origin st) (last origins))
          (ld_destinations st)).
Proof.
  revert st. induction origins as [|o origins IH]; intros st Hsec Hfit.
  - destruct st. simpl in *. by subst.
  - apply Forall_cons in Hfit as [H1 Hfit].
    cbn [map load_lines]. rewrite load_origin_line by done.
    cbn [mbind res_bind]. rewrite IH by done. simpl. rewrite last_cons.
    by destruct (last origins).
Qed.

Lemma load_destinations_lines st spaced dests :
  ld_section st = Some SecDestinations →
  Forall (fun z => (Z.of_nat (numeral_digits z) ≤ max_str_digits)%Z)
         (section_numbers (DestinationsSection spaced dests)) →
  load_lines st
    (map (fun d => string_of_list_ascii (destinations_line spaced d)) dests)
  = Ok (mkLoader (Some SecDestinations) (ld_nodes st) (ld_edges st)
          (ld_origin st)
          (default (ld_destinations st)
             (last (map (fun d : Z * list Z => d.1 :: d.2) dests)))).
Proof.
  revert st. induction dests as [|d dests IH]; intros st Hsec Hfit.
  - destruct st. simpl in *. by subst.
  - cbn [section_numbers map concat] in Hfit.
    apply Forall_app in Hfit as [H1 Hfit].
    cbn [map load_lines]. rewrite load_destinations_line by done.
    cbn [mbind res_bind]. rewrite IH by done. simpl. rewrite last_cons.
    by destruct (last _).
Qed.

Lemma load_section st s :
  Forall (fun z => (Z.of_nat (numeral_digits z) ≤ max_str_digits)%Z)
         (section_numbers s) →
  ∃ st', load_lines st (render_section s) = Ok st'
    ∧ ld_nodes st' = assign_all (ld_nodes st) (declared_nodes [s])
    ∧ ld_edges st' = setdefault_all (ld_edges st) (declared_edges [s])
    ∧ ld_origin st'
      = from_option Some (ld_origin st) (last (origin_entries [s]))
    ∧ ld_destinations st'
      = default (ld_destinations st) (last (destinations_entries [s])).
Proof.
  intros Hfit.
  destruct s as [nodes|edges|origins|spaced dests];
    cbn [render_section load_lines].
  - replace (load_line st "Nodes:") with (Ok (set_section st SecNodes))
      by (by vm_compute).
    cbn [mbind res_bind]. rewrite load_nodes_lines by done.
    eexists. split; [done|].
    unfold declared_nodes, declared_edges, origin_entries,
      destinations_entries. simpl. by rewrite app_nil_r.
  - replace (load_line st "Edges:") with (Ok (set_section st SecEdges))
      by (by vm_compute).
    cbn [mbind res_bind]. rewrite load_edges_lines by done.
    eexists. split; [done|].
    unfold declared_nodes, declared_edges, origin_entries,
      destinations_entries. simpl. by rewrite app_nil_r.
  - replace (load_line st "Origin:") with (Ok (set_section st SecOrigin))
      by (by vm_compute).
    cbn [mbind res_bind]. rewrite load_origin_lines by done.
    eexists. split; [done|].
    unfold declared_nodes, declared_edges, origin_entries,
      destinations_entries. simpl. by rewrite app_nil_r.
  - replace (load_line st "Destinations:")
      with (Ok (set_section st SecDestinations)) by (by vm_compute).
    cbn [mbind res_bind]. rewrite load_destinations_lines by done.
    eexists. split; [done|].
    unfold declared_nodes, declared_edges, origin_entries,
      destinations_entries. simpl. by rewrite app_nil_r.
Qed.

(** The loop over the lines leaves the declarations of the file in its
    variables. *)
Lemma load_render_file f st :
  numbers_fit f →
  ∃ st', load_lines st (render_file f) = Ok st'
    ∧ ld_nodes st' = assign_all (ld_nodes st) (declared_nodes f)
    ∧ ld_edges st' = setdefault_all (ld_edges st) (declared_edges f)
    ∧ ld_origin st'
      = from_option Some (ld_origin st) (last (origin_entries f))
    ∧ ld_destinations st'
      = default (ld_destinations st) (last (destinations_entries f)).
Proof.
  revert st. induction f as [|s f IH]; intros st Hfit.
  - exists st. by split_and!.
  - unfold numbers_fit, file_numbers in Hfit. cbn [map concat] in Hfit.
    apply Forall_app in Hfit as [Hs Hf].
    destruct (load_section st s Hs) as (st1 & Hl1 & Hn1 & He1 & Ho1 & Hd1).
    destruct (IH st1 Hf) as (st' & Hl & Hn & He & Ho & Hd).
    exists st'. split.
    { unfold render_file. cbn [map concat]. rewrite load_lines_app, Hl1.
      exact Hl. }
    unfold declared_nodes, declared_edges, origin_entries,
      destinations_entries in *.
    cbn [map concat] in *. rewrite app_nil_r in Hn1, He1, Ho1, Hd1.
    rewrite assign_all_app, setdefault_all_app, !last_app.
    rewrite Hn, He, Ho, Hd, Hn1, He1, Ho1, Hd1.
    split_and!; [done | done | |];
      match goal with
      | |- context [last (concat ?x)] => by destruct (last (concat x))
      end.
Qed.

Lemma load_line_stripped st raw r :
  strip (list_ascii_of_string raw) = strip (list_ascii_of_string r) →
  load_line st raw = load_line st r.
Proof. unfold load_line. by intros ->. Qed.

(** The lines of a rendered file carry no white space around them, and
    none is blank. *)
Lemma render_file_stripped f :
  Forall (fun r => strip (list_ascii_of_string r) = list_ascii_of_string r
                   ∧ list_ascii_of_string r ≠ [])
         (render_file f).
Proof.
  induction f as [|s f IH]; [constructor|].
  unfold render_file. cbn [map concat]. apply Forall_app. split; [|exact IH].
  destruct s as [nodes|edges|origins|spaced dests]; cbn [render_section];
    (constructor; [by vm_compute|]); apply Forall_forall;
    intros r (d & -> & _)%list_elem_of_fmap;
    rewrite list_ascii_of_string_of_list_ascii.
  - destruct (node_line_rendered d) as (Hs & _ & Hne).
    by rewrite list_ascii_of_string_of_list_ascii in Hs.
  - destruct (edge_line_rendered d) as (Hs & _ & Hne).
    by rewrite list_ascii_of_string_of_list_ascii in Hs.
  - destruct (origin_line_rendered d) as (Hs & _ & Hne).
    by rewrite list_ascii_of_string_of_list_ascii in Hs.
  - destruct (destinations_line_rendered spaced d) as (Hs & _ & Hne).
    by rewrite list_ascii_of_string_of_list_ascii in Hs.
Qed.

(** The loader sees the content of the lines only. *)
Lemma load_lines_content st lines rendered :
  Forall (fun r => strip (list_ascii_of_string r) = list_ascii_of_string r
                   ∧ list_ascii_of_string r ≠ [])
         rendered →
  content lines = map list_ascii_of_string rendered →
  load_lines st lines = load_lines st rendered.
Proof.
  revert st rendered.
  induction lines as [|raw lines IH]; intros st rendered Hall Hc.
  - by destruct rendered.
  - unfold content in Hc. cbn [map] in Hc. rewrite filter_cons in Hc.
    cbn [load_lines]. case_decide as Hraw.
    + destruct rendered as [|r rendered]; [done|].
      cbn [map] in Hc. injection Hc as Hr Hc.
      apply Forall_cons in Hall as [[Hs _] Hall].
      rewrite (load_line_stripped st raw r) by (by rewrite Hs).
      cbn [load_lines]. destruct (load_line st r) as [st1|e]; [|done].
      cbn [mbind res_bind]. by apply IH.
    + rewrite load_line_blank.
      * cbn [mbind res_bind]. by apply IH.
      * by destruct (strip (list_ascii_of_string raw)).
Qed.

(** C9 (as amended).  For every file whose lines, white space around them
    and blank lines apart, are in the format of the spec, with numerals
    that [int] accepts, in which no node id and no pair [(from,to)] is
    declared with two different values and every declared edge leaves a
    declared node, the loader returns: a directed graph that has exactly
    the declared edges, each one-way with its declared weight; [locations]
    mapping exactly the declared node ids to their declared coordinates;
    the last origin and the last line of destinations. *)
Theorem load_graph_from_file_declared (lines : list string)
    (f : list file_section) :
  content lines = map list_ascii_of_string (render_file f) →
  numbers_fit f →
  consistent (declared_nodes f) →
  consistent (declared_edges f) →
  (∀ a b w, ((a, b), w) ∈ declared_edges f →
            a ∈ map fst (declared_nodes f)) →
  ∃ g, load_graph_from_file lines
       = Ok (g, last (origin_entries f),
             default [] (last (destinations_entries f)))
       ∧ directed g = true
       ∧ (∀ a b w, edge_weight g a b = Some w ↔ ((a, b), w) ∈ declared_edges f)
       ∧ ∃ locs, locations g = Some locs
                 ∧ ∀ id c, dict_get locs id = Some c
                           ↔ (id, c) ∈ declared_nodes f.
Proof.
  intros Hlines Hfit HN HE Hsrc. unfold load_graph_from_file.
  rewrite (load_lines_content _ lines (render_file f)
             (render_file_stripped f) Hlines).
  destruct (load_render_file f (mkLoader None [] [] None []) Hfit)
    as (st & -> & Hn & He & Ho & Hd).
  simpl in Hn, He, Ho, Hd. cbn [mbind res_bind].
  eexists. split_and!.
  - rewrite Ho, Hd. f_equal. f_equal. f_equal.
    by destruct (last (origin_entries f)).
  - simpl. apply connect_edges_directed.
  - intros a b w.
    change (edge_weight (connect_edges (ld_nodes st) (ld_edges st) Graph_init)
              a b = Some w ↔ ((a, b), w) ∈ declared_edges f).
    rewrite connect_edges_edge_weight
      by (rewrite He; apply setdefault_all_NoDup).
    rewrite Hn, He. unfold edge_weight at 1 2. simpl.
    rewrite <- (setdefault_all_get _ HE). case_decide as Hin.
    + by destruct (dict_get _ _).
    + split; [done|]. intros Hget. destruct Hin.
      apply assign_all_keys. eapply Hsrc. by apply setdefault_all_get.
  - exists (ld_nodes st). split; [done|]. intros id c.
    rewrite Hn. by apply assign_all_get.
Qed.

Lemma load_graph_from_file_declared_witness :
  let f :=
    [NodesSection [(1, (4, 1)); (2, (2, 2)); (3, (4, 4)); (10, (12, -34))];
     EdgesSection [((2, 1), 4); ((3, 1), 5); ((1, 3), 5); ((10, 2), 15)];
     OriginSection [2];
     DestinationsSection true [(10, [3])]]%Z in
  let text :=
    ["Nodes:"; "1: (4,1)"; "2: (2,2)"; "3: (4,4)"; "10: (12,-34)";
     "Edges:"; "(2,1): 4"; "(3,1): 5"; "(1,3): 5"; "(10,2): 15";
     "Origin:"; "2"; "Destinations:"; "10; 3"]%string in
  let lines :=
    map (fun l => (l ++ String (ascii_of_nat 10) "")%string)
        (take 5 text ++ ["   "%string] ++ drop 5 text) in
  render_file f = text
  ∧ ∃ g, load_graph_from_file lines = Ok (g, Some 2%Z, [10; 3]%Z)
         ∧ edge_weight g 10%Z 2%Z = Some 15%Z
         ∧ edge_weight g 2%Z 10%Z = None
         ∧ ∃ locs, locations g = Some locs
                   ∧ dict_get locs 10%Z = Some [12; -34]%Z.
Proof.
  intros f text lines. split; [by vm_compute|].
  destruct (load_graph_from_file_declared lines f)
    as (g & Hload & _ & Hedges & locs & Hlocs & Hnodes).
  - by vm_compute.
  - apply (bool_decide_unpack _). by vm_compute.
  - apply consistent_NoDup_keys. apply (bool_decide_unpack _). by vm_compute.
  - apply consistent_NoDup_keys. apply (bool_decide_unpack _). by vm_compute.
  - intros a b w Hin.
    assert (Forall (fun e : Z * Z * Z => e.1.1 ∈ map fst (declared_nodes f))
                   (declared_edges f)) as Hall
      by (apply (bool_decide_unpack _); by vm_compute).
    rewrite Forall_forall in Hall. apply (Hall _ Hin).
  - exists g. split_and!.
    + exact Hload.
    + apply Hedges. apply (bool_decide_unpack _). by vm_compute.
    + destruct (edge_weight g 2%Z 10%Z) as [w|] eqn:Hw; [|reflexivity].
      apply Hedges in Hw.
      change (declared_edges f)
        with [((2, 1), 4); ((3, 1), 5); ((1, 3), 5); ((10, 2), 15)]%Z in Hw.
      repeat (apply elem_of_cons in Hw as [[=]|Hw]).
      destruct (not_elem_of_nil _ Hw).
    + exists locs. split; [exact Hlocs|]. apply Hnodes.
      apply (bool_decide_unpack _). by vm_compute.
Defined.

(** C9, where it fails: the file below is in the format of the spec, has
    its four sections and declares the edge [(2,1): 4]; node [2] is not
    declared in [Nodes:], and the loaded graph has no edge from [2] to
    [1]. *)
Lemma load_graph_from_file_drops_edge :
  let f :=
    [NodesSection [(1, (0, 0)); (3, (1, 1))];
     EdgesSection [((1, 3), 5); ((2, 1), 4)];
     OriginSection [1];
     DestinationsSection false [(3, [])]]%Z in
  render_file f
  = ["Nodes:"; "1: (0,0)"; "3: (1,1)"; "Edges:"; "(1,3): 5"; "(2,1): 4";
     "Origin:"; "1"; "Destinations:"; "3"]%string
  ∧ declared_edges f = [((1, 3), 5); ((2, 1), 4)]%Z
  ∧ ∃ g, load_graph_from_file (render_file f) = Ok (g, Some 1%Z, [3%Z])
         ∧ edge_weight g 1%Z 3%Z = Some 5%Z
         ∧ edge_weight g 2%Z 1%Z = None.
Proof.
  intros f. split; [by vm_compute|]. split; [by vm_compute|].
  eexists. split; [vm_compute; reflexivity|].
  split; vm_compute; reflexivity.
Qed.

(** * Further properties of the code *)

(** ** Graph: [connect1], [connect], [get], [nodes] *)

Lemma dict_get_elem_of_NoDup {K V} `{EqDecision K} (d : dict K V) k v :
  NoDup (dict_keys d) → (k, v) ∈ d → dict_get d k = Some v.
Proof.
  induction d as [|[k0 v0] d IH]; simpl; intros Hnd Hin.
  - by apply elem_of_nil in Hin.
  - apply NoDup_cons in Hnd as [Hnin Hnd].
    apply elem_of_cons in Hin as [[= -> ->]|Hin].
    + by rewrite decide_True.
    + rewrite decide_False; [by apply IH|]. intros ->. apply Hnin.
      apply list_elem_of_fmap. by exists (k0, v).
Qed.

Lemma dict_set_Forall_values {K V} `{EqDecision K} (Q : V → Prop)
    (d : dict K V) k v :
  Forall (fun kv => Q kv.2) d → Q v → Forall (fun kv => Q kv.2) (dict_set d k v).
Proof.
  intros Hd Hv. induction Hd as [|[k0 v0] d H0 Hd IH]; simpl.
  - by constructor.
  - case_decide; constructor; done.
Qed.

Lemma dict_setdefault_NoDup {K V} `{EqDecision K} (d : dict K V) k v :
  NoDup (dict_keys d) → NoDup (dict_keys (dict_setdefault d k v).2).
Proof.
  intros Hnd. unfold dict_setdefault.
  destruct (dict_get d k) eqn:Hget; simpl; [done|].
  unfold dict_keys. rewrite map_app. simpl.
  apply NoDup_app. split_and!; [done | | apply NoDup_singleton].
  intros x Hx ->%list_elem_of_singleton.
  by apply dict_get_None_keys in Hget.
Qed.

Lemma dict_setdefault_Forall_values {K V} `{EqDecision K} (Q : V → Prop)
    (d : dict K V) k v :
  Forall (fun kv => Q kv.2) d → Q v →
  Forall (fun kv => Q kv.2) (dict_setdefault d k v).2
  ∧ Q (dict_setdefault d k v).1.
Proof.
  intros Hd Hv. unfold dict_setdefault.
  destruct (dict_get d k) as [x|] eqn:Hget; simpl.
  - split; [done|]. apply dict_get_Some_elem_of in Hget.
    rewrite Forall_forall in Hd. apply (Hd _ Hget).
  - split; [|done]. apply Forall_app. split; [done | by constructor].
Qed.

Lemma wf_graph_links g a links :
  wf_graph g → dict_get (graph_dict g) a = Some links →
  NoDup (dict_keys links).
Proof.
  intros [_ Hall] Hget. apply dict_get_Some_elem_of in Hget.
  rewrite Forall_forall in Hall. apply (Hall _ Hget).
Qed.

Lemma connect1_wf g A B w : wf_graph g → wf_graph (connect1 g A B w).
Proof.
  intros [Hnd Hall]. unfold connect1.
  pose proof (dict_setdefault_NoDup (graph_dict g) A [] Hnd) as Hnd'.
  destruct (dict_setdefault_Forall_values (fun l => NoDup (dict_keys l))
              (graph_dict g) A [] Hall) as [Hall' Hlinks]; [constructor|].
  destruct (dict_setdefault (graph_dict g) A []) as [links d].
  simpl in *. split; simpl.
  - by apply dict_keys_NoDup_set.
  - apply (dict_set_Forall_values (fun l => NoDup (dict_keys l))); [done|].
    by apply dict_keys_NoDup_set.
Qed.

Lemma get_wf g a b : wf_graph g → wf_graph (get g a b).2.
Proof.
  intros [Hnd Hall]. unfold wf_graph. rewrite get_graph_dict. split.
  - by apply dict_setdefault_NoDup.
  - apply (dict_setdefault_Forall_values (fun l => NoDup (dict_keys l)));
      [done | constructor].
Qed.

(** X1.  After [connect1(A, B, w)], [get(A, B)] is [w] and [B] is among
    the neighbours [get(A)] lists; the distance [get] reports for any other
    pair is what it was. *)
Theorem connect1_then_get (g : Graph) (A B w : Z) :
  (get (connect1 g A B w) A (Some B)).1 = Distance (Some w)
  ∧ (∃ links, (get (connect1 g A B w) A None).1 = Links links
              ∧ dict_get links B = Some w)
  ∧ ∀ a b, (a, b) ≠ (A, B) →
           (get (connect1 g A B w) a (Some b)).1 = (get g a (Some b)).1.
Proof.
  split_and!.
  - rewrite get_distance, connect1_edge_weight. by rewrite decide_True.
  - rewrite get_links. eexists. split; [done|].
    rewrite <- edge_weight_links, connect1_edge_weight. by rewrite decide_True.
  - intros a b Hne. rewrite !get_distance, connect1_edge_weight.
    rewrite decide_False; [done|]. intros [-> ->]. done.
Qed.

(** X2.  [connect] on a directed graph adds the one edge and no reverse
    edge; on an undirected graph it adds both directions with the same
    distance, and touches no other pair. *)
Theorem connect_directed_undirected (g : Graph) (A B w : Z) :
  (directed g = true →
     ∀ a b, edge_weight (connect g A B w) a b
            = if decide (a = A ∧ b = B) then Some w else edge_weight g a b)
  ∧ (directed g = false →
       edge_weight (connect g A B w) A B = Some w
       ∧ edge_weight (connect g A B w) B A = Some w
       ∧ ∀ a b, (a, b) ≠ (A, B) → (a, b) ≠ (B, A) →
                edge_weight (connect g A B w) a b = edge_weight g a b).
Proof.
  unfold connect. rewrite connect1_directed. split; intros ->; simpl.
  - intros a b. apply connect1_edge_weight.
  - split_and!.
    + rewrite !connect1_edge_weight.
      destruct (decide (A = B ∧ B = A)); [done|]. by rewrite decide_True.
    + rewrite connect1_edge_weight. by rewrite decide_True.
    + intros a b H1 H2. rewrite !connect1_edge_weight.
      rewrite !decide_False; [done | |]; intros [-> ->]; done.
Qed.

Lemma connect_directed_undirected_witness :
  let g := mkGraph [(1, [(2, 7)])]%Z false None in
  edge_weight (connect g 2%Z 3%Z 5%Z) 2%Z 3%Z = Some 5%Z
  ∧ edge_weight (connect g 2%Z 3%Z 5%Z) 3%Z 2%Z = Some 5%Z
  ∧ edge_weight (connect g 2%Z 3%Z 5%Z) 1%Z 2%Z = Some 7%Z.
Proof.
  intros g.
  destruct (proj2 (connect_directed_undirected g 2%Z 3%Z 5%Z) eq_refl)
    as (H1 & H2 & H3).
  split_and!; [done | done |]. by rewrite H3.
Defined.

(** X3.  [nodes] lists every key of the adjacency dictionary and every
    target of an edge, nothing else, and each once. *)
Theorem nodes_keys_and_targets (g : Graph) (x : Z) :
  NoDup (nodes g)
  ∧ (x ∈ nodes g
     ↔ x ∈ dict_keys (graph_dict g)
       ∨ ∃ a links, (a, links) ∈ graph_dict g ∧ x ∈ dict_keys links).
Proof.
  unfold nodes. split; [apply NoDup_remove_dups|].
  rewrite elem_of_remove_dups, elem_of_app.
  apply or_iff_compat_l. rewrite list_elem_of_In, in_concat. split.
  - intros (l & Hl & Hx). apply in_map_iff in Hl as ([a links] & <- & Hin).
    exists a, links. split; by apply list_elem_of_In.
  - intros (a & links & Hin & Hx). exists (dict_keys links). split.
    + apply in_map_iff. exists (a, links). split; [done|].
      by apply list_elem_of_In.
    + by apply list_elem_of_In.
Qed.

(** X4.  A second [get] with the same node changes nothing more and gives
    the same answer as the first; [get] never changes an edge weight, the
    [directed] flag or [locations], and it keeps the keys distinct. *)
Theorem get_twice (g : Graph) (a : Z) (b b' : option Z) :
  (get (get g a b).2 a b').2 = (get g a b).2
  ∧ (get (get g a b).2 a b').1 = (get g a b').1
  ∧ (∀ x y, edge_weight (get g a b).2 x y = edge_weight g x y)
  ∧ directed (get g a b).2 = directed g
  ∧ locations (get g a b).2 = locations g
  ∧ (wf_graph g → wf_graph (get g a b).2).
Proof.
  assert (graph_grown g (get g a b).2) as Hgrown
    by apply get_grown, graph_grown_refl.
  assert (is_Some (dict_get (graph_dict (get g a b).2) a)) as [l Hl].
  { rewrite get_graph_dict, dict_setdefault_get.
    destruct (dict_get (graph_dict g) a); [by eexists|].
    rewrite decide_True by done. by eexists. }
  assert ((get (get g a b).2 a b').2 = (get g a b).2) as Hsame.
  { unfold get at 1. unfold dict_setdefault. rewrite Hl.
    unfold set_graph_dict. destruct b'; by destruct (get g a b).2. }
  split_and!.
  - done.
  - destruct b' as [y|].
    + rewrite !get_distance. f_equal. by apply graph_grown_edge_weight.
    + rewrite !get_links. f_equal. by apply graph_grown_links.
  - intros x y. by apply graph_grown_edge_weight.
  - by destruct Hgrown as (? & _).
  - by destruct Hgrown as (_ & ? & _).
  - apply get_wf.
Qed.

Lemma connect1_then_get_witness :
  let g := mkGraph [(1, [(2, 7)])]%Z true None in
  (get (connect1 g 1%Z 3%Z 5%Z) 1%Z (Some 2%Z)).1 = Distance (Some 7%Z)
  ∧ (get (connect1 g 1%Z 3%Z 5%Z) 3%Z (Some 1%Z)).1 = Distance None.
Proof.
  intros g. split.
  - by rewrite (proj2 (proj2 (connect1_then_get g 1%Z 3%Z 5%Z)) 1%Z 2%Z).
  - by rewrite (proj2 (proj2 (connect1_then_get g 1%Z 3%Z 5%Z)) 3%Z 1%Z).
Defined.

Lemma get_twice_witness :
  let g := mkGraph [(1, [(2, 7)])]%Z true None in
  (get (get g 2%Z None).2 2%Z (Some 1%Z)).2 = (get g 2%Z None).2
  ∧ wf_graph (get g 2%Z None).2.
Proof.
  intros g.
  destruct (get_twice g 2%Z None (Some 1%Z)) as (H1 & _ & _ & _ & _ & Hwf).
  split; [done|]. apply Hwf. split.
  - apply (bool_decide_unpack _). by vm_compute.
  - repeat constructor. intros ?%elem_of_nil. done.
Defined.

(** ** Graph: [make_undirected] *)

Lemma mirror_links_edge_weight (links : dict Z Z) (z : Z) :
  NoDup (dict_keys links) → ∀ g u v,
  edge_weight (fold_left (fun g bd => connect1 g bd.1 z bd.2) links g) u v
  = if decide (v = z)
    then match dict_get links u with
         | Some d => Some d
         | None => edge_weight g u v
         end
    else edge_weight g u v.
Proof.
  induction links as [|[b d] links IH]; intros Hnd g u v; cbn [fold_left].
  - by case_decide.
  - apply NoDup_cons in Hnd as [Hnin Hnd]. rewrite (IH Hnd).
    apply dict_get_None_keys in Hnin. simpl in Hnin.
    rewrite connect1_edge_weight. cbn [dict_get fst snd].
    destruct (decide (v = z)) as [->|Hv].
    + destruct (decide (u = b)) as [->|Hu].
      * rewrite Hnin. by rewrite decide_True.
      * rewrite decide_False; [done | by intros [? _]].
    + rewrite decide_False; [done | by intros [_ ?]].
Qed.

Lemma mirror_links_wf (links : dict Z Z) (z : Z) g :
  wf_graph g →
  wf_graph (fold_left (fun g bd => connect1 g bd.1 z bd.2) links g).
Proof.
  revert g. induction links as [|[b d] links IH]; intros g Hwf; [done|].
  cbn [fold_left]. apply IH. by apply connect1_wf.
Qed.

(** One round of the outer loop of [make_undirected], for the key [z]. *)
Lemma mirror_node_edge_weight g z u v :
  wf_graph g →
  edge_weight
    (match dict_get (graph_dict g) z with
     | Some links => fold_left (fun g bd => connect1 g bd.1 z bd.2) links g
     | None => g
     end) u v
  = if decide (v = z)
    then match edge_weight g z u with
         | Some d => Some d
         | None => edge_weight g u v
         end
    else edge_weight g u v.
Proof.
  intros Hwf. unfold edge_weight at 2.
  destruct (dict_get (graph_dict g) z) as [links|] eqn:Hz.
  - apply mirror_links_edge_weight. by eapply wf_graph_links.
  - by case_decide.
Qed.

Lemma make_undirected_loop (K : list Z) (ks : list Z) (P : list Z) g :
  wf_graph g →
  (∀ x, x ∈ ks → x ∈ K) →
  (∀ x y d, edge_weight g x y = Some d → x ∈ P ∨ x ∉ K →
            edge_weight g y x = Some d) →
  let g' :=
    fold_left
      (fun g a =>
         match dict_get (graph_dict g) a with
         | Some links => fold_left (fun g bd => connect1 g bd.1 a bd.2) links g
         | None => g
         end) ks g in
  wf_graph g'
  ∧ (∀ x y, graph_edge g x y → graph_edge g' x y)
  ∧ (∀ x y d, edge_weight g' x y = Some d → x ∈ ks ++ P ∨ x ∉ K →
              edge_weight g' y x = Some d).
Proof.
  revert P g. induction ks as [|z ks IH]; intros P g Hwf HK Hinv; simpl.
  - by split_and!.
  - set (g1 := match dict_get (graph_dict g) z with
               | Some links =>
                   fold_left (fun g bd => connect1 g bd.1 z bd.2) links g
               | None => g
               end).
    assert (wf_graph g1) as Hwf1.
    { unfold g1. destruct (dict_get (graph_dict g) z); [|done].
      by apply mirror_links_wf. }
    assert (∀ u v, edge_weight g1 u v
                   = if decide (v = z)
                     then match edge_weight g z u with
                          | Some d => Some d
                          | None => edge_weight g u v
                          end
                     else edge_weight g u v) as Hg1
      by (intros u v; by apply mirror_node_edge_weight).
    assert (z ∈ K) as HzK by (apply HK; left).
    destruct (IH (z :: P) g1) as (Hwf' & Hmono & Hsym).
    + done.
    + intros x Hx. apply HK. by right.
    + intros x y d Hxy Hx. rewrite Hg1 in Hxy. rewrite Hg1.
      destruct (decide (y = z)) as [->|Hy].
      * destruct (edge_weight g z x) as [d'|] eqn:Hzx.
        -- injection Hxy as ->.
           destruct (decide (x = z)) as [->|Hxz]; [by rewrite Hzx | done].
        -- assert (x ≠ z) as Hxz by (intros ->; congruence).
           assert (x ∈ P ∨ x ∉ K) as Hx'.
           { destruct Hx as [[->|?]%elem_of_cons|?]; [done | by left | by right]. }
           rewrite (Hinv _ _ _ Hxy Hx') in Hzx. done.
      * destruct (decide (x = z)) as [->|Hxz].
        -- by rewrite Hxy.
        -- apply (Hinv _ _ _ Hxy).
           destruct Hx as [[->|?]%elem_of_cons|?]; [done | by left | by right].
    + split_and!; [done | |].
      * intros x y Hxy. apply Hmono. unfold graph_edge in *. rewrite Hg1.
        case_decide; [|done]. by destruct (edge_weight g z x).
      * intros x y d Hxy Hx. apply (Hsym _ _ _ Hxy).
        destruct Hx as [Hx|Hx]; [|by right]. left.
        rewrite elem_of_app, elem_of_cons.
        apply elem_of_cons in Hx as [->|Hx]; [by right; left|].
        apply elem_of_app in Hx as [?|?]; [by left | by right; right].
Qed.

(** X5.  [make_undirected] makes the graph symmetric: in the result every
    edge has a reverse edge of the same distance; every edge of the
    original is still an edge (its distance may have been overwritten by
    that of an original reverse edge), and the keys stay distinct. *)
Theorem make_undirected_symmetric (g : Graph) :
  wf_graph g →
  wf_graph (make_undirected g)
  ∧ (∀ x y, graph_edge g x y →
            graph_edge (make_undirected g) x y
            ∧ graph_edge (make_undirected g) y x)
  ∧ (∀ x y d, edge_weight (make_undirected g) x y = Some d →
              edge_weight (make_undirected g) y x = Some d).
Proof.
  intros Hwf. unfold make_undirected.
  destruct (make_undirected_loop (dict_keys (graph_dict g))
              (dict_keys (graph_dict g)) [] g Hwf) as (Hwf' & Hmono & Hsym).
  { done. }
  { intros x y d Hxy [Hx|Hx]; [by apply elem_of_nil in Hx|].
    apply dict_get_None_keys in Hx. unfold edge_weight in Hxy.
    by rewrite Hx in Hxy. }
  assert (∀ x y d,
            edge_weight
              (fold_left
                 (fun g a =>
                    match dict_get (graph_dict g) a with
                    | Some links =>
                        fold_left (fun g bd => connect1 g bd.1 a bd.2) links g
                    | None => g
                    end) (dict_keys (graph_dict g)) g) x y = Some d →
            edge_weight
              (fold_left
                 (fun g a =>
                    match dict_get (graph_dict g) a with
                    | Some links =>
                        fold_left (fun g bd => connect1 g bd.1 a bd.2) links g
                    | None => g
                    end) (dict_keys (graph_dict g)) g) y x = Some d) as Hsym'.
  { intros x y d Hxy. apply (Hsym _ _ _ Hxy). rewrite app_nil_r.
    destruct (decide (x ∈ dict_keys (graph_dict g))); [by left | by right]. }
  split_and!; [done | | done].
  intros x y Hxy. split; [by apply Hmono|].
  destruct (Hmono _ _ Hxy) as [d Hd]. exists d. by apply Hsym'.
Qed.

Lemma make_undirected_symmetric_witness :
  let g := mkGraph [(1, [(2, 7); (3, 1)]); (2, [(1, 4)])]%Z false None in
  edge_weight (make_undirected g) 3%Z 1%Z = Some 1%Z
  ∧ edge_weight (make_undirected g) 1%Z 2%Z = Some 7%Z
  ∧ edge_weight (make_undirected g) 2%Z 1%Z = Some 7%Z.
Proof.
  intros g.
  assert (wf_graph g) as Hwf.
  { split; [apply (bool_decide_unpack _); by vm_compute|].
    repeat constructor; simpl; try (by intros ?%elem_of_nil).
    intros [=]%list_elem_of_singleton. }
  destruct (make_undirected_symmetric g Hwf) as (_ & _ & Hsym).
  split_and!.
  - apply Hsym. by vm_compute.
  - apply Hsym. by vm_compute.
  - by vm_compute.
Defined.

(** ** GraphProblem: [find_min_edge] *)

Lemma cost_le_refl c : cost_le c c.
Proof. destruct c; simpl; [lia | done]. Qed.

Lemma cost_le_trans a b c : cost_le a b → cost_le b c → cost_le a c.
Proof. destruct a, b, c; simpl; try done; lia. Qed.

Lemma cost_min_le a b : cost_le (cost_min a b) a ∧ cost_le (cost_min a b) b.
Proof.
  unfold cost_min. destruct a as [x|], b as [y|]; simpl; try done;
    try (destruct (Z.ltb_spec y x); simpl); lia.
Qed.

Lemma cost_min_cases a b : cost_min a b = a ∨ cost_min a b = b.
Proof. unfold cost_min. destruct (cost_ltb b a); auto. Qed.

Lemma find_min_edge_raised (gd : dict Z (dict Z Z)) e :
  fold_left
    (fun (acc : res cost) (kv : Z * dict Z Z) =>
       m ← acc;
       local_min ← min_list (map snd kv.2);
       Ok (cost_min m (Fin local_min)))
    gd (Raise e) = Raise e.
Proof. induction gd as [|kv gd IH]; [done|]. simpl. apply IH. Qed.

Lemma find_min_edge_fold (gd : dict Z (dict Z Z)) (acc : cost) :
  Forall (fun kv : Z * dict Z Z => kv.2 ≠ []) gd →
  ∃ m,
    fold_left
      (fun (acc : res cost) (kv : Z * dict Z Z) =>
         m ← acc;
         local_min ← min_list (map snd kv.2);
         Ok (cost_min m (Fin local_min)))
      gd (Ok acc) = Ok m
    ∧ cost_le m acc
    ∧ (∀ a links b w, (a, links) ∈ gd → (b, w) ∈ links → cost_le m (Fin w))
    ∧ (m = acc
       ∨ ∃ a links b w, (a, links) ∈ gd ∧ (b, w) ∈ links ∧ m = Fin w).
Proof.
  revert acc. induction gd as [|[a links] gd IH]; intros acc Hall.
  - exists acc. split_and!; [done | apply cost_le_refl | | by left].
    by intros ? ? ? ? ?%elem_of_nil.
  - apply Forall_cons in Hall as [Hne Hall]. simpl in Hne.
    cbn [fold_left]. simpl.
    destruct (min_list (map snd links)) as [lm|err] eqn:Hmin.
    2:{ destruct links; [done | discriminate Hmin]. }
    apply min_list_spec in Hmin as [Hin Hle]. simpl.
    apply list_elem_of_fmap in Hin as ([b0 w0] & Hw0 & Hin0). simpl in Hw0.
    subst lm.
    destruct (IH (cost_min acc (Fin w0)) Hall) as (m & -> & Hm & Hlow & Hatt).
    destruct (cost_min_le acc (Fin w0)) as [Hle1 Hle2].
    exists m. split_and!; [done | by eapply cost_le_trans | |].
    + intros a' links' b w [[= -> ->]|Hin']%elem_of_cons Hbw.
      * eapply cost_le_trans; [exact Hm|].
        eapply cost_le_trans; [exact Hle2|]. simpl. apply Hle.
        apply list_elem_of_fmap. by exists (b, w).
      * by eapply Hlow.
    + destruct Hatt as [->|(a' & links' & b & w & Hin' & Hbw & ->)].
      * destruct (cost_min_cases acc (Fin w0)) as [->| ->]; [by left|].
        right. exists a, links, b0, w0. split_and!; [left | done | done].
      * right. exists a', links', b, w. split_and!; [by right | done | done].
Qed.

Lemma find_min_edge_empty_links (gd : dict Z (dict Z Z)) (acc : res cost) a :
  (∀ e, acc = Raise e → e = ValueError) →
  (a, []) ∈ gd →
  fold_left
    (fun (acc : res cost) (kv : Z * dict Z Z) =>
       m ← acc;
       local_min ← min_list (map snd kv.2);
       Ok (cost_min m (Fin local_min)))
    gd acc = Raise ValueError.
Proof.
  revert acc. induction gd as [|[k links] gd IH]; intros acc Hacc Hin.
  - by apply elem_of_nil in Hin.
  - cbn [fold_left]. apply elem_of_cons in Hin as [[= <- <-]|Hin].
    + destruct acc as [m|e]; simpl.
      * apply find_min_edge_raised.
      * rewrite (Hacc e eq_refl). apply find_min_edge_raised.
    + apply IH; [|done]. intros e.
      destruct acc as [m|e']; simpl.
      * destruct links; simpl; [by intros [= <-] | done].
      * intros [= <-]. by apply Hacc.
Qed.

(** X6.  When every node in the adjacency dictionary has at least one
    link, [find_min_edge] returns a lower bound of all edge weights, and
    that bound is the weight of an edge, or infinite for a graph without
    edges. *)
Theorem find_min_edge_least (g : Graph) :
  wf_graph g →
  (∀ a links, dict_get (graph_dict g) a = Some links → links ≠ []) →
  ∃ m, find_min_edge g = Ok m
       ∧ (∀ a b w, edge_weight g a b = Some w → cost_le m (Fin w))
       ∧ ((m = Inf ∧ ∀ a b, edge_weight g a b = None)
          ∨ ∃ a b w, edge_weight g a b = Some w ∧ m = Fin w).
Proof.
  intros [Hnd Hall] Hne. unfold find_min_edge.
  destruct (find_min_edge_fold (graph_dict g) Inf) as (m & -> & _ & Hlow & Hatt).
  { apply Forall_forall. intros [a links] Hin. simpl.
    apply (Hne a). by apply dict_get_elem_of_NoDup. }
  assert (∀ a links b w, (a, links) ∈ graph_dict g → (b, w) ∈ links →
                         edge_weight g a b = Some w) as Hedge.
  { intros a links b w Hin Hbw. unfold edge_weight.
    rewrite (dict_get_elem_of_NoDup _ _ _ Hnd Hin).
    apply dict_get_elem_of_NoDup; [|done].
    rewrite Forall_forall in Hall. apply (Hall _ Hin). }
  exists m. split_and!; [done | |].
  - intros a b w Hw. unfold edge_weight in Hw.
    destruct (dict_get (graph_dict g) a) as [links|] eqn:Ha; [|done].
    eapply Hlow; by eapply dict_get_Some_elem_of.
  - destruct Hatt as [->|(a & links & b & w & Hin & Hbw & ->)].
    + destruct (graph_dict g) as [|[a links] gd] eqn:Hgd.
      * left. split; [done|]. intros a b. unfold edge_weight. by rewrite Hgd.
      * right. assert (links ≠ []) as Hl.
        { apply (Hne a). simpl. by rewrite decide_True. }
        destruct links as [|[b w] links]; [done|].
        exfalso. apply (Hlow a ((b, w) :: links) b w); left.
    + right. exists a, b, w. split; [by eapply Hedge | done].
Qed.

Lemma find_min_edge_least_witness :
  let g := mkGraph [(1, [(2, 7); (3, 4)]); (2, [(1, 5)])]%Z true None in
  ∃ m, find_min_edge g = Ok m ∧ cost_le m (Fin 5).
Proof.
  intros g. destruct (find_min_edge_least g) as (m & Hm & Hlow & _).
  - split; [apply (bool_decide_unpack _); by vm_compute|].
    repeat constructor; simpl; try (by intros ?%elem_of_nil).
    intros [=]%list_elem_of_singleton.
  - intros a links. simpl. repeat case_decide; by intros [= <-].
  - exists m. split; [done|]. by apply (Hlow 2%Z 1%Z).
Defined.

(** X7.  [find_min_edge] raises [ValueError] as soon as some node has an
    empty dictionary of links; [get(a)] for a node [a] that is not a key
    leaves such an entry behind, so after it [find_min_edge] raises. *)
Theorem find_min_edge_empty_links_raises (g : Graph) (a : Z) :
  (dict_get (graph_dict g) a = Some [] → find_min_edge g = Raise ValueError)
  ∧ (dict_get (graph_dict g) a = None →
       ∀ b, find_min_edge (get g a b).2 = Raise ValueError).
Proof.
  split.
  - intros Ha. unfold find_min_edge.
    apply (find_min_edge_empty_links _ _ a); [done|].
    by apply dict_get_Some_elem_of.
  - intros Ha b. unfold find_min_edge.
    apply (find_min_edge_empty_links _ _ a); [done|].
    rewrite get_graph_dict. unfold dict_setdefault. rewrite Ha. simpl.
    apply elem_of_app. right. left.
Qed.

Lemma find_min_edge_empty_links_raises_witness :
  let g := mkGraph [(1, [(2, 7)])]%Z true None in
  find_min_edge g = Ok (Fin 7)
  ∧ find_min_edge (GraphProblem_actions 2%Z g).2 = Raise ValueError.
Proof.
  intros g. split; [done|].
  rewrite (proj2 (GraphProblem_actions_value g 2%Z)).
  by apply (proj2 (find_min_edge_empty_links_raises g 2%Z)).
Defined.

(** ** Nodes: [solution] and the accumulated path cost *)

Lemma replay_snoc {State Action W : Type} (p : @Problem State Action W)
    (s : State) (acts : list Action) (a : Action) :
  replay p s (acts ++ [a])
  = replay p s acts ++ [result p (fold_left (result p) acts s) a].
Proof.
  revert s. induction acts as [|b acts IH]; intros s; [done|].
  simpl. by rewrite IH.
Qed.

(** X8.  For a node of the search tree, [solution] holds exactly [depth]
    actions, none of them the root's empty action; carrying them out one
    after the other with [result], starting from the initial state, goes
    through the states of [path], in order, and so ends in the node's
    state. *)
Theorem solution_replays {State Action W : Type}
    (p : @Problem State Action W) (n : @Node State Action) :
  built p n →
  ∃ acts : list Action,
    solution n = map Some acts
    ∧ length acts = depth n
    ∧ replay p (initial p) acts = map state (path n)
    ∧ fold_left (result p) acts (initial p) = state n.
Proof.
  induction 1 as [|n a w Hn (acts & Hsol & Hlen & Hpath & Hfold)].
  - by exists [].
  - destruct (child_node_fields n p a w) as (Hst & Hpar & Hact & Hd & _).
    exists (acts ++ [a]). split_and!.
    + rewrite solution_unfold, Hpar, Hact, Hsol. by rewrite map_app.
    + rewrite length_app, Hd, Hlen. simpl. lia.
    + rewrite replay_snoc, path_unfold, Hpar, map_app, Hpath, Hfold.
      simpl. by rewrite Hst.
    + by rewrite fold_left_app, Hfold, Hst.
Qed.

Lemma solution_replays_witness :
  let g := mkGraph [(1, [(2, 4); (3, 5)]); (2, [(3, 1)])]%Z true None in
  let p := GraphProblem 1%Z (GoalState 3%Z) in
  let n := (child_node (child_node (root_node p) p 2%Z g).1 p 3%Z g).1 in
  map state (path n) = [1; 2; 3]%Z
  ∧ ∃ acts, solution n = map Some acts ∧ length acts = 2
            ∧ replay p 1%Z acts = map state (path n)
            ∧ fold_left (result p) acts 1%Z = 3%Z.
Proof.
  intros g p n. split; [done|]. apply (solution_replays p n).
  apply built_child, built_child, built_root.
Defined.

Lemma path_weight_snoc g acc l a b :
  last l = Some a →
  path_weight g acc (l ++ [b])
  = cost_add (path_weight g acc l) (or_inf (edge_weight g a b)).
Proof.
  revert acc. induction l as [|x l IH]; intros acc; [done|].
  destruct l as [|y l].
  - simpl. by intros [= ->].
  - intros Hlast. change (last (y :: l) = Some a) in Hlast.
    change (path_weight g (cost_add acc (or_inf (edge_weight g x y)))
              ((y :: l) ++ [b])
            = cost_add
                (path_weight g (cost_add acc (or_inf (edge_weight g x y)))
                   (y :: l))
                (or_inf (edge_weight g a b))).
    by apply IH.
Qed.

(** X9.  The path cost of a node built while searching a graph is the sum,
    along the states of its [path], of the edge weights as [path_cost]
    reads them: the weight itself, or the infinite cost for a weight 0. *)
Theorem graph_node_path_cost (g : Graph) (origin : Z) (goal : Goal)
    (n : @Node Z Z) :
  wf_node (GraphProblem origin goal) (graph_actions g) (graph_grown g) n →
  path_cost n = path_weight g (Fin 0) (map state (path n)).
Proof.
  induction 1 as [|n a w Hn IH Ha Hw]; [done|].
  destruct (child_node_fields n (GraphProblem origin goal) a w)
    as (Hst & Hpar & _ & _ & Hpc).
  rewrite Hpc, path_unfold, Hpar, map_app. simpl map.
  rewrite (path_weight_snoc _ _ _ (state n)).
  2:{ pose proof (fmap_last state (path n)) as Hl.
      rewrite path_last in Hl. exact Hl. }
  simpl. rewrite GraphProblem_path_cost_value, Hst. simpl.
  by rewrite (graph_grown_edge_weight _ _ _ _ Hw), IH.
Qed.

Lemma graph_node_path_cost_witness :
  let g := mkGraph [(1, [(2, 4); (3, 5)]); (2, [(3, 0)])]%Z true None in
  let p := GraphProblem 1%Z (GoalState 3%Z) in
  let n := (child_node (child_node (root_node p) p 2%Z g).1 p 3%Z g).1 in
  path_cost n = path_weight g (Fin 0) [1; 2; 3]%Z ∧ path_cost n = Inf.
Proof.
  intros g p n. split; [|done].
  apply (graph_node_path_cost g 1%Z (GoalState 3%Z) n).
  apply wf_child; [apply wf_child; [apply wf_root | |] | |].
  - apply (bool_decide_unpack _). by vm_compute.
  - apply graph_grown_refl.
  - apply (bool_decide_unpack _). by vm_compute.
  - apply graph_grown_refl.
Defined.

(** ** GraphProblem: the heuristic is never negative and is 0 at a goal *)

Lemma res_mapM_elem {A B} (f : A → res B) (l : list A) (bs : list B) b :
  res_mapM f l = Ok bs → b ∈ bs → ∃ a, a ∈ l ∧ f a = Ok b.
Proof.
  revert bs. induction l as [|a l IH]; intros bs; simpl.
  - intros [= <-] ?%elem_of_nil. done.
  - destruct (f a) as [b0|e] eqn:Hfa; [|done]. simpl.
    destruct (res_mapM f l) as [bs0|e]; [|done]. simpl.
    intros [= <-] [->|Hin]%elem_of_cons.
    + exists a. split; [left | done].
    + destruct (IH bs0 eq_refl Hin) as (a' & Ha' & Hfa').
      exists a'. split; [by right | done].
Qed.

Lemma int_distance_nonneg a b d : int_distance a b = Ok d → (0 ≤ d)%Z.
Proof.
  intros Hd. apply floor_distance_int in Hd
    as (xA & yA & xB & yB & _ & _ & ? & _). done.
Qed.

(** X10.  A finite value of [h] is never negative, and [h] is 0 at a node
    whose state is the goal, or one of the goals, when the coordinates of
    the goals are known. *)
Theorem h_nonnegative_zero_at_goal (g : Graph) (goal : Goal) (node : Node)
    (locs : dict Z (list Z)) (x y : Z) :
  (∀ d, GraphProblem_h g goal node = Ok (Fin d) → (0 ≤ d)%Z)
  ∧ (locations g = Some locs →
     dict_get locs (state node) = Some [x; y] →
     (goal = GoalState (state node) →
        GraphProblem_h g goal node = Ok (Fin 0))
     ∧ (∀ goals, goal = GoalList goals → state node ∈ goals →
          (∀ gl, gl ∈ goals → ∃ xg yg, dict_get locs gl = Some [xg; yg]) →
          GraphProblem_h g goal node = Ok (Fin 0))).
Proof.
  split.
  - intros d. unfold GraphProblem_h.
    destruct (locations g) as [[|e l]|]; [done | | done].
    destruct goal as [|gl|goals]; simpl.
    + by destruct (dict_item (e :: l) (state node)).
    + destruct (dict_item (e :: l) (state node)) as [a|err]; simpl; [|done].
      destruct (dict_item (e :: l) gl) as [b|err]; simpl; [|done].
      destruct (int_distance a b) as [d0|err] eqn:Hd; simpl; [|done].
      intros [= <-]. by eapply int_distance_nonneg.
    + destruct (res_mapM _ goals) as [ds|err] eqn:Hds; simpl; [|done].
      destruct (min_list ds) as [m|err] eqn:Hmin; simpl; [|done].
      intros [= <-]. apply min_list_spec in Hmin as [Hin _].
      destruct (res_mapM_elem _ _ _ _ Hds Hin) as (gl & _ & Hgl).
      simpl in Hgl.
      destruct (dict_item (e :: l) (state node)) as [a|err]; [|done].
      simpl in Hgl. destruct (dict_item (e :: l) gl) as [b|err]; [|done].
      simpl in Hgl. by eapply int_distance_nonneg.
  - intros Hlocs Hnode.
    assert (locs ≠ []) as Hne by (by destruct locs).
    assert (floor_distance [x; y] [x; y] 0) as H0.
    { exists x, y, x, y. split_and!; [done | done | lia..]. }
    split.
    + intros ->. by eapply GraphProblem_h_single.
    + intros goals -> Hin Hall.
      destruct (GraphProblem_h_list g locs goals node [x; y] Hlocs Hne)
        as (m & Hm & (gl & b & Hgl & Hb & Hfd) & Hle).
      * by destruct goals; [apply elem_of_nil in Hin|].
      * done.
      * intros gl Hgl. destruct (Hall gl Hgl) as (xg & yg & Hg).
        exists [xg; yg]. eexists. split; [done|].
        apply floor_distance_int. simpl. done.
      * rewrite Hm. do 2 f_equal.
        pose proof (Hle _ _ _ Hin Hnode H0) as Hm0.
        destruct Hfd as (? & ? & ? & ? & _ & _ & ? & _). lia.
Qed.

Lemma h_nonnegative_zero_at_goal_witness :
  let locs := [(1, [0; 0]); (2, [3; 4])]%Z in
  let g := mkGraph [] true (Some locs) in
  let node := Node_init 2%Z None None (Fin 0) : @Node Z Z in
  GraphProblem_h g (GoalState 2%Z) node = Ok (Fin 0)
  ∧ GraphProblem_h g (GoalList [1; 2]%Z) node = Ok (Fin 0).
Proof.
  intros locs g node.
  destruct (proj2 (h_nonnegative_zero_at_goal g (GoalState 2%Z) node locs
                     3%Z 4%Z) eq_refl eq_refl) as [H1 _].
  destruct (proj2 (h_nonnegative_zero_at_goal g (GoalList [1; 2]%Z) node locs
                     3%Z 4%Z) eq_refl eq_refl) as [_ H2].
  split; [by apply H1|]. apply (H2 [1; 2]%Z eq_refl).
  - right. left.
  - intros gl [->|[->|?%elem_of_nil]%elem_of_cons]%elem_of_cons;
      [by exists 0%Z, 0%Z | by exists 3%Z, 4%Z | done].
Defined.

(** ** The searches: what they find and when they give up *)

Section Search_outcomes.
Context {State Action W : Type} `{Countable State}.
Variable problem : @Problem State Action W.
Variable Winv : W → Prop.
Variable acts : State → list Action.
Hypothesis Hstable : stable problem Winv acts.

Local Abbreviation config F := (@config State Action W _ _ F).
Local Abbreviation outcome F := (@outcome State Action W _ _ F).
Local Abbreviation Node := (@Node State Action).
Local Abbreviation successor := (successor problem acts).
Local Abbreviation reach := (reach problem acts).
Local Abbreviation wf_node := (wf_node problem acts Winv).

Section Machine.
Context {F : Type}.
Variable fstates : F → list State.
Variable fnodes : F → list Node.
Variable step : config F → outcome F.
Hypothesis Hshape : step_shape problem fstates step.
Hypothesis Hsees : step_sees_child fstates step.
Hypothesis Hnodes : step_nodes problem fnodes step.

Lemma closure_inv_step c c' :
  Winv (world c) → closure_inv problem acts fstates c →
  step c = Running c' → closure_inv problem acts fstates c'.
Proof using Hstable Hshape Hsees.
  intros Hw [Hinit Hcl] Hs.
  destruct (Hshape c c' Hs) as
    [(child & rest & Hp & Hp' & He & Hw' & Hfr) | (node & Hp & Hfr & He & Hx)].
  - assert (∀ s, s ∈ fstates (frontier c) → s ∈ fstates (frontier c')) as Hsub.
    { intros s Hin. destruct Hfr as [Hfr | (_ & _ & Hfr)]; rewrite Hfr; [done|].
      apply elem_of_app. by left. }
    split.
    + rewrite He. destruct Hinit; auto.
    + intros s s' Hin Hss. rewrite He in *. rewrite Hp'.
      destruct (Hcl _ _ Hin Hss) as [?|[?|Hpend]]; auto.
      rewrite Hp in Hpend. simpl in Hpend.
      apply elem_of_cons in Hpend as [->|?]; auto.
      destruct (Hsees c c' child rest Hs Hp) as [Hc|Hc]; auto.
      rewrite He in Hc. auto.
  - assert (∀ s, s ∈ fstates (frontier c) →
                 s ∈ explored c' ∨ s ∈ fstates (frontier c')) as Hsub.
    { intros s Hin. rewrite Hfr in Hin. rewrite He.
      apply elem_of_cons in Hin as [->|?]; [left|by right].
      apply elem_of_union. left. by apply elem_of_singleton. }
    assert (pending c' = (expand node problem (world c)).1) as Hpend
      by (by rewrite <- Hx).
    split.
    + destruct Hinit as [Hin|Hin]; [left; rewrite He|by apply Hsub].
      apply elem_of_union. by right.
    + intros s s' Hin Hss. rewrite He in Hin.
      apply elem_of_union in Hin as [->%elem_of_singleton|Hin].
      * right. right. rewrite Hpend.
        by apply (successor_expand problem Winv acts Hstable).
      * destruct (Hcl _ _ Hin Hss) as [?|[?|Hnil]].
        -- left. rewrite He. apply elem_of_union. by right.
        -- destruct (Hsub s'); auto.
        -- rewrite Hp in Hnil. by apply elem_of_nil in Hnil.
Qed.

Lemma closure_inv_reachable c0 c :
  domain_inv problem acts Winv fstates c0 →
  closure_inv problem acts fstates c0 →
  reachable step c0 c → closure_inv problem acts fstates c.
Proof using Hstable Hshape Hsees.
  intros Hd0 Hc0 Hc.
  assert (domain_inv problem acts Winv fstates c
          ∧ closure_inv problem acts fstates c) as [_ ?]; [|done].
  revert c Hc. apply reachable_invariant; [done|].
  intros c c' [Hd Hcl] Hs. split.
  - by eapply domain_inv_step.
  - eapply closure_inv_step; [|done|done]. by destruct Hd.
Qed.

Lemma closure_inv_exhausted c :
  closure_inv problem acts fstates c →
  pending c = [] → fstates (frontier c) = [] →
  ∀ s, reach s → s ∈ explored c.
Proof.
  intros [Hinit Hcl] Hp HF. rewrite HF, Hp in *.
  induction 1 as [|s s' Hs IH Hss].
  - destruct Hinit as [?|Hnil]; [done | by apply elem_of_nil in Hnil].
  - destruct (Hcl _ _ IH Hss) as [?|[Hnil|Hnil]]; [done | |];
      by apply elem_of_nil in Hnil.
Qed.

Lemma nodes_inv_step c c' :
  Winv (world c) → nodes_inv problem acts Winv fnodes c →
  step c = Running c' → nodes_inv problem acts Winv fnodes c'.
Proof using Hstable Hnodes.
  intros Hw [Hfr Hpe] Hs.
  destruct (Hnodes c c' Hs) as
    [(child & rest & Hp & Hp' & Hin) | (node & Hp & Hnode & Hin & Hx)].
  - split.
    + intros n Hn. destruct (Hin n Hn) as [?| ->]; [by apply Hfr|].
      apply Hpe. rewrite Hp. left.
    + intros n Hn. apply Hpe. rewrite Hp, <- Hp'. by right.
  - split.
    + intros n Hn. by apply Hfr, Hin.
    + intros n Hn.
      assert (pending c' = (expand node problem (world c)).1) as Hpend
        by (by rewrite <- Hx).
      rewrite Hpend in Hn.
      by apply (expand_wf problem Winv acts Hstable node (world c) n Hw);
        [apply Hfr|].
Qed.

Lemma nodes_inv_reachable c0 c :
  domain_inv problem acts Winv fstates c0 →
  nodes_inv problem acts Winv fnodes c0 →
  reachable step c0 c → nodes_inv problem acts Winv fnodes c.
Proof using Hstable Hshape Hnodes.
  intros Hd0 Hc0 Hc.
  assert (domain_inv problem acts Winv fstates c
          ∧ nodes_inv problem acts Winv fnodes c) as [_ ?]; [|done].
  revert c Hc. apply reachable_invariant; [done|].
  intros c c' [Hd Hcl] Hs. split.
  - by eapply domain_inv_step.
  - eapply nodes_inv_step; [|done|done]. by destruct Hd.
Qed.

Lemma explored_non_goals_reachable c0 c :
  explores_non_goals problem step → explored c0 = ∅ →
  reachable step c0 c → ∀ s, s ∈ explored c → goal_test problem s = false.
Proof.
  intros Hpop H0. revert c.
  apply (reachable_invariant step c0
           (fun c => ∀ s, s ∈ explored c → goal_test problem s = false)).
  - intros s. rewrite H0. by intros ?%not_elem_of_empty.
  - intros c c' IH Hs s Hin.
    destruct (Hpop c c' s Hs Hin) as [?|?]; auto.
Qed.

Hypothesis Hreturns : step_returns problem fstates fnodes step.

Variable c0 : config F.
Hypothesis Hdom0 : domain_inv problem acts Winv fstates c0.
Hypothesis Hfr0 : frontier_inv fstates c0.
Hypothesis Hcl0 : closure_inv problem acts fstates c0.
Hypothesis Hnodes0 : nodes_inv problem acts Winv fnodes c0.

(** A returned node passes the goal test and was built by the search. *)
Lemma machine_sound fuel r w n :
  run step fuel c0 = Some (r, w) → result_node r = Some n →
  goal_test problem (state n) = true ∧ wf_node n.
Proof using Hstable Hshape Hnodes Hreturns Hdom0 Hnodes0.
  intros Hrun Hn. apply run_reachable in Hrun as (c & Hc & Hret).
  destruct (nodes_inv_reachable _ _ Hdom0 Hnodes0 Hc) as [Hfr Hpe].
  destruct (Hreturns c r w Hret) as [(-> & _) | (n' & -> & Hg & _ & Hin)];
    [done|].
  injection Hn as ->. split; [done|]. destruct Hin; auto.
Qed.

(** Without a reachable goal state the machine stops with the number of
    reachable states. *)
Lemma machine_failure (U : gset State) :
  (∀ s, s ∈ U ↔ reach s) →
  (∀ s, reach s → goal_test problem s = false) →
  ∃ fuel0 w, ∀ fuel, fuel0 ≤ fuel →
    run step fuel c0 = Some (CountOnly (size U), w).
Proof using Hstable Hshape Hsees Hreturns Hdom0 Hfr0 Hcl0.
  intros HU Hnogoal.
  destruct (run_terminates problem Winv acts Hstable fstates step U Hshape
              (fun s Hs => proj2 (HU s) Hs) c0 Hfr0 Hdom0)
    as (fuel0 & r & w & Hrun).
  exists fuel0, w. intros fuel Hfuel.
  rewrite (run_more_fuel _ _ _ _ _ Hrun Hfuel). do 2 f_equal.
  apply run_reachable in Hrun as (c & Hc & Hret).
  pose proof (domain_inv_reachable problem Winv acts Hstable fstates step
                c0 c Hshape Hdom0 Hc) as (_ & Hdfr & Hdex & Hdpe).
  pose proof (closure_inv_reachable _ _ Hdom0 Hcl0 Hc) as Hcl.
  destruct (Hreturns c r w Hret)
    as [(-> & Hp & HF) | (n & -> & Hg & Hin & _)].
  - f_equal. f_equal. apply set_eq. intros s. rewrite HU. split; [apply Hdex|].
    by apply closure_inv_exhausted.
  - rewrite Hnogoal in Hg; [done|]. destruct Hin as [?|?]; auto.
Qed.

(** With a reachable goal state, on a finite domain, a machine that
    explores only states failing the goal test stops with a goal node. *)
Lemma machine_complete (U : gset State) :
  explores_non_goals problem step → explored c0 = ∅ →
  (∀ s, reach s → s ∈ U) →
  (∃ s, reach s ∧ goal_test problem s = true) →
  ∃ fuel0 n k w,
    (∀ fuel, fuel0 ≤ fuel →
       run step fuel c0 = Some (NodeAndCount n k, w))
    ∧ goal_test problem (state n) = true ∧ wf_node n.
Proof using Hstable Hshape Hsees Hnodes Hreturns Hdom0 Hfr0 Hcl0 Hnodes0.
  intros Hpop He0 HU (sg & Hsg & Hgoal).
  destruct (run_terminates problem Winv acts Hstable fstates step U Hshape
              HU c0 Hfr0 Hdom0) as (fuel0 & r & w & Hrun).
  pose proof Hrun as Hrun'.
  apply run_reachable in Hrun' as (c & Hc & Hret).
  pose proof (closure_inv_reachable _ _ Hdom0 Hcl0 Hc) as Hcl.
  destruct (Hreturns c r w Hret)
    as [(-> & Hp & HF) | (n & -> & Hg & _ & _)].
  - pose proof (closure_inv_exhausted _ Hcl Hp HF sg Hsg) as Hin.
    rewrite (explored_non_goals_reachable c0 c Hpop He0 Hc sg Hin) in Hgoal.
    done.
  - exists fuel0, n, (size (explored c)), w. split.
    + intros fuel Hfuel. by eapply run_more_fuel.
    + by eapply machine_sound.
Qed.

End Machine.

End Search_outcomes.

Section Three_searches.
Context {State Action W : Type} `{Countable State}.
Variable state_ltb : State → State → bool.
Variable problem : @Problem State Action W.

Local Abbreviation config F := (@config State Action W _ _ F).
Local Abbreviation Node := (@Node State Action).
Local Abbreviation PriorityQueue := (@PriorityQueue State Action).

Lemma dfs_step_sees_child : step_sees_child (map state) (dfs_step problem).
Proof.
  intros c c' child rest Hs Hp. unfold dfs_step in Hs. rewrite Hp in Hs.
  destruct (bool_decide (state child ∉ explored c)
            && negb (node_in child (frontier c))) eqn:Htest;
    injection Hs as <-; simpl.
  - right. rewrite map_app, elem_of_app. right. left.
  - apply andb_false_iff in Htest as [Hex|Hin].
    + apply bool_decide_eq_false in Hex. left. by apply dec_stable.
    + apply negb_false_iff, node_in_spec in Hin. by right.
Qed.

Lemma bfs_step_sees_child : step_sees_child (map state) (bfs_step problem).
Proof.
  intros c c' child rest Hs Hp. unfold bfs_step in Hs. rewrite Hp in Hs.
  destruct (bool_decide (state child ∉ explored c)
            && negb (node_in child (frontier c))) eqn:Htest.
  - destruct (goal_test problem (state child)); [done|].
    injection Hs as <-; simpl.
    right. rewrite map_app, elem_of_app. right. left.
  - injection Hs as <-; simpl.
    apply andb_false_iff in Htest as [Hex|Hin].
    + apply bool_decide_eq_false in Hex. left. by apply dec_stable.
    + apply negb_false_iff, node_in_spec in Hin. by right.
Qed.

Lemma bf_step_sees_child f :
  step_sees_child pq_states (bf_step state_ltb problem f).
Proof.
  intros c c' child rest Hs Hp. unfold bf_step in Hs. rewrite Hp in Hs.
  destruct (bool_decide (state child ∉ explored c)
            && negb (pq_contains (frontier c) child)) eqn:Htest.
  - injection Hs as <-; simpl.
    right. rewrite pq_states_append, elem_of_app. right. left.
  - destruct (pq_contains (frontier c) child) eqn:Hin.
    + apply pq_contains_spec in Hin.
      destruct (pq_getitem (frontier c) child) as [queued|];
        [destruct (cost_ltb (f child) queued)|];
        injection Hs as <-; simpl; auto.
      right. rewrite pq_states_append, elem_of_app. right. left.
    + injection Hs as <-; simpl. rewrite andb_true_r in Htest.
      apply bool_decide_eq_false in Htest. left. by apply dec_stable.
Qed.

Lemma dfs_step_nodes : step_nodes problem id (dfs_step problem).
Proof.
  intros c c' Hs. unfold dfs_step in Hs.
  destruct (pending c) as [|child rest] eqn:Hp.
  - right. destruct (list_pop (frontier c)) as [[node fr]|] eqn:Hpop; [|done].
    destruct (goal_test problem (state node)); [done|].
    destruct (expand node problem (world c)) as [children w] eqn:He.
    injection Hs as <-. exists node. simpl.
    apply list_pop_Some in Hpop. rewrite Hpop.
    split_and!; [done | | | done].
    + apply elem_of_app. right. left.
    + intros n Hn. apply elem_of_app. by left.
  - left. exists child, rest.
    destruct (_ && _); injection Hs as <-; simpl; split_and!; auto.
    intros n [?| ->%list_elem_of_singleton]%elem_of_app; auto.
Qed.

Lemma bfs_step_nodes : step_nodes problem id (bfs_step problem).
Proof.
  intros c c' Hs. unfold bfs_step in Hs.
  destruct (pending c) as [|child rest] eqn:Hp.
  - right. destruct (frontier c) as [|node fr] eqn:Hfr; [done|].
    destruct (expand node problem (world c)) as [children w] eqn:He.
    injection Hs as <-. exists node. simpl.
    split_and!; [done | left | | done]. intros n Hn. by right.
  - left. exists child, rest.
    destruct (_ && _).
    + destruct (goal_test problem (state child)); [done|].
      injection Hs as <-; simpl; split_and!; auto.
      intros n [?| ->%list_elem_of_singleton]%elem_of_app; auto.
    + injection Hs as <-; simpl; split_and!; auto.
Qed.

Lemma pq_nodes_delitem (q : PriorityQueue) x n :
  n ∈ pq_nodes (pq_delitem q x) → n ∈ pq_nodes q.
Proof.
  unfold pq_nodes. induction q as [|e q IH]; simpl; [done|].
  destruct (Node_eqb e.2 x); simpl.
  - intros ?. by right.
  - intros [->|?]%elem_of_cons; [left | right; auto].
Qed.

Lemma bf_step_nodes f : step_nodes problem pq_nodes (bf_step state_ltb problem f).
Proof.
  intros c c' Hs. unfold bf_step in Hs.
  destruct (pending c) as [|child rest] eqn:Hp.
  - right.
    destruct (pq_pop state_ltb (frontier c)) as [[node fr]|] eqn:Hpop; [|done].
    destruct (goal_test problem (state node)); [done|].
    destruct (expand node problem (world c)) as [children w] eqn:He.
    injection Hs as <-. exists node. simpl.
    apply pq_pop_Some in Hpop as [k Hperm]. unfold pq_nodes.
    split_and!; [done | | | done].
    + rewrite Hperm. left.
    + intros n Hn. rewrite Hperm. by right.
  - left. exists child, rest.
    assert (∀ q n, n ∈ pq_nodes (pq_append f q child) →
                   n ∈ pq_nodes q ∨ n = child) as Happ.
    { intros q n. unfold pq_nodes, pq_append. rewrite map_app. simpl.
      intros [?| ->%list_elem_of_singleton]%elem_of_app; auto. }
    destruct (_ && _); [injection Hs as <-; simpl; split_and!; auto|].
    destruct (pq_contains _ _); [|injection Hs as <-; simpl; split_and!; auto].
    destruct (pq_getitem _ _);  [|injection Hs as <-; simpl; split_and!; auto].
    destruct (cost_ltb _ _); injection Hs as <-; simpl; split_and!; auto.
    intros n Hn. destruct (Happ _ _ Hn) as [Hd|?]; auto.
    left. by eapply pq_nodes_delitem.
Qed.

Lemma dfs_explores_non_goals : explores_non_goals problem (dfs_step problem).
Proof.
  intros c c' s Hs. unfold dfs_step in Hs.
  destruct (pending c) as [|child rest].
  - destruct (list_pop (frontier c)) as [[node fr]|]; [|done].
    destruct (goal_test problem (state node)) eqn:Hg; [done|].
    destruct (expand node problem (world c)) as [children w].
    injection Hs as <-. simpl.
    intros [->%elem_of_singleton|?]%elem_of_union; auto.
  - destruct (_ && _); injection Hs as <-; simpl; auto.
Qed.

Lemma bf_explores_non_goals f :
  explores_non_goals problem (bf_step state_ltb problem f).
Proof.
  intros c c' s Hs. unfold bf_step in Hs.
  destruct (pending c) as [|child rest].
  - destruct (pq_pop state_ltb (frontier c)) as [[node fr]|]; [|done].
    destruct (goal_test problem (state node)) eqn:Hg; [done|].
    destruct (expand node problem (world c)) as [children w].
    injection Hs as <-. simpl.
    intros [->%elem_of_singleton|?]%elem_of_union; auto.
  - destruct (_ && _); [injection Hs as <-; simpl; auto|].
    destruct (pq_contains _ _); [|injection Hs as <-; simpl; auto].
    destruct (pq_getitem _ _);  [|injection Hs as <-; simpl; auto].
    destruct (cost_ltb _ _); injection Hs as <-; simpl; auto.
Qed.

Lemma dfs_step_returns : step_returns problem (map state) id (dfs_step problem).
Proof.
  intros c r w Hs. apply dfs_step_returned in Hs
    as (_ & Hp & [[-> HF] | (node & fr & -> & HF & Hg)]).
  - left. by rewrite HF.
  - right. exists node. rewrite HF. split_and!; [done | done | |]; left.
    + rewrite map_app, elem_of_app. right. left.
    + apply elem_of_app. right. left.
Qed.

Lemma bfs_step_returns : step_returns problem (map state) id (bfs_step problem).
Proof.
  intros c r w Hs. apply bfs_step_returned in Hs
    as (_ & [(-> & Hp & HF) | (child & rest & -> & Hp & Hg & _)]).
  - left. by rewrite HF.
  - right. exists child. rewrite Hp. split_and!; [done | done | |]; right; left.
Qed.

Lemma bf_step_returns f :
  step_returns problem pq_states pq_nodes (bf_step state_ltb problem f).
Proof.
  intros c r w Hs. unfold bf_step in Hs.
  destruct (pending c) as [|child rest] eqn:Hp.
  - destruct (pq_pop state_ltb (frontier c)) as [[node fr]|] eqn:Hpop.
    + destruct (goal_test problem (state node)) eqn:Hg.
      * injection Hs as <- <-. right. exists node.
        apply pq_pop_Some in Hpop as [k Hperm].
        unfold pq_states, pq_nodes. rewrite Hperm. simpl.
        split_and!; [done | done | |]; left; left.
      * by destruct (expand node problem (world c)).
    + injection Hs as <- <-. left. apply pq_pop_None in Hpop.
      by rewrite Hpop.
  - destruct (_ && _); [done|]. destruct (pq_contains _ _); [|done].
    destruct (pq_getitem _ _); [|done]. by destruct (cost_ltb _ _).
Qed.

Lemma dfs_init_closure_inv acts w :
  closure_inv problem acts (map state) (dfs_init problem w).
Proof.
  split; simpl.
  - right. left.
  - by intros s s' ?%not_elem_of_empty.
Qed.

Lemma bf_init_closure_inv acts f w :
  closure_inv problem acts pq_states (bf_init problem f w).
Proof.
  split; simpl.
  - right. left.
  - by intros s s' ?%not_elem_of_empty.
Qed.

Lemma dfs_init_nodes_inv Winv acts w :
  nodes_inv problem acts Winv id (dfs_init problem w).
Proof.
  split; simpl.
  - intros n ->%list_elem_of_singleton. constructor.
  - by intros n ?%elem_of_nil.
Qed.

Lemma bf_init_nodes_inv Winv acts f w :
  nodes_inv problem acts Winv pq_nodes (bf_init problem f w).
Proof.
  split; simpl.
  - intros n ->%list_elem_of_singleton. constructor.
  - by intros n ?%elem_of_nil.
Qed.

End Three_searches.

Section Search_theorems.
Context {State Action W : Type} `{Countable State}.
Variable state_ltb : State → State → bool.
Variable problem : @Problem State Action W.
Variable Winv : W → Prop.
Variable acts : State → list Action.

Local Abbreviation config F := (@config State Action W _ _ F).
Local Abbreviation Node := (@Node State Action).

(** X11.  In each of the three searches a state in the frontier is never
    an explored state, in every configuration the search goes through: no
    state is expanded twice. *)
Theorem frontier_never_explored (f : Node → cost) (w0 : W) :
  (∀ c s, reachable (dfs_step problem) (dfs_init problem w0) c →
          s ∈ map state (frontier c) → s ∉ explored c)
  ∧ (∀ c s, reachable (bfs_step problem) (bfs_init problem w0) c →
            s ∈ map state (frontier c) → s ∉ explored c)
  ∧ (∀ c s, reachable (bf_step state_ltb problem f) (bf_init problem f w0) c →
            s ∈ pq_states (frontier c) → s ∉ explored c).
Proof.
  split_and!; intros c s Hc.
  - by apply (frontier_inv_reachable problem (map state) _ _ _
                (dfs_step_shape problem) (dfs_init_frontier_inv problem w0) Hc).
  - by apply (frontier_inv_reachable problem (map state) _ _ _
                (bfs_step_shape problem) (dfs_init_frontier_inv problem w0) Hc).
  - by apply (frontier_inv_reachable problem pq_states _ _ _
                (bf_step_shape state_ltb problem f)
                (bf_init_frontier_inv problem f w0) Hc).
Qed.

(** X12.  Whatever node a search returns passes the goal test, and the
    states along its [path] lead from the initial state to the node's
    state by transitions of the problem, one per unit of depth. *)
Theorem search_result_sound (f : Node → cost) (w0 w : W) (fuel : nat)
    (r : search_result) (n : Node) :
  stable problem Winv acts → Winv w0 →
  depth_first_graph_search problem fuel w0 = Some (r, w)
  ∨ breadth_first_graph_search problem fuel w0 = Some (r, w)
  ∨ best_first_graph_search state_ltb problem f fuel w0 = Some (r, w) →
  result_node r = Some n →
  goal_test problem (state n) = true
  ∧ is_path (successor problem acts) (initial problem) (state n)
            (map state (path n))
  ∧ length (path n) = depth n + 1.
Proof.
  intros Hstable Hw0 Hrun Hn.
  assert (goal_test problem (state n) = true
          ∧ wf_node problem acts Winv n) as [Hg Hwf].
  { destruct Hrun as [Hrun | [Hrun | Hrun]].
    - apply (machine_sound problem Winv acts Hstable (map state) id
               (dfs_step problem) (dfs_step_shape problem)
               (dfs_step_nodes problem) (dfs_step_returns problem)
               (dfs_init problem w0)
               (dfs_init_domain_inv problem Winv acts w0 Hw0)
               (dfs_init_nodes_inv problem Winv acts w0) fuel r w n Hrun Hn).
    - unfold breadth_first_graph_search in Hrun. simpl in Hrun.
      destruct (goal_test problem (initial problem)) eqn:Hg0.
      + injection Hrun as <- _. injection Hn as <-. split; [done | constructor].
      + apply (machine_sound problem Winv acts Hstable (map state) id
                 (bfs_step problem) (bfs_step_shape problem)
                 (bfs_step_nodes problem) (bfs_step_returns problem)
                 (bfs_init problem w0)
                 (dfs_init_domain_inv problem Winv acts w0 Hw0)
                 (dfs_init_nodes_inv problem Winv acts w0) fuel r w n Hrun Hn).
    - apply (machine_sound problem Winv acts Hstable pq_states pq_nodes
               (bf_step state_ltb problem f) (bf_step_shape state_ltb problem f)
               (bf_step_nodes state_ltb problem f)
               (bf_step_returns state_ltb problem f)
               (bf_init problem f w0)
               (bf_init_domain_inv problem Winv acts f w0 Hw0)
               (bf_init_nodes_inv problem Winv acts f w0) fuel r w n Hrun Hn). }
  destruct (wf_node_path problem Winv acts n Hwf) as [Hpath Hlen].
  split_and!; [done | done | lia].
Qed.

(** X13.  On a finite domain in which a goal state can be reached,
    [depth_first_graph_search] and [best_first_graph_search] (whatever
    [f]) return a goal node with a count: they neither run on nor give
    up. *)
Theorem dfs_best_first_complete (f : Node → cost) (U : gset State) (w0 : W) :
  stable problem Winv acts → Winv w0 →
  (∀ s, reach problem acts s → s ∈ U) →
  (∃ s, reach problem acts s ∧ goal_test problem s = true) →
  (∃ fuel0 n k w,
      (∀ fuel, fuel0 ≤ fuel →
         depth_first_graph_search problem fuel w0
         = Some (NodeAndCount n k, w))
      ∧ goal_test problem (state n) = true)
  ∧ (∃ fuel0 n k w,
       (∀ fuel, fuel0 ≤ fuel →
          best_first_graph_search state_ltb problem f fuel w0
          = Some (NodeAndCount n k, w))
       ∧ goal_test problem (state n) = true).
Proof.
  intros Hstable Hw0 HU Hgoal. split.
  - destruct (machine_complete problem Winv acts Hstable (map state) id
                (dfs_step problem) (dfs_step_shape problem)
                (dfs_step_sees_child problem)
                (dfs_step_nodes problem) (dfs_step_returns problem)
                (dfs_init problem w0)
                (dfs_init_domain_inv problem Winv acts w0 Hw0)
                (dfs_init_frontier_inv problem w0)
                (dfs_init_closure_inv problem acts w0)
                (dfs_init_nodes_inv problem Winv acts w0) U
                (dfs_explores_non_goals problem) eq_refl HU Hgoal)
      as (fuel0 & n & k & w & Hrun & Hg & _).
    by exists fuel0, n, k, w.
  - destruct (machine_complete problem Winv acts Hstable pq_states pq_nodes
                (bf_step state_ltb problem f)
                (bf_step_shape state_ltb problem f)
                (bf_step_sees_child state_ltb problem f)
                (bf_step_nodes state_ltb problem f)
                (bf_step_returns state_ltb problem f)
                (bf_init problem f w0)
                (bf_init_domain_inv problem Winv acts f w0 Hw0)
                (bf_init_frontier_inv problem f w0)
                (bf_init_closure_inv problem acts f w0)
                (bf_init_nodes_inv problem Winv acts f w0) U
                (bf_explores_non_goals state_ltb problem f) eq_refl HU Hgoal)
      as (fuel0 & n & k & w & Hrun & Hg & _).
    by exists fuel0, n, k, w.
Qed.

(** X14.  On a finite domain in which no goal state can be reached, each
    of the three searches returns the bare count, and the count is the
    number of states reachable from the initial state. *)
Theorem search_failure_counts_reachable (f : Node → cost) (U : gset State)
    (w0 : W) :
  stable problem Winv acts → Winv w0 →
  (∀ s, s ∈ U ↔ reach problem acts s) →
  (∀ s, reach problem acts s → goal_test problem s = false) →
  ∃ fuel0, ∀ fuel, fuel0 ≤ fuel →
    (∃ w, depth_first_graph_search problem fuel w0
          = Some (CountOnly (size U), w))
    ∧ (∃ w, breadth_first_graph_search problem fuel w0
            = Some (CountOnly (size U), w))
    ∧ (∃ w, best_first_graph_search state_ltb problem f fuel w0
            = Some (CountOnly (size U), w)).
Proof.
  intros Hstable Hw0 HU Hnogoal.
  destruct (machine_failure problem Winv acts Hstable (map state) id
              (dfs_step problem) (dfs_step_shape problem)
              (dfs_step_sees_child problem) (dfs_step_returns problem)
              (dfs_init problem w0)
              (dfs_init_domain_inv problem Winv acts w0 Hw0)
              (dfs_init_frontier_inv problem w0)
              (dfs_init_closure_inv problem acts w0) U HU Hnogoal)
    as (fuel1 & w1 & Hrun1).
  destruct (machine_failure problem Winv acts Hstable (map state) id
              (bfs_step problem) (bfs_step_shape problem)
              (bfs_step_sees_child problem) (bfs_step_returns problem)
              (bfs_init problem w0)
              (dfs_init_domain_inv problem Winv acts w0 Hw0)
              (dfs_init_frontier_inv problem w0)
              (dfs_init_closure_inv problem acts w0) U HU Hnogoal)
    as (fuel2 & w2 & Hrun2).
  destruct (machine_failure problem Winv acts Hstable pq_states pq_nodes
              (bf_step state_ltb problem f)
              (bf_step_shape state_ltb problem f)
              (bf_step_sees_child state_ltb problem f)
              (bf_step_returns state_ltb problem f)
              (bf_init problem f w0)
              (bf_init_domain_inv problem Winv acts f w0 Hw0)
              (bf_init_frontier_inv problem f w0)
              (bf_init_closure_inv problem acts f w0) U HU Hnogoal)
    as (fuel3 & w3 & Hrun3).
  exists (fuel1 `max` (fuel2 `max` fuel3)). intros fuel Hfuel. split_and!.
  - exists w1. apply Hrun1. lia.
  - exists w2. unfold breadth_first_graph_search. simpl.
    rewrite (Hnogoal (initial problem)) by constructor.
    apply Hrun2. lia.
  - exists w3. apply Hrun3. lia.
Qed.

End Search_theorems.

Lemma search_result_sound_witness :
  let g := mkGraph [(1, [(2, 4); (3, 5)]); (2, [(4, 1)]); (3, [(4, 1)])]%Z
                   true None in
  let p := GraphProblem 1%Z (GoalState 4%Z) in
  ∃ n k g',
    depth_first_graph_search p 20 g = Some (NodeAndCount n k, g')
    ∧ state n = 4%Z
    ∧ is_path (graph_edge g) 1%Z 4%Z (map state (path n)).
Proof.
  intros g p.
  destruct (depth_first_graph_search p 20 g) as [[[n0|n k|k] g']|] eqn:Hrun;
    try (by vm_compute in Hrun).
  exists n, k, g'. split; [done|].
  destruct (search_result_sound Z.ltb p (graph_grown g) (graph_actions g)
              (fun _ => Inf) g g' 20 (NodeAndCount n k) n) as (Hg & Hpath & _).
  - apply GraphProblem_stable.
  - apply graph_grown_refl.
  - by left.
  - done.
  - apply bool_decide_eq_true in Hg. split; [done|].
    rewrite <- Hg. by apply (GraphProblem_is_path g 1%Z (GoalState 4%Z)).
Defined.

Lemma dfs_best_first_complete_witness :
  let g := mkGraph [(1, [(2, 4); (3, 5)]); (2, [(4, 1)]); (3, [(4, 1)])]%Z
                   true None in
  let p := GraphProblem 1%Z (GoalState 4%Z) in
  ∃ fuel0 n k w,
    (∀ fuel, fuel0 ≤ fuel →
       best_first_graph_search Z.ltb p (fun n => path_cost n) fuel g
       = Some (NodeAndCount n k, w))
    ∧ goal_test p (state n) = true.
Proof.
  intros g p.
  apply (dfs_best_first_complete Z.ltb p (graph_grown g) (graph_actions g)
           (fun n => path_cost n) (list_to_set (1 :: nodes g)%Z) g).
  - apply GraphProblem_stable.
  - apply graph_grown_refl.
  - intros s. apply GraphProblem_reach_nodes.
  - exists 4%Z. split; [|done].
    apply (reach_successor p _ 2%Z).
    + apply (reach_successor p _ 1%Z); [apply reach_initial|].
      exists 2%Z. split; [|done]. apply (bool_decide_unpack _). by vm_compute.
    + exists 4%Z. split; [|done]. apply (bool_decide_unpack _). by vm_compute.
Defined.

Lemma search_failure_counts_reachable_witness :
  let g := mkGraph [(1, [(2, 1)]); (2, [(1, 1)])]%Z true None in
  let p := GraphProblem 1%Z (GoalState 9%Z) in
  ∃ fuel0, ∀ fuel, fuel0 ≤ fuel →
    (∃ w, depth_first_graph_search p fuel g = Some (CountOnly 2, w))
    ∧ (∃ w, breadth_first_graph_search p fuel g = Some (CountOnly 2, w))
    ∧ (∃ w, best_first_graph_search Z.ltb p (fun _ => Inf) fuel g
            = Some (CountOnly 2, w)).
Proof.
  intros g p.
  assert (∀ s, s ∈ ({[1%Z; 2%Z]} : gset Z) ↔ reach p (graph_actions g) s)
    as HU.
  { intros s. split.
    - intros [->%elem_of_singleton| ->%elem_of_singleton]%elem_of_union.
      + apply reach_initial.
      + apply (reach_successor p _ 1%Z); [apply reach_initial|].
        exists 2%Z. split; [|done]. apply (bool_decide_unpack _). by vm_compute.
    - intros Hs. apply GraphProblem_reach_nodes in Hs.
      apply elem_of_list_to_set in Hs. vm_compute nodes in Hs.
      apply elem_of_cons in Hs as [->|Hs]; [set_solver|].
      apply elem_of_cons in Hs as [->|Hs]; [set_solver|].
      apply elem_of_cons in Hs as [->|Hs]; [set_solver|].
      by apply elem_of_nil in Hs. }
  assert (size ({[1%Z; 2%Z]} : gset Z) = 2) as Hsz by (by vm_compute).
  rewrite <- Hsz.
  apply (search_failure_counts_reachable Z.ltb p (graph_grown g)
           (graph_actions g) (fun _ => Inf) {[1%Z; 2%Z]} g).
  - apply GraphProblem_stable.
  - apply graph_grown_refl.
  - exact HU.
  - intros s Hs. apply HU in Hs. apply bool_decide_eq_false.
    intros ->. revert Hs. apply (bool_decide_unpack _). by vm_compute.
Defined.

(** ** The loader: skipped lines, errors, origin and destinations *)

(** X15.  The loader skips a blank line wherever it stands, and skips
    without reading it any line that comes before the first section
    header: the file loads as it would without that line. *)
Theorem loader_skips_lines (raw : string) (l1 l2 : list string) :
  (strip (list_ascii_of_string raw) = [] →
     load_graph_from_file (l1 ++ raw :: l2) = load_graph_from_file (l1 ++ l2))
  ∧ (line_header (strip (list_ascii_of_string raw)) = None →
       load_graph_from_file (raw :: l2) = load_graph_from_file l2).
Proof.
  unfold load_graph_from_file. split.
  - intros Hblank. rewrite !load_lines_app.
    destruct (load_lines _ l1) as [st1|e]; [|done]. simpl.
    by rewrite (load_line_blank _ _ Hblank).
  - intros Hhead. simpl. by rewrite load_line_no_section.
Qed.

Lemma loader_skips_lines_witness :
  let rest := ["Nodes:"; "1: (0,0)"; "Edges:"; "(1,1): 2"]%string in
  load_graph_from_file ("junk ( before: header"%string :: rest)
  = load_graph_from_file rest
  ∧ load_graph_from_file (["Nodes:"%string] ++ "   "%string :: tail rest)
    = load_graph_from_file (["Nodes:"%string] ++ tail rest).
Proof.
  intros rest. split.
  - by apply (proj2 (loader_skips_lines "junk ( before: header" [] rest)).
  - by apply (proj1 (loader_skips_lines "   " ["Nodes:"%string] (tail rest))).
Defined.

Lemma res_mapM_int_raises l e :
  res_mapM int l = Raise e → e = ValueError.
Proof.
  revert e. induction l as [|x l IH]; intros e; simpl; [done|].
  destruct (int x) as [z|e'] eqn:Hx; simpl.
  - destruct (res_mapM int l) as [zs|e2]; simpl; [done|].
    intros [= <-]. by apply IH.
  - intros [= <-]. by eapply int_raises_ValueError.
Qed.

(** X16.  A line of the section [Nodes:] or [Edges:] that has no colon
    makes the whole load fail, whatever follows it: with [IndexError] when
    the text parses as what stands before the colon (a node id, or two
    endpoints), with [ValueError] when it does not. *)
Theorem loader_missing_colon (l1 l2 : list string) (raw : string)
    (st1 : loader_state) :
  let line := strip (list_ascii_of_string raw) in
  load_lines (mkLoader None [] [] None []) l1 = Ok st1 →
  line ≠ [] → line_header line = None → (":"%char ∉ line) →
  (ld_section st1 = Some SecNodes →
     load_graph_from_file (l1 ++ raw :: l2)
     = Raise (match int line with
              | Ok _ => IndexError
              | Raise _ => ValueError
              end))
  ∧ (ld_section st1 = Some SecEdges →
       load_graph_from_file (l1 ++ raw :: l2)
       = Raise (match res_mapM int
                        (split "," (strip_chars [" "; "("; ")"]%char line)) with
                | Ok [_; _] => IndexError
                | _ => ValueError
                end)).
Proof.
  intros line Hl1 Hne Hhead Hcolon.
  assert (∀ e, load_line st1 raw = Raise e →
               load_graph_from_file (l1 ++ raw :: l2) = Raise e) as Hfail.
  { intros e He. unfold load_graph_from_file.
    rewrite load_lines_app, Hl1. simpl. by rewrite He. }
  split; intros Hsec; apply Hfail; rewrite (load_line_content _ _ Hhead);
    fold line; cbv zeta; rewrite Hsec;
    destruct line as [|ch line'] eqn:Hline; try done;
    rewrite <- Hline in *; clear Hline.
  - unfold parse_node_line. rewrite (split_no_separator _ _ Hcolon). simpl.
    destruct (int line) as [z|e] eqn:Hint; simpl; [done|].
    by rewrite (int_raises_ValueError _ _ Hint).
  - unfold parse_edge_line. rewrite (split_no_separator _ _ Hcolon). simpl.
    destruct (res_mapM int _) as [[|n1 [|n2 [|n3 ends]]]|e] eqn:Hends;
      simpl; try done.
    by rewrite (res_mapM_int_raises _ _ Hends).
Qed.

Lemma loader_missing_colon_witness :
  load_graph_from_file ["Nodes:"; "1: (0,0)"; "7"; "2: (1,1)"]%string
  = Raise IndexError
  ∧ load_graph_from_file ["Nodes:"; "1: (0,0)"; "Edges:"; "(1,1) 5"]%string
    = Raise ValueError
  ∧ load_graph_from_file ["Nodes:"; "1: (0,0)"; "Edges:"; "(1,2)"]%string
    = Raise IndexError
  ∧ load_graph_from_file
      ["Nodes:"; "1: (0,0)"; "Edges:";
       String "(" (String "1" (String (ascii_of_nat 31) ",2)"))]%string
    = Raise ValueError.
Proof.
  split_and!.
  - apply (proj1 (loader_missing_colon ["Nodes:"; "1: (0,0)"]%string
                    ["2: (1,1)"]%string "7"%string
                    (mkLoader (Some SecNodes) [(1, [0; 0])]%Z [] None [])
                    ltac:(by vm_compute) ltac:(done) ltac:(done)
                    ltac:(apply (bool_decide_unpack _); by vm_compute))
             eq_refl).
  - apply (proj2 (loader_missing_colon
                    ["Nodes:"; "1: (0,0)"; "Edges:"]%string
                    [] "(1,1) 5"%string
                    (mkLoader (Some SecEdges) [(1, [0; 0])]%Z [] None [])
                    ltac:(by vm_compute) ltac:(done) ltac:(done)
                    ltac:(apply (bool_decide_unpack _); by vm_compute))
             eq_refl).
  - apply (proj2 (loader_missing_colon
                    ["Nodes:"; "1: (0,0)"; "Edges:"]%string
                    [] "(1,2)"%string
                    (mkLoader (Some SecEdges) [(1, [0; 0])]%Z [] None [])
                    ltac:(by vm_compute) ltac:(done) ltac:(done)
                    ltac:(apply (bool_decide_unpack _); by vm_compute))
             eq_refl).
  - apply (proj2 (loader_missing_colon
                    ["Nodes:"; "1: (0,0)"; "Edges:"]%string
                    [] (String "(" (String "1" (String (ascii_of_nat 31) ",2)")))
                    (mkLoader (Some SecEdges) [(1, [0; 0])]%Z [] None [])
                    ltac:(by vm_compute) ltac:(by vm_compute)
                    ltac:(by vm_compute)
                    ltac:(apply (bool_decide_unpack _); by vm_compute))
             eq_refl).
Defined.

Lemma declared_origins_cons sec raw r :
  declared_origins_from sec (raw :: r)
  = declared_origins_from sec [raw]
    ++ declared_origins_from (next_section sec raw) r.
Proof.
  unfold declared_origins_from. by rewrite section_lines_cons, omap_app.
Qed.

Lemma declared_destinations_cons sec raw r :
  declared_destinations_from sec (raw :: r)
  = declared_destinations_from sec [raw]
    ++ declared_destinations_from (next_section sec raw) r.
Proof.
  unfold declared_destinations_from. by rewrite section_lines_cons, omap_app.
Qed.

Lemma load_line_origin st raw st' :
  load_line st raw = Ok st' →
  ld_origin st'
  = from_option Some (ld_origin st)
      (last (declared_origins_from (ld_section st) [raw]))
  ∧ ld_destinations st'
    = default (ld_destinations st)
        (last (declared_destinations_from (ld_section st) [raw])).
Proof.
  unfold load_line, declared_origins_from, declared_destinations_from.
  simpl. unfold line_header.
  set (line := strip (list_ascii_of_string raw)).
  destruct (bool_decide (line = _)); [by intros [= <-]|].
  destruct (bool_decide (line = _)); [by intros [= <-]|].
  destruct (bool_decide (line = _)); [by intros [= <-]|].
  destruct (bool_decide (line = _)); [by intros [= <-]|].
  destruct line as [|ch line'] eqn:Hline; [by intros [= <-]|].
  rewrite <- Hline. clear Hline.
  destruct (ld_section st) as [[]|] eqn:Hsec; simpl.
  - destruct (parse_node_line line) as [[node coords]|e]; [|done].
    by intros [= <-].
  - destruct (parse_edge_line line) as [[ends c]|e]; [|done].
    by intros [= <-].
  - destruct (int line) as [o|e]; [|done]. by intros [= <-].
  - destruct (res_mapM int (split ";" line)) as [ds|e]; [|done].
    by intros [= <-].
  - by intros [= <-].
Qed.

Lemma load_lines_origin lines st st' :
  load_lines st lines = Ok st' →
  ld_origin st'
  = from_option Some (ld_origin st)
      (last (declared_origins_from (ld_section st) lines))
  ∧ ld_destinations st'
    = default (ld_destinations st)
        (last (declared_destinations_from (ld_section st) lines)).
Proof.
  revert st. induction lines as [|raw lines IH]; intros st; simpl.
  - by intros [= <-].
  - destruct (load_line st raw) as [st1|e] eqn:Hline; [|done]. simpl.
    intros Hrest.
    pose proof (load_line_section _ _ _ Hline) as Hsec.
    apply load_line_origin in Hline as [Ho Hd].
    destruct (IH _ Hrest) as [Ho' Hd'].
    rewrite declared_origins_cons, declared_destinations_cons, !last_app.
    rewrite <- Hsec. rewrite Ho', Hd', Ho, Hd.
    split.
    + by destruct (last (declared_origins_from (ld_section st1) lines)).
    + by destruct (last (declared_destinations_from (ld_section st1) lines)).
Qed.

(** X17.  The origin the loader returns is the last one declared in a
    section [Origin:], and the destinations are those of the last line of a
    section [Destinations:]: earlier lines are overwritten, not added to.
    Without such a line the origin is [None] and the destinations are
    empty. *)
Theorem load_origin_destinations_last (lines : list string) (g : Graph)
    (origin : option Z) (dests : list Z) :
  load_graph_from_file lines = Ok (g, origin, dests) →
  origin = last (declared_origins lines)
  ∧ dests = default [] (last (declared_destinations lines)).
Proof.
  unfold load_graph_from_file. intros Hload.
  destruct (load_lines (mkLoader None [] [] None []) lines) as [st|e] eqn:Hl;
    [|done].
  simpl in Hload. injection Hload as _ <- <-.
  apply load_lines_origin in Hl as [Ho Hd]. simpl in Ho, Hd.
  fold (declared_origins lines) in Ho.
  fold (declared_destinations lines) in Hd.
  split; [|done]. rewrite Ho. by destruct (last (declared_origins lines)).
Qed.

Lemma load_origin_destinations_last_witness :
  let file :=
    ["Nodes:"; "1: (0,0)"; "2: (1,1)"; "Edges:"; "(1,2): 5";
     "Origin:"; "1"; "2"; "Destinations:"; "1; 2"; "2"]%string in
  ∃ g, load_graph_from_file file = Ok (g, Some 2%Z, [2%Z])
       ∧ Some 2%Z = last (declared_origins file)
       ∧ [2%Z] = default [] (last (declared_destinations file))
       ∧ declared_destinations file = [[1; 2]; [2]]%Z.
Proof.
  intros file. eexists. split; [vm_compute; reflexivity|].
  apply and_assoc. split; [|vm_compute; reflexivity].
  eapply (load_origin_destinations_last file).
  vm_compute; reflexivity.
Defined.

Lemma dict_set_nonempty {K V} `{EqDecision K} (d : dict K V) k v :
  dict_set d k v ≠ [].
Proof. destruct d as [|[k' v'] d]; simpl; [done|]. by case_decide. Qed.

Lemma connect1_graph_dict g A B w a :
  dict_get (graph_dict (connect1 g A B w)) a
  = if decide (a = A)
    then Some (dict_set (default [] (dict_get (graph_dict g) A)) B w)
    else dict_get (graph_dict g) a.
Proof.
  unfold connect1.
  pose proof (dict_setdefault_value (graph_dict g) A []) as Hlinks.
  pose proof (dict_setdefault_get (graph_dict g) A [] a) as Hd.
  destruct (dict_setdefault (graph_dict g) A []) as [links d].
  simpl in Hlinks, Hd. subst links. simpl. rewrite dict_get_set.
  destruct (decide (a = A)) as [->|Hne]; [done|].
  rewrite Hd. by destruct (dict_get (graph_dict g) a).
Qed.

Lemma connect_edges_ind (P : Graph → Prop) (Q : Z → Prop) ks
    (edges : dict (Z * Z) Z) g :
  (∀ g a b w, P g → Q a → P (connect1 g a b w)) →
  Forall Q ks → P g →
  P (fold_left
       (fun g node =>
          fold_left
            (fun g e =>
               if bool_decide (e.1.1 = node) then connect1 g e.1.1 e.1.2 e.2
               else g)
            edges g)
       ks g).
Proof.
  intros Hstep Hks. revert g.
  induction Hks as [|k ks Hk Hks IH]; intros g HP; [done|].
  cbn [fold_left]. apply IH. clear IH Hks.
  revert g HP. induction edges as [|e es IHes]; intros g HP; [done|].
  cbn [fold_left]. apply IHes.
  case_bool_decide as He; [|done]. apply Hstep; [done | by rewrite He].
Qed.

(** X18.  In a graph that [load_graph_from_file] returns, the adjacency
    dictionary is well formed, every node that has an entry in it has at
    least one outgoing edge and has coordinates in [locations], and so
    [find_min_edge] does not raise on it: it returns a lower bound of the
    weights of all edges. *)
Theorem loaded_graph_well_formed (lines : list string) (g : Graph)
    (origin : option Z) (dests : list Z) :
  load_graph_from_file lines = Ok (g, origin, dests) →
  wf_graph g
  ∧ (∀ a links, dict_get (graph_dict g) a = Some links →
       links ≠ []
       ∧ ∃ locs, locations g = Some locs ∧ a ∈ dict_keys locs)
  ∧ ∃ m, find_min_edge g = Ok m
         ∧ ∀ a b w, edge_weight g a b = Some w → cost_le m (Fin w).
Proof.
  unfold load_graph_from_file. intros Hload.
  destruct (load_lines (mkLoader None [] [] None []) lines) as [st|e];
    [|done].
  simpl in Hload. injection Hload as <- _ _. clear origin dests.
  set (gm := connect_edges (ld_nodes st) (ld_edges st) Graph_init).
  assert (wf_graph gm
          ∧ ∀ a links, dict_get (graph_dict gm) a = Some links →
              links ≠ [] ∧ a ∈ dict_keys (ld_nodes st)) as [Hwf Hlinks].
  { unfold gm, connect_edges.
    apply (connect_edges_ind
             (fun g => wf_graph g
                       ∧ ∀ a links, dict_get (graph_dict g) a = Some links →
                           links ≠ [] ∧ a ∈ dict_keys (ld_nodes st))
             (fun a => a ∈ dict_keys (ld_nodes st))).
    - intros g a b w [Hwf Hl] Ha. split; [by apply connect1_wf|].
      intros a' links. rewrite connect1_graph_dict.
      case_decide as Heq.
      + subst a'. intros [= <-]. split; [apply dict_set_nonempty | done].
      + apply Hl.
    - by apply Forall_forall.
    - split; [|done]. split; simpl; constructor. }
  split_and!.
  - destruct Hwf as [Hnd Hall]. by split.
  - intros a links Ha. destruct (Hlinks a links Ha) as [Hne Hin].
    split; [done|]. by exists (ld_nodes st).
  - simpl. unfold find_min_edge. simpl.
    destruct (find_min_edge_fold (graph_dict gm) Inf) as (m & Hm & _ & Hlow & _).
    { apply Forall_forall. intros [a links] Hin. simpl.
      destruct Hwf as [Hnd _].
      apply (Hlinks a). by apply dict_get_elem_of_NoDup. }
    exists m. split; [exact Hm|].
    intros a b w Hw. unfold edge_weight in Hw. simpl in Hw.
    destruct (dict_get (graph_dict gm) a) as [links|] eqn:Ha; [|done].
    eapply Hlow; by eapply dict_get_Some_elem_of.
Qed.

Lemma loaded_graph_well_formed_witness :
  let file :=
    ["Nodes:"; "1: (0,0)"; "2: (3,4)"; "Edges:"; "(1,2): 5"; "(2,1): 4";
     "(3,1): 1"; "Origin:"; "1"; "Destinations:"; "2"]%string in
  ∃ g, load_graph_from_file file = Ok (g, Some 1%Z, [2%Z])
       ∧ wf_graph g
       ∧ ∃ m, find_min_edge g = Ok m
              ∧ ∀ a b w, edge_weight g a b = Some w → cost_le m (Fin w).
Proof.
  intros file.
  destruct (load_graph_from_file file) as [[[g o] ds]|e] eqn:Hload;
    [|by vm_compute in Hload].
  assert (o = Some 1%Z ∧ ds = [2%Z]) as [-> ->].
  { vm_compute in Hload. by injection Hload as _ <- <-. }
  exists g. split; [reflexivity|].
  destruct (loaded_graph_well_formed file g _ _ Hload) as (Hwf & _ & Hmin).
  exact (conj Hwf Hmin).
Defined.

(** ** Breadth-first search on any problem *)

(** X19.  On a problem with finitely many reachable states among which
    there is a goal state, [breadth_first_graph_search] terminates and
    returns a goal node whose depth is the least number of transitions in
    which a goal state can be reached, whatever the costs of the
    transitions. *)
Theorem breadth_first_fewest_steps {State Action W : Type} `{Countable State}
    (problem : @Problem State Action W) (Winv : W → Prop)
    (acts : State → list Action) (U : gset State) (w0 : W) :
  stable problem Winv acts → Winv w0 →
  (∀ s, reach problem acts s → s ∈ U) →
  (∃ s, reach problem acts s ∧ goal_test problem s = true) →
  ∃ fuel0 r w n,
    (∀ fuel, fuel0 ≤ fuel →
       breadth_first_graph_search problem fuel w0 = Some (r, w))
    ∧ result_node r = Some n
    ∧ goal_test problem (state n) = true
    ∧ reachN problem acts (depth n) (state n)
    ∧ ∀ j s, reachN problem acts j s → goal_test problem s = true →
             depth n ≤ j.
Proof.
  intros Hstable Hw0 HU Hgoal.
  destruct (breadth_first_shallowest problem Winv acts Hstable U w0 Hw0 HU Hgoal)
    as (fuel0 & r & w & n & Hrun & Hr & Hwf & Hg & Hmin).
  exists fuel0, r, w, n. split_and!; try done.
  destruct (wf_node_path problem Winv acts n Hwf) as [Hpath Hlen].
  apply path_reachN in Hpath. rewrite length_map, Hlen in Hpath.
  by replace (S (depth n) - 1) with (depth n) in Hpath by lia.
Qed.

Lemma breadth_first_fewest_steps_witness :
  let g := mkGraph [(1, [(2, 1); (4, 9)]); (2, [(3, 1)]); (3, [(4, 1)])]%Z
                   true None in
  let p := GraphProblem 1%Z (GoalState 4%Z) in
  ∃ fuel0 r w n,
    (∀ fuel, fuel0 ≤ fuel → breadth_first_graph_search p fuel g = Some (r, w))
    ∧ result_node r = Some n
    ∧ goal_test p (state n) = true
    ∧ reachN p (graph_actions g) (depth n) (state n)
    ∧ ∀ j s, reachN p (graph_actions g) j s → goal_test p s = true →
             depth n ≤ j.
Proof.
  intros g p.
  apply (breadth_first_fewest_steps p (graph_grown g) (graph_actions g)
           (list_to_set (1 :: nodes g)%Z) g).
  - apply GraphProblem_stable.
  - apply graph_grown_refl.
  - intros s. apply GraphProblem_reach_nodes.
  - exists 4%Z. split; [|done].
    apply (reach_successor p _ 1%Z); [apply reach_initial|].
    exists 4%Z. split; [|done]. apply (bool_decide_unpack _). by vm_compute.
Defined.

(** ** Searching again on the graph a search has left *)

Section Blind.
Context {State Action W : Type} `{Countable State}.
Variable state_ltb : State → State → bool.
Variable problem : @Problem State Action W.
Variable Winv : W → Prop.
Variable acts : State → list Action.
Hypothesis Hstable : stable problem Winv acts.
Hypothesis Hblind : store_blind problem Winv.

Local Abbreviation config F := (@config State Action W _ _ F).
Local Abbreviation outcome F := (@outcome State Action W _ _ F).
Local Abbreviation Node := (@Node State Action).

Lemma child_node_blind (n : Node) a w1 w2 :
  Winv w1 → Winv w2 →
  (child_node n problem a w1).1 = (child_node n problem a w2).1.
Proof using Hblind.
  intros H1 H2. unfold child_node.
  pose proof (Hblind (path_cost n) (state n) a
                (result problem (state n) a) w1 w2 H1 H2) as Heq.
  destruct (problem_path_cost problem (path_cost n) (state n) a
              (result problem (state n) a) w1) as [c1 w1'].
  destruct (problem_path_cost problem (path_cost n) (state n) a
              (result problem (state n) a) w2) as [c2 w2'].
  simpl in *. by subst.
Qed.

Lemma expand_blind (n : Node) w1 w2 :
  Winv w1 → Winv w2 →
  (expand n problem w1).1 = (expand n problem w2).1
  ∧ Winv (expand n problem w1).2 ∧ Winv (expand n problem w2).2.
Proof using Hstable Hblind.
  intros H1 H2.
  destruct (expand_stable problem Winv acts Hstable n w1 H1) as [Hw1 Hall1].
  destruct (expand_stable problem Winv acts Hstable n w2 H2) as [Hw2 Hall2].
  split_and!; [|done|done].
  revert Hall1 Hall2.
  generalize (expand n problem w1).1 (expand n problem w2).1 (acts (state n)).
  intros l1 l2 l Hall1. revert l2.
  induction Hall1 as [|a c l l1 (wa & Hwa & ->) _ IH]; intros l2 Hall2.
  - by apply Forall2_nil_inv_l in Hall2.
  - apply Forall2_cons_inv_l in Hall2 as (c' & l2' & (wb & Hwb & ->) & Hall2 & ->).
    f_equal; [by apply child_node_blind | by apply IH].
Qed.

Lemma dfs_step_blind : step_blind Winv (dfs_step problem).
Proof using Hstable Hblind.
  intros c w2 Hw Hw2. unfold dfs_step, with_world. simpl.
  destruct (pending c) as [|child rest].
  - destruct (list_pop (frontier c)) as [[node fr]|]; [|done].
    destruct (goal_test problem (state node)); [done|].
    destruct (expand_blind node _ _ Hw Hw2) as (Heq & H1 & H2).
    destruct (expand node problem (world c)) as [ch1 w1'].
    destruct (expand node problem w2) as [ch2 w2']. simpl in *. by subst.
  - by destruct (_ && _).
Qed.

Lemma bfs_step_blind : step_blind Winv (bfs_step problem).
Proof using Hstable Hblind.
  intros c w2 Hw Hw2. unfold bfs_step, with_world. simpl.
  destruct (pending c) as [|child rest].
  - destruct (frontier c) as [|node fr]; [done|].
    destruct (expand_blind node _ _ Hw Hw2) as (Heq & H1 & H2).
    destruct (expand node problem (world c)) as [ch1 w1'].
    destruct (expand node problem w2) as [ch2 w2']. simpl in *. by subst.
  - destruct (_ && _); [|done]. by destruct (goal_test _ _).
Qed.

Lemma bf_step_blind f : step_blind Winv (bf_step state_ltb problem f).
Proof using Hstable Hblind.
  intros c w2 Hw Hw2. unfold bf_step, with_world. simpl.
  destruct (pending c) as [|child rest].
  - destruct (pq_pop state_ltb (frontier c)) as [[node fr]|]; [|done].
    destruct (goal_test problem (state node)); [done|].
    destruct (expand_blind node _ _ Hw Hw2) as (Heq & H1 & H2).
    destruct (expand node problem (world c)) as [ch1 w1'].
    destruct (expand node problem w2) as [ch2 w2']. simpl in *. by subst.
  - destruct (_ && _); [done|]. destruct (pq_contains _ _); [|done].
    destruct (pq_getitem _ _); [|done]. by destruct (cost_ltb _ _).
Qed.

Lemma run_blind {F} (step : config F → outcome F) :
  step_blind Winv step →
  ∀ fuel (c : config F) w2 r w,
    Winv (world c) → Winv w2 →
    run step fuel c = Some (r, w) →
    ∃ w', run step fuel (with_world c w2) = Some (r, w') ∧ Winv w'.
Proof.
  intros Hsb fuel. induction fuel as [|fuel IH]; intros c w2 r w Hw Hw2;
    simpl; [done|].
  specialize (Hsb c w2 Hw Hw2).
  destruct (step c) as [c1|r1 w1];
    destruct (step (with_world c w2)) as [c2|r2 w2']; try done.
  - destruct Hsb as (Hf & He & Hp & H1 & H2). intros Hrun.
    destruct (IH c1 (world c2) r w H1 H2 Hrun) as (w' & Hrun' & Hw').
    exists w'. split; [|done].
    destruct c1, c2. unfold with_world in Hrun'. simpl in *. by subst.
  - destruct Hsb as [-> ->]. intros [= -> ->]. by exists w2.
Qed.

End Blind.

Lemma GraphProblem_blind (g : Graph) (origin : Z) (goal : Goal) :
  store_blind (GraphProblem origin goal) (graph_grown g).
Proof.
  intros c s a s' w1 w2 H1 H2. simpl.
  rewrite !GraphProblem_path_cost_value.
  by rewrite (graph_grown_edge_weight _ _ _ _ H1),
             (graph_grown_edge_weight _ _ _ _ H2).
Qed.

(** X20.  The keys that the calls of [get] add to the graph during a search
    do not change what a later search returns: on a graph [g'] that differs
    from [g] by such keys, each of the three searches returns the result it
    returns on [g], and leaves a graph of the same kind.  So the searches
    that [runGraphSeacrh] runs one after the other on a single graph answer
    as they would on the graph as loaded; the values of [h] are the same
    as well. *)
Theorem search_on_grown_graph (state_ltb : Z → Z → bool)
    (f : @Node Z Z → cost) (g g' : Graph) (origin : Z) (goal : Goal)
    (fuel : nat) (r : search_result) (w : Graph) :
  graph_grown g g' →
  let p := GraphProblem origin goal in
  (depth_first_graph_search p fuel g = Some (r, w) →
     ∃ w', depth_first_graph_search p fuel g' = Some (r, w')
           ∧ graph_grown g w')
  ∧ (breadth_first_graph_search p fuel g = Some (r, w) →
       ∃ w', breadth_first_graph_search p fuel g' = Some (r, w')
             ∧ graph_grown g w')
  ∧ (best_first_graph_search state_ltb p f fuel g = Some (r, w) →
       ∃ w', best_first_graph_search state_ltb p f fuel g' = Some (r, w')
             ∧ graph_grown g w')
  ∧ ∀ node, GraphProblem_h g' goal node = GraphProblem_h g goal node.
Proof.
  intros Hg p.
  pose proof (GraphProblem_stable g origin goal) as Hstable.
  pose proof (GraphProblem_blind g origin goal) as Hblind.
  pose proof (graph_grown_refl g) as Hg0.
  split_and!; [| | |intros node; unfold GraphProblem_h;
                     by destruct Hg as (_ & -> & _)].
  - intros Hrun.
    apply (run_blind (graph_grown g) (dfs_step p)
             (dfs_step_blind p _ _ Hstable Hblind) fuel (dfs_init p g) g' r w
             Hg0 Hg Hrun).
  - unfold breadth_first_graph_search.
    destruct (goal_test p _).
    + intros [= <- <-]. by exists g'.
    + intros Hrun.
      apply (run_blind (graph_grown g) (bfs_step p)
               (bfs_step_blind p _ _ Hstable Hblind) fuel (bfs_init p g) g' r w
               Hg0 Hg Hrun).
  - intros Hrun.
    apply (run_blind (graph_grown g) (bf_step state_ltb p f)
             (bf_step_blind state_ltb p _ _ Hstable Hblind f) fuel
             (bf_init p f g) g' r w Hg0 Hg Hrun).
Qed.

Lemma search_on_grown_graph_witness :
  let g := mkGraph [(1, [(2, 4); (3, 5)]); (2, [(4, 1)]); (3, [(4, 1)])]%Z
                   true None in
  ∃ g' r w w',
    depth_first_graph_search (GraphProblem 1%Z (GoalState 9%Z)) 20 g
    = Some (CountOnly 4, g')
    ∧ graph_dict g' ≠ graph_dict g
    ∧ depth_first_graph_search (GraphProblem 1%Z (GoalState 4%Z)) 20 g
      = Some (r, w)
    ∧ depth_first_graph_search (GraphProblem 1%Z (GoalState 4%Z)) 20 g'
      = Some (r, w').
Proof.
  intros g.
  destruct (depth_first_graph_search (GraphProblem 1%Z (GoalState 9%Z)) 20 g)
    as [[[n0|n k|k] g']|] eqn:Hrun1; try (by vm_compute in Hrun1).
  assert (k = 4) as -> by (vm_compute in Hrun1; by injection Hrun1 as <- _).
  assert (graph_grown g g' ∧ graph_dict g' ≠ graph_dict g) as [Hg Hne].
  { vm_compute in Hrun1. injection Hrun1 as <-. split; [|done].
    split_and!; [done | done |]. by exists [4%Z]. }
  destruct (depth_first_graph_search (GraphProblem 1%Z (GoalState 4%Z)) 20 g)
    as [[r2 w2]|] eqn:Hrun2; [|by vm_compute in Hrun2].
  destruct (proj1 (search_on_grown_graph Z.ltb (fun _ => Inf) g g' 1%Z
                     (GoalState 4%Z) 20 r2 w2 Hg) Hrun2) as (w3 & Hrun3 & _).
  by exists g', r2, w2, w3.
Defined.

(** ** What the driver can unpack *)

(** X21.  The pair assignment that [runGraphSeacrh] applies to the value of
    a search raises [TypeError] whenever the search fails: on a problem
    with finitely many reachable states none of which is a goal, the value
    of each of the three searches cannot be unpacked.  It raises as well on
    the value of [breadth_first_graph_search] when the initial state is a
    goal. *)
Theorem failed_search_cannot_be_unpacked {State Action W : Type}
    `{Countable State} (state_ltb : State → State → bool)
    (problem : @Problem State Action W) (Winv : W → Prop)
    (acts : State → list Action) (f : @Node State Action → cost)
    (U : gset State) (w0 : W) :
  stable problem Winv acts → Winv w0 →
  (∀ s, s ∈ U ↔ reach problem acts s) →
  ((∀ s, reach problem acts s → goal_test problem s = false) →
     ∃ fuel0, ∀ fuel, fuel0 ≤ fuel →
       (∃ r w, depth_first_graph_search problem fuel w0 = Some (r, w)
               ∧ unpack_result r = TypeError)
       ∧ (∃ r w, breadth_first_graph_search problem fuel w0 = Some (r, w)
                 ∧ unpack_result r = TypeError)
       ∧ (∃ r w, best_first_graph_search state_ltb problem f fuel w0
                 = Some (r, w)
                 ∧ unpack_result r = TypeError))
  ∧ (goal_test problem (initial problem) = true →
       ∀ fuel, ∃ r w, breadth_first_graph_search problem fuel w0 = Some (r, w)
                      ∧ unpack_result r = TypeError).
Proof.
  intros Hstable Hw0 HU. split.
  - intros Hnogoal.
    destruct (machine_failure problem Winv acts Hstable (map state) id
                (dfs_step problem) (dfs_step_shape problem)
                (dfs_step_sees_child problem) (dfs_step_returns problem)
                (dfs_init problem w0)
                (dfs_init_domain_inv problem Winv acts w0 Hw0)
                (dfs_init_frontier_inv problem w0)
                (dfs_init_closure_inv problem acts w0) U HU Hnogoal)
      as (fuel1 & w1 & Hrun1).
    destruct (machine_failure problem Winv acts Hstable (map state) id
                (bfs_step problem) (bfs_step_shape problem)
                (bfs_step_sees_child problem) (bfs_step_returns problem)
                (bfs_init problem w0)
                (dfs_init_domain_inv problem Winv acts w0 Hw0)
                (dfs_init_frontier_inv problem w0)
                (dfs_init_closure_inv problem acts w0) U HU Hnogoal)
      as (fuel2 & w2 & Hrun2).
    destruct (machine_failure problem Winv acts Hstable pq_states pq_nodes
                (bf_step state_ltb problem f)
                (bf_step_shape state_ltb problem f)
                (bf_step_sees_child state_ltb problem f)
                (bf_step_returns state_ltb problem f)
                (bf_init problem f w0)
                (bf_init_domain_inv problem Winv acts f w0 Hw0)
                (bf_init_frontier_inv problem f w0)
                (bf_init_closure_inv problem acts f w0) U HU Hnogoal)
      as (fuel3 & w3 & Hrun3).
    exists (fuel1 `max` (fuel2 `max` fuel3)). intros fuel Hfuel. split_and!.
    + exists (CountOnly (size U)), w1. split; [apply Hrun1; lia | done].
    + exists (CountOnly (size U)), w2. split; [|done].
      unfold breadth_first_graph_search. simpl.
      rewrite (Hnogoal (initial problem)) by constructor.
      apply Hrun2. lia.
    + exists (CountOnly (size U)), w3. split; [apply Hrun3; lia | done].
  - intros Hg fuel. unfold breadth_first_graph_search. simpl. rewrite Hg.
    by eexists _, _.
Qed.

Lemma failed_search_cannot_be_unpacked_witness :
  let g := mkGraph [(1, [(2, 1)]); (2, [(1, 1)])]%Z true None in
  let p := GraphProblem 1%Z (GoalState 9%Z) in
  ∃ fuel0, ∀ fuel, fuel0 ≤ fuel →
    (∃ r w, depth_first_graph_search p fuel g = Some (r, w)
            ∧ unpack_result r = TypeError)
    ∧ (∃ r w, breadth_first_graph_search p fuel g = Some (r, w)
              ∧ unpack_result r = TypeError)
    ∧ (∃ r w, best_first_graph_search Z.ltb p (fun _ => Inf) fuel g
              = Some (r, w)
              ∧ unpack_result r = TypeError).
Proof.
  intros g p.
  assert (∀ s, s ∈ ({[1%Z; 2%Z]} : gset Z) ↔ reach p (graph_actions g) s)
    as HU.
  { intros s. split.
    - intros [->%elem_of_singleton| ->%elem_of_singleton]%elem_of_union.
      + apply reach_initial.
      + apply (reach_successor p _ 1%Z); [apply reach_initial|].
        exists 2%Z. split; [|done]. apply (bool_decide_unpack _). by vm_compute.
    - intros Hs. apply GraphProblem_reach_nodes in Hs.
      apply elem_of_list_to_set in Hs. vm_compute nodes in Hs.
      apply elem_of_cons in Hs as [->|Hs]; [set_solver|].
      apply elem_of_cons in Hs as [->|Hs]; [set_solver|].
      apply elem_of_cons in Hs as [->|Hs]; [set_solver|].
      by apply elem_of_nil in Hs. }
  apply (proj1 (failed_search_cannot_be_unpacked Z.ltb p (graph_grown g)
                  (graph_actions g) (fun _ => Inf) {[1%Z; 2%Z]} g
                  (GraphProblem_stable g 1%Z (GoalState 9%Z))
                  (graph_grown_refl g) HU)).
  intros s Hs. apply HU in Hs. apply bool_decide_eq_false.
  intros ->. revert Hs. apply (bool_decide_unpack _). by vm_compute.
Defined.

(** ** A* with a consistent estimate *)

Lemma cost_ltb_le (a b : cost) : cost_ltb a b = true → cost_le a b.
Proof. destruct a, b; simpl; try done. intros ?%Z.ltb_lt. lia. Qed.

Lemma cost_ltb_ge (a b : cost) : cost_ltb a b = false → cost_le b a.
Proof. destruct a, b; simpl; try done. intros ?%Z.ltb_ge. lia. Qed.

Section Astar.
Context {State Action W : Type} `{Countable State}.
Variable state_ltb : State → State → bool.
Variable problem : @Problem State Action W.
Variable Winv : W → Prop.
Variable acts : State → list Action.
Variable wt : State → Action → Z.
Variable hs : State → Z.
Hypothesis Hstable : stable problem Winv acts.
Hypothesis Hcost : additive_cost problem acts wt Winv.
Hypothesis Hcons : consistent_heuristic problem acts wt hs.

Local Abbreviation config F := (@config State Action W _ _ F).
Local Abbreviation Node := (@Node State Action).
Local Abbreviation PriorityQueue := (@PriorityQueue State Action).
Local Abbreviation route := (route problem acts wt).
Local Abbreviation astar_inv := (astar_inv problem acts wt).
Local Abbreviation astar_f :=
  (fun n : Node => cost_add (path_cost n) (Fin (hs (state n)))).
Local Abbreviation astar_step := (bf_step state_ltb problem astar_f).

Lemma entry_ltb_le (x e : cost * Node) :
  entry_ltb state_ltb x e = true → cost_le x.1 e.1.
Proof.
  unfold entry_ltb. intros [Hlt|[Heq _]%andb_true_iff]%orb_true_iff.
  - by apply cost_ltb_le.
  - apply bool_decide_eq_true in Heq. rewrite Heq. apply cost_le_refl.
Qed.

Lemma entry_ltb_ge (x e : cost * Node) :
  entry_ltb state_ltb x e = false → cost_le e.1 x.1.
Proof.
  unfold entry_ltb. intros [Hlt _]%orb_false_iff. by apply cost_ltb_ge.
Qed.

Lemma pq_extract_least (e : cost * Node) (q : PriorityQueue) :
  cost_le (pq_extract state_ltb e q).1.1 e.1
  ∧ ∀ x, x ∈ q → cost_le (pq_extract state_ltb e q).1.1 x.1.
Proof.
  revert e. induction q as [|x q IH]; intros e; simpl.
  - split; [apply cost_le_refl | by intros x ?%elem_of_nil].
  - destruct (entry_ltb state_ltb x e) eqn:Hlt.
    + destruct (IH x) as [Hx Hq].
      destruct (pq_extract state_ltb x q) as [m rest]. simpl in *.
      apply entry_ltb_le in Hlt. split; [by eapply cost_le_trans|].
      intros y [->|Hy]%elem_of_cons; auto.
    + destruct (IH e) as [He Hq].
      destruct (pq_extract state_ltb e q) as [m rest]. simpl in *.
      apply entry_ltb_ge in Hlt. split; [done|].
      intros y [->|Hy]%elem_of_cons; [by eapply cost_le_trans | auto].
Qed.

(** [pop] takes out an entry whose key is least. *)
Lemma pq_pop_least (q : PriorityQueue) n q' :
  pq_pop state_ltb q = Some (n, q') →
  ∃ k, q ≡ₚ (k, n) :: q' ∧ ∀ x, x ∈ q → cost_le k x.1.
Proof.
  unfold pq_pop. destruct q as [|e q]; [done|].
  pose proof (pq_extract_perm state_ltb e q) as Hp.
  pose proof (pq_extract_least e q) as [He Hq].
  destruct (pq_extract state_ltb e q) as [[k m] rest]. simpl in *.
  intros [= <- <-]. exists k. split; [done|].
  intros x [->|Hx]%elem_of_cons; auto.
Qed.

Lemma bf_step_running f (c c' : config PriorityQueue) :
  bf_step state_ltb problem f c = Running c' →
  (∃ child rest, pending c = child :: rest ∧ pending c' = rest
                 ∧ explored c' = explored c ∧ world c' = world c)
  ∨ (∃ node, pending c = []
             ∧ pq_pop state_ltb (frontier c) = Some (node, frontier c')
             ∧ explored c' = {[state node]} ∪ explored c
             ∧ (pending c', world c') = expand node problem (world c)).
Proof.
  unfold bf_step. destruct (pending c) as [|child rest].
  - destruct (pq_pop state_ltb (frontier c)) as [[node fr]|]; [|done].
    destruct (goal_test problem (state node)); [done|].
    destruct (expand node problem (world c)) as [children w] eqn:Hx.
    intros [= <-]. right. exists node. simpl. by rewrite Hx.
  - intros Hs. left. exists child, rest.
    destruct (_ && _); [by injection Hs as <-|].
    destruct (pq_contains _ _); [|by injection Hs as <-].
    destruct (pq_getitem _ _); [|by injection Hs as <-].
    destruct (cost_ltb _ _); by injection Hs as <-.
Qed.

Lemma covered_step (c c' : config PriorityQueue) s x :
  Forall (fun e => e.1 = astar_f e.2) (frontier c) →
  astar_step c = Running c' →
  covered s x c → (s ∉ explored c') → covered s x c'.
Proof.
  intros Hkeys Hs (m & Hm & Hst & Hle) Hnex. unfold bf_step in Hs.
  destruct (pending c) as [|child rest] eqn:Hp.
  - destruct (pq_pop state_ltb (frontier c)) as [[node fr]|] eqn:Hpop; [|done].
    destruct (goal_test problem (state node)); [done|].
    destruct (expand node problem (world c)) as [children w].
    injection Hs as <-. simpl in *.
    destruct Hm as [Hm|Hm]; [|by apply elem_of_nil in Hm].
    apply (pq_pop_Some state_ltb) in Hpop as [k Hperm].
    exists m. split_and!; [|done|done]. left.
    unfold pq_nodes in *. rewrite Hperm in Hm. simpl in Hm.
    apply elem_of_cons in Hm as [->|Hm]; [|done].
    destruct Hnex. rewrite <- Hst. apply elem_of_union. left.
    by apply elem_of_singleton.
  - assert (m ∈ pq_nodes (frontier c) ∨ m = child ∨ m ∈ rest) as Hm'.
    { destruct Hm as [?|[->|?]%elem_of_cons]; auto. }
    clear Hm.
    assert (∀ q : PriorityQueue,
              child ∈ pq_nodes (pq_append astar_f q child)) as Hnew.
    { intros q. unfold pq_nodes, pq_append. rewrite map_app.
      apply elem_of_app. right. left. }
    assert (∀ (q : PriorityQueue) y,
              y ∈ pq_nodes q → y ∈ pq_nodes (pq_append astar_f q child))
      as Hold.
    { intros q y Hy. unfold pq_nodes, pq_append. rewrite map_app.
      apply elem_of_app. by left. }
    destruct (pq_contains (frontier c) child) eqn:Hin.
    + rewrite andb_false_r in Hs.
      apply pq_contains_spec in Hin.
      destruct (pq_delitem_split _ _ Hin)
        as (q1 & e & q2 & HQ & Hest & Hnin & Hdel & Hget).
      rewrite Hget in Hs.
      assert (e.1 = astar_f e.2) as Hk.
      { rewrite HQ in Hkeys. apply Forall_app in Hkeys as [_ Hkeys].
        by apply Forall_cons in Hkeys as [? _]. }
      assert (e.2 ∈ pq_nodes (frontier c)) as He.
      { rewrite HQ. unfold pq_nodes. rewrite map_app.
        apply elem_of_app. right. left. }
      destruct (cost_ltb (astar_f child) e.1) eqn:Hlt;
        injection Hs as <-; simpl in *.
      * rewrite Hdel. destruct Hm' as [Hm|[->|Hm]].
        -- rewrite HQ in Hm. unfold pq_nodes in Hm. rewrite map_app in Hm.
           simpl in Hm.
           apply elem_of_app in Hm as [Hm|[->|Hm]%elem_of_cons].
           ++ exists m. split_and!; [|done|done]. left. apply Hold.
              unfold pq_nodes. rewrite map_app. apply elem_of_app. by left.
           ++ exists child. split_and!; [left; apply Hnew | congruence |].
              rewrite Hk in Hlt. rewrite Hest in Hlt.
              destruct (path_cost child), (path_cost e.2); simpl in *;
                try done.
              apply Z.ltb_lt in Hlt. lia.
           ++ exists m. split_and!; [|done|done]. left. apply Hold.
              unfold pq_nodes. rewrite map_app. apply elem_of_app. by right.
        -- exists child. split_and!; [left; apply Hnew | done | done].
        -- exists m. split_and!; [by right | done | done].
      * destruct Hm' as [Hm|[->|Hm]].
        -- exists m. split_and!; [by left | done | done].
        -- exists e.2. split_and!; [by left | congruence |].
           rewrite Hk in Hlt. rewrite Hest in Hlt.
           destruct (path_cost child), (path_cost e.2); simpl in *;
             try done.
           apply Z.ltb_ge in Hlt. lia.
        -- exists m. split_and!; [by right | done | done].
    + rewrite andb_true_r in Hs.
      destruct (bool_decide (state child ∉ explored c)) eqn:Hex;
        injection Hs as <-; simpl in *.
      * destruct Hm' as [Hm|[->|Hm]].
        -- exists m. split_and!; [left; by apply Hold | done | done].
        -- exists child. split_and!; [left; apply Hnew | done | done].
        -- exists m. split_and!; [by right | done | done].
      * destruct Hm' as [Hm|[->|Hm]].
        -- exists m. split_and!; [by left | done | done].
        -- apply bool_decide_eq_false in Hex. destruct Hex. by rewrite Hst.
        -- exists m. split_and!; [by right | done | done].
Qed.

(** A node built by the search has the cost of the route it stands for. *)
Lemma wf_node_route n :
  wf_node problem acts Winv n →
  ∃ g, path_cost n = Fin g ∧ route (state n) g.
Proof using Hcost.
  induction 1 as [|n a w Hn (g & Hg & Hr) Ha Hw].
  - exists 0%Z. split; [done | constructor].
  - destruct (child_node_fields n problem a w) as (Hst & _ & _ & _ & Hpc).
    exists (g + wt (state n) a)%Z. split.
    + rewrite Hpc, Hst, (Hcost _ _ _ _ Hw Ha), Hg. done.
    + rewrite Hst. by constructor.
Qed.

(** Every route to an unexplored state passes a node that is at hand, and
    whose [f] value is no larger than the route's cost plus the estimate
    at its end. *)
Lemma route_covered (c : config PriorityQueue) t C :
  astar_inv c → route t C → (t ∉ explored c) →
  ∃ m y, (m ∈ pq_nodes (frontier c) ∨ m ∈ pending c)
         ∧ path_cost m = Fin y ∧ (y + hs (state m) ≤ C + hs t)%Z.
Proof using Hcons.
  intros [H0 H1] Hr. induction Hr as [|s C a Hr IH Ha]; intros Hnex.
  - destruct H0 as [?|(m & Hm & Hst & Hle)]; [done|].
    destruct (path_cost m) as [y|] eqn:Hy; [|done].
    exists m, y. split_and!; [done | done |]. rewrite Hst. simpl in Hle. lia.
  - destruct (decide (s ∈ explored c)) as [Hin|Hnin].
    + destruct (H1 s C a Hr Hin Ha Hnex) as (m & Hm & Hst & Hle).
      destruct (path_cost m) as [y|] eqn:Hy; [|done].
      exists m, y. split_and!; [done | done |]. rewrite Hst. simpl in Hle. lia.
    + destruct (IH Hnin) as (m & y & Hm & Hy & Hle).
      exists m, y. split_and!; [done | done |].
      pose proof (Hcons s a Ha). lia.
Qed.

(** The node that [pop] takes out is at least as good, by [f], as a node
    on any route to an unexplored state. *)
Lemma pop_least_route (c : config PriorityQueue) n fr t C :
  astar_inv c → Forall (fun e => e.1 = astar_f e.2) (frontier c) →
  pending c = [] → pq_pop state_ltb (frontier c) = Some (n, fr) →
  route t C → (t ∉ explored c) →
  ∃ g, path_cost n = Fin g ∧ (g + hs (state n) ≤ C + hs t)%Z.
Proof using Hcons.
  intros Hinv Hkeys Hp Hpop Hr Hnex.
  destruct (route_covered c t C Hinv Hr Hnex) as (m & y & Hm & Hy & Hle).
  rewrite Hp in Hm. destruct Hm as [Hm|Hm]; [|by apply elem_of_nil in Hm].
  apply pq_pop_least in Hpop as (k & Hperm & Hleast).
  rewrite Forall_forall in Hkeys.
  assert (k = astar_f n) as ->.
  { apply (Hkeys (k, n)). rewrite Hperm. left. }
  unfold pq_nodes in Hm. apply list_elem_of_fmap in Hm as (e & -> & He).
  pose proof (Hleast e He) as Hk. rewrite (Hkeys e He) in Hk.
  rewrite Hy in Hk. destruct (path_cost n) as [g|]; [|done].
  exists g. split; [done|]. simpl in Hk. lia.
Qed.

Lemma astar_inv_step (c c' : config PriorityQueue) :
  astar_inv c → frontier_inv pq_states c →
  Forall (fun e => e.1 = astar_f e.2) (frontier c) → Winv (world c) →
  astar_step c = Running c' → astar_inv c'.
Proof using Hstable Hcost Hcons.
  intros Hinv Hfi Hkeys Hw Hs. pose proof Hinv as [H0 H1].
  destruct (bf_step_running _ _ _ Hs)
    as [(child & rest & Hp & Hp' & He & _) | (node & Hp & Hpop & He & Hx)].
  - split.
    + destruct (decide (initial problem ∈ explored c')) as [?|Hn]; [by left|].
      right. destruct H0 as [Hin|Hcov]; [by rewrite He in Hn|].
      by eapply covered_step.
    + intros s C a Hr Hin Ha Hnex.
      eapply covered_step; [done | done | | done].
      rewrite He in Hin, Hnex. by apply H1.
  - assert (state node ∉ explored c) as Hnode.
    { destruct Hfi as [_ Hdisj]. apply Hdisj.
      apply (pq_pop_Some state_ltb) in Hpop as [k Hperm].
      unfold pq_states. rewrite Hperm. left. }
    split.
    + destruct (decide (initial problem ∈ explored c')) as [?|Hn]; [by left|].
      right. destruct H0 as [Hin|Hcov]; [|by eapply covered_step].
      destruct Hn. rewrite He. apply elem_of_union. by right.
    + intros s C a Hr Hin Ha Hnex. rewrite He in Hin.
      apply elem_of_union in Hin as [->%elem_of_singleton|Hin].
      * destruct (pop_least_route c node (frontier c') (state node) C
                    Hinv Hkeys Hp Hpop Hr Hnode) as (g & Hg & Hle).
        destruct (expand_stable problem Winv acts Hstable node (world c) Hw)
          as [_ Hall].
        apply list_elem_of_lookup in Ha as [i Hi].
        destruct (Forall2_lookup_l _ _ _ _ _ Hall Hi)
          as (child & Hchild & w' & Hw' & ->).
        assert (a ∈ acts (state node)) as Ha
          by (apply list_elem_of_lookup; by exists i).
        destruct (child_node_fields node problem a w')
          as (Hst & _ & _ & _ & Hpc).
        exists (child_node node problem a w').1. split_and!.
        -- right. replace (pending c') with (expand node problem (world c)).1
             by (by rewrite <- Hx).
           apply list_elem_of_lookup. by exists i.
        -- done.
        -- rewrite Hpc, Hst, (Hcost _ _ _ _ Hw' Ha), Hg. simpl. lia.
      * eapply covered_step; [done | done | | done].
        apply H1; [done | done | done |].
        intros Hin'. apply Hnex. rewrite He. apply elem_of_union. by right.
Qed.

Lemma astar_inv_reachable w0 (c : config PriorityQueue) :
  Winv w0 →
  reachable astar_step (bf_init problem astar_f w0) c → astar_inv c.
Proof using Hstable Hcost Hcons.
  intros Hw0 Hc. induction Hc as [|c c' Hc IH Hs].
  - split.
    + right. exists (root_node problem). split_and!; [left; left | done | done].
    + intros s C a _ Hin. by apply not_elem_of_empty in Hin.
  - eapply astar_inv_step; [exact IH | | | | exact Hs].
    + eapply frontier_inv_reachable;
        [apply bf_step_shape | apply bf_init_frontier_inv | exact Hc].
    + apply (bf_keys_reachable state_ltb problem astar_f w0 c Hc).
    + eapply (domain_inv_reachable problem Winv acts Hstable pq_states);
        [apply bf_step_shape | by apply bf_init_domain_inv | exact Hc].
Qed.

End Astar.

Lemma bf_step_returned_pop {State Action W : Type} `{Countable State}
    (state_ltb : State → State → bool) (problem : @Problem State Action W)
    f (c : @config State Action W _ _ PriorityQueue) n k w :
  bf_step state_ltb problem f c = Returned (NodeAndCount n k) w →
  pending c = []
  ∧ goal_test problem (state n) = true
  ∧ ∃ fr, pq_pop state_ltb (frontier c) = Some (n, fr).
Proof.
  unfold bf_step. destruct (pending c) as [|child rest].
  - destruct (pq_pop state_ltb (frontier c)) as [[node fr]|]; [|done].
    destruct (goal_test problem (state node)) eqn:Hg.
    + intros [= <- _ _]. split_and!; [done | done | by exists fr].
    + by destruct (expand node problem (world c)).
  - destruct (_ && _); [done|]. destruct (pq_contains _ _); [|done].
    destruct (pq_getitem _ _); [|done]. by destruct (cost_ltb _ _).
Qed.

(** X22.  When [path_cost] adds a weight per action and the estimate is
    consistent with the weights and is 0 at the goal states, the node that
    [astar_search] returns is a cheapest one: its path cost is the cost of
    a route from the initial state to its state, and no route from the
    initial state to any goal state costs less. *)
Theorem astar_returns_cheapest {State Action W : Type} `{Countable State}
    (state_ltb : State → State → bool) (problem : @Problem State Action W)
    (Winv : W → Prop) (acts : State → list Action)
    (wt : State → Action → Z) (hs : State → Z)
    (w0 w : W) (fuel : nat) (n : @Node State Action) (k : nat) :
  stable problem Winv acts → Winv w0 →
  additive_cost problem acts wt Winv →
  consistent_heuristic problem acts wt hs →
  (∀ s, goal_test problem s = true → hs s = 0%Z) →
  astar_search state_ltb problem (fun n => Fin (hs (state n))) fuel w0
  = Some (NodeAndCount n k, w) →
  goal_test problem (state n) = true
  ∧ ∃ g, path_cost n = Fin g
         ∧ route problem acts wt (state n) g
         ∧ ∀ t C, route problem acts wt t C → goal_test problem t = true →
                  (g ≤ C)%Z.
Proof.
  intros Hstable Hw0 Hcost Hcons Hgoal Hrun.
  unfold astar_search, best_first_graph_search in Hrun.
  set (f := fun n : @Node State Action =>
              cost_add (path_cost n) (Fin (hs (state n)))) in *.
  destruct (machine_sound problem Winv acts Hstable pq_states pq_nodes
              (bf_step state_ltb problem f) (bf_step_shape state_ltb problem f)
              (bf_step_nodes state_ltb problem f)
              (bf_step_returns state_ltb problem f)
              (bf_init problem f w0)
              (bf_init_domain_inv problem Winv acts f w0 Hw0)
              (bf_init_nodes_inv problem Winv acts f w0)
              fuel _ w n Hrun eq_refl) as [Hg Hwf].
  split; [done|].
  destruct (wf_node_route problem Winv acts wt Hcost n Hwf) as (g & Hpc & Hr).
  exists g. split_and!; [done | done |].
  intros t C Ht Htg.
  apply run_reachable in Hrun as (c & Hc & Hret).
  apply bf_step_returned_pop in Hret as (Hp & _ & fr & Hpop).
  pose proof (astar_inv_reachable state_ltb problem Winv acts wt hs
                Hstable Hcost Hcons w0 c Hw0 Hc) as Hinv.
  pose proof (bf_keys_reachable state_ltb problem f w0 c Hc) as Hkeys.
  assert (t ∉ explored c) as Hnex.
  { intros Hin.
    rewrite (explored_non_goals_reachable problem (bf_step state_ltb problem f)
               (bf_init problem f w0) c
               (bf_explores_non_goals state_ltb problem f) eq_refl Hc t Hin)
      in Htg.
    done. }
  destruct (pop_least_route state_ltb problem acts wt hs Hcons c n fr t C
              Hinv Hkeys Hp Hpop Ht Hnex) as (g' & Hpc' & Hle).
  rewrite Hpc in Hpc'. injection Hpc' as <-.
  rewrite (Hgoal _ Hg), (Hgoal _ Htg) in Hle. lia.
Qed.

(** The actions of a graph problem, read off the adjacency dictionary. *)
Lemma graph_actions_Forall (g : Graph) (P : Z → Z → Prop) :
  Forall (fun kv : Z * dict Z Z =>
            Forall (fun bw : Z * Z => P kv.1 bw.1) kv.2) (graph_dict g) →
  ∀ s a, a ∈ graph_actions g s → P s a.
Proof.
  intros Hall s a. unfold graph_actions.
  destruct (dict_get (graph_dict g) s) as [links|] eqn:Hs; simpl.
  - apply dict_get_Some_elem_of in Hs. rewrite Forall_forall in Hall.
    specialize (Hall _ Hs). simpl in Hall. rewrite Forall_forall in Hall.
    intros ([b w] & -> & Hin)%list_elem_of_fmap. apply (Hall _ Hin).
  - by intros ?%elem_of_nil.
Qed.

(** Without edges of weight 0, the path cost of a graph problem adds the
    weight of the edge. *)
Lemma GraphProblem_additive (g : Graph) (origin : Z) (goal : Goal) :
  (∀ s a, a ∈ graph_actions g s → edge_weight g s a ≠ Some 0%Z) →
  additive_cost (GraphProblem origin goal) (graph_actions g)
    (fun s a => default 0%Z (edge_weight g s a)) (graph_grown g).
Proof.
  intros Hnz c s a w Hw Ha. simpl. rewrite GraphProblem_path_cost_value.
  unfold GraphProblem_result. rewrite (graph_grown_edge_weight _ _ _ _ Hw).
  specialize (Hnz s a Ha).
  assert (is_Some (edge_weight g s a)) as [x Hx].
  { rewrite edge_weight_links. by apply dict_get_is_Some_keys. }
  rewrite Hx in *. simpl. by destruct x.
Qed.

Lemma astar_returns_cheapest_witness :
  let g := mkGraph [(1, [(2, 1); (3, 3)]); (2, [(4, 5)]); (3, [(4, 1)])]%Z
                   true None in
  let p := GraphProblem 1%Z (GoalState 4%Z) in
  let hs := fun s : Z => if (s =? 3)%Z then 1%Z else 0%Z in
  let wt := fun s a : Z => default 0%Z (edge_weight g s a) in
  ∃ n k w,
    astar_search Z.ltb p (fun n => Fin (hs (state n))) 30 g
    = Some (NodeAndCount n k, w)
    ∧ map state (path n) = [1; 3; 4]%Z
    ∧ path_cost n = Fin 4
    ∧ ∀ t C, route p (graph_actions g) wt t C → goal_test p t = true →
             (4 ≤ C)%Z.
Proof.
  intros g p hs wt.
  destruct (astar_search Z.ltb p (fun n => Fin (hs (state n))) 30 g)
    as [[[n0|n k|k] w]|] eqn:Hrun; try (by vm_compute in Hrun).
  assert (map state (path n) = [1; 3; 4]%Z ∧ path_cost n = Fin 4)
    as [Hpath Hpc].
  { vm_compute in Hrun. by injection Hrun as <- _ _. }
  exists n, k, w. split_and!; [done | done | done |].
  destruct (astar_returns_cheapest Z.ltb p (graph_grown g) (graph_actions g)
              wt hs g w 30 n k) as (_ & g0 & Hpc' & _ & Hmin).
  - apply GraphProblem_stable.
  - apply graph_grown_refl.
  - apply GraphProblem_additive. apply graph_actions_Forall.
    apply (bool_decide_unpack _). by vm_compute.
  - intros s a. revert s a. apply graph_actions_Forall.
    repeat (constructor; simpl; try done).
  - intros s Hs. apply bool_decide_eq_true in Hs. by subst s.
  - exact Hrun.
  - rewrite Hpc in Hpc'. by injection Hpc' as <-.
Defined.
